(** * amqp-base: a shallow embedding of the resilience layer

    The development follows the repository component by component:
    a small model of the JavaScript values the code manipulates, then the
    Connector, the ChannelManager, the Consumer, the PublishStream and the
    TieredListener.  Every definition is a transcription of the source
    function of the same name; asynchronous code is written as a state
    machine whose transitions are the synchronous segments between two
    suspension points.

    A second part takes the components through whole runs - the
    Connector and the ChannelManager with their connections, channels and
    timers, the Consumer with the calls made on it, a write of the
    PublishStream from beginning to end, the constructor of the
    TieredListener - and adds the Listener on top of the ChannelManager
    and the Consumer. *)

From Stdlib Require Import ZArith List Bool Strings.Byte.
From stdpp Require Import base gmap strings list fin_maps pretty.

Local Open Scope string_scope.
Local Open Scope list_scope.
Local Open Scope Z_scope.

(** ** JavaScript values *)

Module Js.

(** Numbers that occur in the options of this library are counts and
    millisecond delays; the model keeps the integers and NaN, the one
    falsy number besides zero. *)
Inductive number :=
| NaN
| Num (z : Z).

Abbreviation loc := positive.

Inductive value :=
| VUndefined
| VNull
| VBool (b : bool)
| VNumber (n : number)
| VString (s : string)
| VRef (l : loc)
| VFun (name : string).

#[export] Instance number_eq_dec : EqDecision number.
Proof. solve_decision. Defined.

#[export] Instance value_eq_dec : EqDecision value.
Proof. solve_decision. Defined.

(** Heap objects: plain objects (own enumerable properties), arrays and
    Buffers.  Objects are held by reference, so two values [VRef l] alias. *)
Inductive object :=
| Obj (fields : gmap string value)
| Arr (elems : list value)
| Buf (bytes : list byte).

Abbreviation heap := (gmap loc object).

Inductive error :=
| TypeError (msg : string)
| Error (msg : string).

Inductive result (A : Type) :=
| Ok (a : A)
| Throw (e : error).
Arguments Ok {A} a.
Arguments Throw {A} e.

(** Exceptions propagate through sequencing; the notation [x ← r; k] is
    stdpp's. *)
#[export] Instance result_ret : MRet result := fun _ a => Ok a.
#[export] Instance result_bind : MBind result := fun _ _ f r =>
  match r with
  | Ok a => f a
  | Throw e => Throw e
  end.

(** ToBoolean. *)
Definition truthy (v : value) : bool :=
  match v with
  | VUndefined | VNull => false
  | VBool b => b
  | VNumber NaN => false
  | VNumber (Num z) => negb (z =? 0)
  | VString s => negb (String.eqb s "")
  | VRef _ | VFun _ => true
  end.

(** [a || b] on values. *)
Definition or_ (a b : value) : value := if truthy a then a else b.

Inductive type_tag :=
| TUndefined | TObject | TBoolean | TNumber | TString | TFunction.

#[export] Instance type_tag_eq_dec : EqDecision type_tag.
Proof. solve_decision. Defined.

(** [typeof v]; note [typeof null === 'object']. *)
Definition typeof (v : value) : type_tag :=
  match v with
  | VUndefined => TUndefined
  | VNull => TObject
  | VBool _ => TBoolean
  | VNumber _ => TNumber
  | VString _ => TString
  | VRef _ => TObject
  | VFun _ => TFunction
  end.

(** Property read [v.k], for the property names this library reads
    ([name], [delay], [queue], [routingKey], ...).  Reading a property of
    [undefined] or [null] throws; a function has its [name]; a boolean, a
    number, a string, an array or a Buffer has none of these properties. *)
Definition get (h : heap) (v : value) (k : string) : result value :=
  match v with
  | VUndefined => Throw (TypeError "Cannot read properties of undefined")
  | VNull => Throw (TypeError "Cannot read properties of null")
  | VRef l =>
      match h !! l with
      | Some (Obj fields) => Ok (default VUndefined (fields !! k))
      | _ => Ok VUndefined
      end
  | VFun name => Ok (if String.eqb k "name" then VString name else VUndefined)
  | _ => Ok VUndefined
  end.

(** [Array.prototype.indexOf] with strict equality on strings: index of the
    first occurrence, or -1. *)
Fixpoint indexOf (l : list string) (x : string) : Z :=
  match l with
  | [] => -1
  | y :: l' =>
      if String.eqb y x then 0
      else let i := indexOf l' x in if i <? 0 then -1 else i + 1
  end.

(** Array read [a[i]] at an integer index: [undefined] (here [None]) out
    of range. *)
Definition at_ {A} (l : list A) (i : Z) : option A :=
  if i <? 0 then None else l !! Z.to_nat i.

End Js.

Import Js.

(** ** Connector (src/src/index.ts) *)

Module AMQPConnector.

Abbreviation ServerURI := string.
Abbreviation Connection := nat.

Inductive serverURI_arg :=
| OneURI (uri : ServerURI)
| ManyURIs (uris : list ServerURI).

Record AMQPConnectorOptions := {
  socket_noDelay : option bool
}.

(** [lastUsedURI] is [ServerURI | null]; it also receives the result of
    [_selectServerURI], which is [undefined] on an empty list.  Both are
    [None] here: the code only tests the field for truthiness. *)
Record AMQPConnectorState := {
  started : bool;
  connecting : bool;
  connection : option Connection;
  lastUsedURI : option ServerURI;
  reconnectTimeout : option nat
}.

Record t := {
  _serverURIs : list ServerURI;
  _options : AMQPConnectorOptions;
  _state : AMQPConnectorState
}.

(** The constructor: copies the list (or wraps the single URI) and sets the
    initial state.  The source has no [throw] on this path. *)
Definition new (serverURI : serverURI_arg) (options : option AMQPConnectorOptions)
  : result t :=
  Ok {| _serverURIs := match serverURI with
                       | ManyURIs uris => uris
                       | OneURI uri => [uri]
                       end;
        _options := default {| socket_noDelay := None |} options;
        _state := {| started := false; connecting := false; connection := None;
                     lastUsedURI := None; reconnectTimeout := None |} |}.

Definition string_truthy (s : string) : bool := negb (String.eqb s "").

Definition _selectServerURI (self : t) (lastUsedURI : option ServerURI)
  : option ServerURI :=
  let lastURIIndex :=
    match lastUsedURI with
    | Some u => if string_truthy u then indexOf (_serverURIs self) u else -1
    | None => -1
    end in
  if lastURIIndex <? 0 then at_ (_serverURIs self) 0
  else if lastURIIndex <? Z.of_nat (length (_serverURIs self)) - 1
       then at_ (_serverURIs self) (lastURIIndex + 1)
       else at_ (_serverURIs self) 0.

(** The synchronous segment of [_createConnection]: the guard, the URI
    choice and the bookkeeping before [amqplib.connect] is awaited.  The
    second component is the URI handed to [amqplib.connect], if the call
    was made. *)
Definition _createConnection (self : t) : t * option (option ServerURI) :=
  let state := _state self in
  if negb (started state) || connecting state then (self, None)
  else
    let URI := _selectServerURI self (lastUsedURI state) in
    ({| _serverURIs := _serverURIs self;
        _options := _options self;
        _state := {| started := started state; connecting := true;
                     connection := connection state; lastUsedURI := URI;
                     reconnectTimeout := reconnectTimeout state |} |},
     Some URI).

Definition start (self : t) : t * option (option ServerURI) :=
  let state := _state self in
  if negb (started state) then
    _createConnection
      {| _serverURIs := _serverURIs self;
         _options := _options self;
         _state := {| started := true; connecting := connecting state;
                      connection := connection state;
                      lastUsedURI := lastUsedURI state;
                      reconnectTimeout := reconnectTimeout state |} |}
  else (self, None).

(** The round-robin rule in the words of the specification: index 0 when
    the last URI is unknown or sits at the last position, the following
    index otherwise. *)
Definition unknown (uris : list ServerURI) (lastUsedURI : option ServerURI) : Prop :=
  match lastUsedURI with
  | None => True
  | Some u => u ∉ uris
  end.

Definition round_robin_spec (uris : list ServerURI) (lastUsedURI : option ServerURI)
  : option ServerURI :=
  match lastUsedURI with
  | None => uris !! 0%nat
  | Some u =>
      let i := indexOf uris u in
      if (i <? 0) || (i =? Z.of_nat (length uris) - 1) then uris !! 0%nat
      else uris !! Z.to_nat (i + 1)
  end.

(** *** Properties of [indexOf] *)

Lemma indexOf_bounds (l : list string) (x : string) :
  indexOf l x = -1 ∨ 0 ≤ indexOf l x < Z.of_nat (length l).
Proof.
  induction l as [|y l IH]; simpl; [by left|].
  destruct (String.eqb y x); [right; lia|].
  destruct (Z.ltb_spec (indexOf l x) 0); [by left|right; lia].
Qed.

Lemma indexOf_lookup (l : list string) (x : string) :
  0 ≤ indexOf l x → l !! Z.to_nat (indexOf l x) = Some x.
Proof.
  induction l as [|y l IH]; simpl; [lia|].
  destruct (String.eqb_spec y x) as [->|Hne]; [done|].
  destruct (Z.ltb_spec (indexOf l x) 0); [lia|]. intros _.
  replace (Z.to_nat (indexOf l x + 1)) with (S (Z.to_nat (indexOf l x))) by lia.
  simpl. apply IH. lia.
Qed.

Lemma indexOf_not_elem (l : list string) (x : string) :
  x ∉ l ↔ indexOf l x = -1.
Proof.
  induction l as [|y l IH]; simpl.
  - split; [done|]. intros _. apply not_elem_of_nil.
  - rewrite not_elem_of_cons.
    destruct (String.eqb_spec y x) as [->|Hne].
    + split; [intros [? _]; done|lia].
    + destruct (Z.ltb_spec (indexOf l x) 0) as [Hlt|Hge].
      * split; [done|]. intros _. split; [done|]. apply IH.
        destruct (indexOf_bounds l x); lia.
      * split; [|lia]. intros [_ Hn%IH]. lia.
Qed.

Lemma at_0_head {A} (l : list A) : at_ l 0 = l !! 0%nat.
Proof. done. Qed.

(** Whenever the last URI passes the truthiness test of the source (it is
    [null] or a non-empty string), the selection is the round-robin rule. *)
Lemma select_round_robin (self : t) (last : option ServerURI) :
  last ≠ Some "" →
  _selectServerURI self last = round_robin_spec (_serverURIs self) last.
Proof.
  intros Hne. unfold _selectServerURI, round_robin_spec.
  destruct last as [u|]; [|done].
  assert (string_truthy u = true) as ->.
  { unfold string_truthy. destruct (String.eqb_spec u "") as [->|]; done. }
  pose proof (indexOf_bounds (_serverURIs self) u) as Hb.
  destruct (Z.ltb_spec (indexOf (_serverURIs self) u) 0); [done|]. simpl.
  destruct (Z.ltb_spec (indexOf (_serverURIs self) u)
              (Z.of_nat (length (_serverURIs self)) - 1)) as [Hlt|Hge].
  - destruct (Z.eqb_spec (indexOf (_serverURIs self) u)
                (Z.of_nat (length (_serverURIs self)) - 1)); [lia|].
    unfold at_. destruct (Z.ltb_spec (indexOf (_serverURIs self) u + 1) 0); [lia|done].
  - destruct (Z.eqb_spec (indexOf (_serverURIs self) u)
                (Z.of_nat (length (_serverURIs self)) - 1)); [done|lia].
Qed.

(** On a non-empty list the round-robin rule always yields a URI of the
    list. *)
Lemma round_robin_spec_defined (uris : list ServerURI) (last : option ServerURI) :
  uris ≠ [] → ∃ u, round_robin_spec uris last = Some u ∧ u ∈ uris.
Proof.
  intros Hne. destruct uris as [|u0 uris]; [done|].
  unfold round_robin_spec. destruct last as [u|].
  - pose proof (indexOf_bounds (u0 :: uris) u) as Hb.
    destruct (_ || _) eqn:Hc.
    + exists u0. split; [done|]. apply list_elem_of_here.
    + apply orb_false_iff in Hc as [H1%Z.ltb_ge H2%Z.eqb_neq].
      destruct (lookup_lt_is_Some_2 (u0 :: uris) (Z.to_nat (indexOf (u0 :: uris) u + 1)))
        as [v Hv]; [lia|].
      exists v. split; [done|]. by eapply list_elem_of_lookup_2.
  - exists u0. split; [done|]. apply list_elem_of_here.
Qed.

(** The last element, by position, of a list without repetition is where
    [indexOf] finds it. *)
Lemma indexOf_last (l : list string) (x : string) :
  NoDup l → last l = Some x → indexOf l x = Z.of_nat (length l) - 1.
Proof.
  induction l as [|y l IH]; [done|]. intros Hnd Hlast.
  apply NoDup_cons in Hnd as [Hy Hnd]. simpl.
  destruct l as [|z l'].
  - simpl in Hlast. injection Hlast as ->. rewrite String.eqb_refl. done.
  - rewrite last_cons_cons in Hlast.
    assert (x ∈ z :: l') as Hx.
    { rewrite last_lookup in Hlast. by eapply list_elem_of_lookup_2. }
    destruct (String.eqb_spec y x) as [->|Hne]; [done|].
    rewrite (IH Hnd Hlast).
    destruct (Z.ltb_spec (Z.of_nat (length (z :: l')) - 1) 0) as [Hlt|Hge];
      simpl in *; lia.
Qed.

(** An element that [indexOf] finds at the last position is the last
    element. *)
Lemma indexOf_at_end (l : list string) (x : string) :
  x ∈ l → indexOf l x = Z.of_nat (length l) - 1 → last l = Some x.
Proof.
  intros Hx Hi. rewrite last_lookup.
  assert (0 ≤ indexOf l x) as Hge.
  { destruct (indexOf_bounds l x) as [Hm|]; [|lia].
    by apply indexOf_not_elem in Hm. }
  rewrite <- (indexOf_lookup l x Hge). f_equal. lia.
Qed.

(** C5.  On a non-empty list of URIs (non-empty strings): when the last
    used URI is unknown - [null], or not in the list - or is found at the
    last position, the selection is the URI at index 0; otherwise it is
    the URI at the index after the one where the last used URI is found.
    In a list without repetition "found at the last position" is the same
    as "is the last element"; with repetitions the position is that of the
    first occurrence, as [indexOf] has it. *)
Theorem select_is_round_robin (self : t) (lastUsedURI : option ServerURI) :
  _serverURIs self ≠ [] →
  (∀ u, u ∈ _serverURIs self → u ≠ "") →
  ∃ first, _serverURIs self !! 0%nat = Some first
    ∧ (unknown (_serverURIs self) lastUsedURI →
         _selectServerURI self lastUsedURI = Some first)
    ∧ (∀ u, lastUsedURI = Some u → u ∈ _serverURIs self →
         indexOf (_serverURIs self) u = Z.of_nat (length (_serverURIs self)) - 1 →
         _selectServerURI self lastUsedURI = Some first)
    ∧ (∀ u, lastUsedURI = Some u → u ∈ _serverURIs self →
         indexOf (_serverURIs self) u ≠ Z.of_nat (length (_serverURIs self)) - 1 →
         ∃ next,
           _serverURIs self !! (Z.to_nat (indexOf (_serverURIs self) u) + 1)%nat
           = Some next
           ∧ _selectServerURI self lastUsedURI = Some next)
    ∧ (NoDup (_serverURIs self) →
       ∀ u, lastUsedURI = Some u → last (_serverURIs self) = Some u →
         _selectServerURI self lastUsedURI = Some first)
    ∧ (∀ u, lastUsedURI = Some u → u ∈ _serverURIs self →
         last (_serverURIs self) ≠ Some u →
         ∃ next,
           _serverURIs self !! (Z.to_nat (indexOf (_serverURIs self) u) + 1)%nat
           = Some next
           ∧ _selectServerURI self lastUsedURI = Some next).
Proof.
  intros Hne Hnonempty.
  destruct (_serverURIs self) as [|first uris] eqn:Huris; [done|].
  exists first. split; [done|].
  assert (∀ u, u ∈ first :: uris → lastUsedURI = Some u →
            _selectServerURI self lastUsedURI
            = round_robin_spec (first :: uris) lastUsedURI) as Hin.
  { intros u Hu ->. rewrite <- Huris. apply select_round_robin.
    intros [= ->]. by apply (Hnonempty ""). }
  assert (∀ u, u ∈ first :: uris →
            indexOf (first :: uris) u = Z.of_nat (length (first :: uris)) - 1 →
            round_robin_spec (first :: uris) (Some u) = Some first) as Hend.
  { intros u Hu Hi. unfold round_robin_spec. rewrite Hi, Z.eqb_refl.
    by rewrite orb_true_r. }
  assert (∀ u, u ∈ first :: uris →
            indexOf (first :: uris) u ≠ Z.of_nat (length (first :: uris)) - 1 →
            ∃ next, (first :: uris) !! (Z.to_nat (indexOf (first :: uris) u) + 1)%nat
                    = Some next
                    ∧ round_robin_spec (first :: uris) (Some u) = Some next)
    as Hmid.
  { intros u Hu Hi. unfold round_robin_spec.
    destruct (indexOf_bounds (first :: uris) u) as [Hm|Hb].
    { by apply indexOf_not_elem in Hm. }
    destruct (Z.ltb_spec (indexOf (first :: uris) u) 0); [lia|].
    destruct (Z.eqb_spec (indexOf (first :: uris) u)
                (Z.of_nat (length (first :: uris)) - 1)); [done|]. simpl orb.
    cbv iota.
    replace (Z.to_nat (indexOf (first :: uris) u + 1))
      with (Z.to_nat (indexOf (first :: uris) u) + 1)%nat by lia.
    destruct (lookup_lt_is_Some_2 (first :: uris)
                (Z.to_nat (indexOf (first :: uris) u) + 1)) as [next Hnext]; [lia|].
    by exists next. }
  split; [|split; [|split; [|split]]].
  - unfold _selectServerURI. rewrite Huris.
    destruct lastUsedURI as [u|]; [|done]. simpl. intros Hunk.
    destruct (string_truthy u); [|done].
    apply indexOf_not_elem in Hunk. simpl in Hunk. by rewrite Hunk.
  - intros u -> Hu Hi. rewrite (Hin u Hu eq_refl). by apply Hend.
  - intros u -> Hu Hi. rewrite (Hin u Hu eq_refl). by apply Hmid.
  - intros Hnd u -> Hlast.
    assert (u ∈ first :: uris) as Hu.
    { rewrite last_lookup in Hlast. by eapply list_elem_of_lookup_2. }
    rewrite (Hin u Hu eq_refl). apply Hend; [done|]. by apply indexOf_last.
  - intros u -> Hu Hlast. rewrite (Hin u Hu eq_refl). apply Hmid; [done|].
    intros Hi. by apply Hlast, indexOf_at_end.
Qed.

(** Two brokers: after [amqp://a] comes [amqp://b], after [amqp://b] comes
    [amqp://a] again. *)
Lemma select_is_round_robin_witness :
  ∃ self, new (ManyURIs ["amqp://a"; "amqp://b"]) None = Ok self
    ∧ _selectServerURI self None = Some "amqp://a"
    ∧ _selectServerURI self (Some "amqp://a") = Some "amqp://b"
    ∧ _selectServerURI self (Some "amqp://b") = Some "amqp://a".
Proof.
  eexists. split; [reflexivity|].
  match goal with |- context [_selectServerURI ?s _] => set (self := s) end.
  assert (_serverURIs self ≠ []) as Hne by done.
  assert (∀ u, u ∈ _serverURIs self → u ≠ "") as Hnonempty.
  { intros u Hu ->. simpl in Hu.
    rewrite !elem_of_cons, elem_of_nil in Hu. by destruct Hu as [|[|]]. }
  split; [|split].
  - destruct (select_is_round_robin self None Hne Hnonempty)
      as (first & [= <-] & Hunk & _). by apply Hunk.
  - destruct (select_is_round_robin self (Some "amqp://a") Hne Hnonempty)
      as (first & _ & _ & _ & Hmid & _).
    destruct (Hmid "amqp://a" eq_refl) as (next & [= <-] & Hsel);
      [apply list_elem_of_here|done|exact Hsel].
  - destruct (select_is_round_robin self (Some "amqp://b") Hne Hnonempty)
      as (first & [= <-] & _ & Hend & _).
    apply (Hend "amqp://b" eq_refl);
      [apply list_elem_of_further, list_elem_of_here|done].
Defined.

(** The source tests [lastUsedURI] for truthiness, so an empty string in
    the list, which is not a URI, counts as unknown: after it the first
    entry is selected again. *)
Lemma select_empty_string_repeats :
  ∃ self, new (ManyURIs [""; "amqp://backup"]) None = Ok self
  ∧ round_robin_spec (_serverURIs self) (Some "") = Some "amqp://backup"
  ∧ _selectServerURI self (Some "") = Some "".
Proof. eexists. repeat split; reflexivity. Qed.

(** C8 as stated fails: the constructor returns a connector for the empty
    list. *)
Lemma new_empty_list_not_rejected :
  ¬ (∃ e, new (ManyURIs []) None = Throw e).
Proof. intros [e He]. discriminate He. Qed.

(** C8, amended. The constructor performs no validation: it accepts the
    empty URI list, and on the resulting connector every selection yields
    [undefined], which [start] hands to the first connection attempt. *)
Theorem new_empty_list_accepted (options : option AMQPConnectorOptions) :
  ∃ self, new (ManyURIs []) options = Ok self
  ∧ _serverURIs self = []
  ∧ (∀ last, _selectServerURI self last = None)
  ∧ snd (start self) = Some None.
Proof.
  eexists. split; [reflexivity|]. split; [reflexivity|]. split; [|reflexivity].
  intros last. unfold _selectServerURI. simpl.
  destruct last as [u|]; [|done].
  destruct (string_truthy u); simpl; done.
Qed.

End AMQPConnector.

(** ** ChannelManager (src/src/AMQPChannelManager.ts) *)

Module AMQPChannelManager.

Abbreviation Channel := nat.
Abbreviation Timer := nat.

(** The fields of the class.  [_destroy] is the closure installed by the
    last successful creation; it closes the channel it captured. *)
Record t := {
  _connectionClosed : bool;
  _started : bool;
  _creatingChannel : bool;
  _channel : option Channel;
  _destroy : option Channel;
  _confirm : bool;
  _recreateTimeout : option Timer
}.

Inductive emitted :=
| EmitCreate (c : Channel)
| EmitClose (c : Channel).

(** The manager together with what surrounds it: the channel requests the
    connection has not answered yet (each with its confirm flag), the
    channels it has handed out that are still open, the channels whose
    [channelDropped] flag is set, the channels on which [close()] was
    called, the armed timers and the events emitted so far. *)
Record world := {
  mgr : t;
  requests : list bool;
  live : list Channel;
  dropped : list Channel;
  closed_by_us : list Channel;
  timers : list Timer;
  next_timer : Timer;
  events : list emitted
}.

(** The constructor of the base class, [options.confirm] defaulted.  It
    is protected: [noConfirms()] and [withConfirms()] reach it without
    options, through classes whose [_getChannelPromise] does not read the
    flag.  The flag kept with a request is therefore the choice of the
    base class only; for the two other classes it does not tell which kind
    of channel is asked for. *)
Definition new (confirm : option bool) : world :=
  {| mgr := {| _connectionClosed := false; _started := false;
               _creatingChannel := false; _channel := None; _destroy := None;
               _confirm := default false confirm; _recreateTimeout := None |};
     requests := []; live := []; dropped := []; closed_by_us := [];
     timers := []; next_timer := 0%nat; events := [] |}.

Definition with_mgr (w : world) (m : t) : world :=
  {| mgr := m; requests := requests w; live := live w; dropped := dropped w;
     closed_by_us := closed_by_us w; timers := timers w;
     next_timer := next_timer w; events := events w |}.

Definition set_started (b : bool) (m : t) : t :=
  {| _connectionClosed := _connectionClosed m; _started := b;
     _creatingChannel := _creatingChannel m; _channel := _channel m;
     _destroy := _destroy m; _confirm := _confirm m;
     _recreateTimeout := _recreateTimeout m |}.

Definition set_creatingChannel (b : bool) (m : t) : t :=
  {| _connectionClosed := _connectionClosed m; _started := _started m;
     _creatingChannel := b; _channel := _channel m;
     _destroy := _destroy m; _confirm := _confirm m;
     _recreateTimeout := _recreateTimeout m |}.

Definition set_channel (c : option Channel) (m : t) : t :=
  {| _connectionClosed := _connectionClosed m; _started := _started m;
     _creatingChannel := _creatingChannel m; _channel := c;
     _destroy := _destroy m; _confirm := _confirm m;
     _recreateTimeout := _recreateTimeout m |}.

Definition set_destroy (c : option Channel) (m : t) : t :=
  {| _connectionClosed := _connectionClosed m; _started := _started m;
     _creatingChannel := _creatingChannel m; _channel := _channel m;
     _destroy := c; _confirm := _confirm m;
     _recreateTimeout := _recreateTimeout m |}.

Definition set_connectionClosed (b : bool) (m : t) : t :=
  {| _connectionClosed := b; _started := _started m;
     _creatingChannel := _creatingChannel m; _channel := _channel m;
     _destroy := _destroy m; _confirm := _confirm m;
     _recreateTimeout := _recreateTimeout m |}.

Definition set_recreateTimeout (tm : option Timer) (m : t) : t :=
  {| _connectionClosed := _connectionClosed m; _started := _started m;
     _creatingChannel := _creatingChannel m; _channel := _channel m;
     _destroy := _destroy m; _confirm := _confirm m;
     _recreateTimeout := tm |}.

(** [self._recreateTimeout = setTimeout(() => self._createChannel(), ms)]:
    a new timer is armed and remembered; an earlier one stays armed. *)
Definition setTimeout_recreate (w : world) : world :=
  {| mgr := set_recreateTimeout (Some (next_timer w)) (mgr w);
     requests := requests w; live := live w; dropped := dropped w;
     closed_by_us := closed_by_us w;
     timers := timers w ++ [next_timer w];
     next_timer := S (next_timer w); events := events w |}.

Definition emitAsync (e : emitted) (w : world) : world :=
  {| mgr := mgr w; requests := requests w; live := live w; dropped := dropped w;
     closed_by_us := closed_by_us w; timers := timers w;
     next_timer := next_timer w; events := events w ++ [e] |}.

(** [_createChannel], up to its [await]: the guard, the flag and the
    request to the connection ([_getChannelPromise]). *)
Definition _createChannel (w : world) : world :=
  if negb (_started (mgr w)) || _creatingChannel (mgr w) then w
  else
    {| mgr := set_creatingChannel true (mgr w);
       requests := requests w ++ [_confirm (mgr w)];
       live := live w; dropped := dropped w; closed_by_us := closed_by_us w;
       timers := timers w; next_timer := next_timer w; events := events w |}.

(** [_createChannel] after the [await], when the connection answered with
    channel [c]. *)
Definition channelCreated (c : Channel) (w : world) : world :=
  emitAsync (EmitCreate c)
    {| mgr := set_destroy (Some c)
                (set_creatingChannel false (set_channel (Some c) (mgr w)));
       requests := tail (requests w);
       live := live w ++ [c]; dropped := dropped w;
       closed_by_us := closed_by_us w; timers := timers w;
       next_timer := next_timer w; events := events w |}.

(** The [catch] branch of [_createChannel]. *)
Definition channelCreationFailed (w : world) : world :=
  setTimeout_recreate
    {| mgr := set_creatingChannel false (mgr w);
       requests := tail (requests w);
       live := live w; dropped := dropped w; closed_by_us := closed_by_us w;
       timers := timers w; next_timer := next_timer w; events := events w |}.

(** [handleChannelEvent], the listener of both ['error'] and ['close'] on
    channel [c].  [channelDestroyed] is declared [false] and never
    assigned, so the retry timer is armed on every first reaction. *)
Definition handleChannelEvent (c : Channel) (w : world) : world :=
  if bool_decide (c ∈ dropped w) then w
  else
    let channelDestroyed := false in
    let w1 :=
      emitAsync (EmitClose c)
        {| mgr := set_channel None (mgr w);
           requests := requests w;
           live := filter (λ c', c' ≠ c) (live w);
           dropped := c :: dropped w;
           closed_by_us := closed_by_us w; timers := timers w;
           next_timer := next_timer w; events := events w |} in
    if negb channelDestroyed then setTimeout_recreate w1 else w1.

Definition clearTimeout (tm : Timer) (w : world) : world :=
  {| mgr := mgr w; requests := requests w; live := live w; dropped := dropped w;
     closed_by_us := closed_by_us w;
     timers := filter (λ tm', tm' ≠ tm) (timers w);
     next_timer := next_timer w; events := events w |}.

Definition _destroyChannel (w : world) : world :=
  let w1 :=
    match _channel (mgr w) with
    | Some _ =>
        {| mgr := set_channel None (mgr w);
           requests := requests w; live := live w; dropped := dropped w;
           closed_by_us := closed_by_us w ++ option_list (_destroy (mgr w));
           timers := timers w; next_timer := next_timer w; events := events w |}
    | None => w
    end in
  match _recreateTimeout (mgr w1) with
  | Some tm => clearTimeout tm w1
  | None => w1
  end.

Definition start (w : world) : result world :=
  if _connectionClosed (mgr w)
  then Throw (Error "The connection has been closed - can not start an AQMPChannelManager on a closed connection!")
  else if negb (_started (mgr w))
       then Ok (_createChannel (with_mgr w (set_started true (mgr w))))
       else Ok w.

Definition stop (w : world) : world :=
  if _started (mgr w)
  then _destroyChannel (with_mgr w (set_started false (mgr w)))
  else w.

(** The listeners installed on the connection in the constructor. *)
Definition connectionClosed (w : world) : world :=
  let w1 := _destroyChannel w in
  with_mgr w1 (set_connectionClosed true (mgr w1)).

(** What can happen to a manager: calls of its two methods and the
    callbacks the runtime delivers. *)
Inductive event :=
| Start
| Stop
| ChannelCreated (c : Channel)
| ChannelCreationFailed
| ChannelEvent (c : Channel)
| TimerFired (tm : Timer)
| ConnectionClosed.

(** A callback is delivered only if its source exists: an answer needs a
    pending request and brings a channel never seen before, a channel
    event needs a channel that was handed out, a timer must be armed. *)
Definition step (e : event) (w : world) : world :=
  match e with
  | Start => match start w with Ok w' => w' | Throw _ => w end
  | Stop => stop w
  | ChannelCreated c =>
      match requests w with
      | [] => w
      | _ :: _ =>
          if bool_decide (c ∈ live w ++ dropped w) then w else channelCreated c w
      end
  | ChannelCreationFailed =>
      match requests w with
      | [] => w
      | _ :: _ => channelCreationFailed w
      end
  | ChannelEvent c =>
      if bool_decide (c ∈ live w ++ dropped w) then handleChannelEvent c w else w
  | TimerFired tm =>
      if bool_decide (tm ∈ timers w)
      then _createChannel
             {| mgr := mgr w; requests := requests w; live := live w;
                dropped := dropped w; closed_by_us := closed_by_us w;
                timers := filter (λ tm', tm' ≠ tm) (timers w);
                next_timer := next_timer w; events := events w |}
      else w
  | ConnectionClosed => connectionClosed w
  end.

Definition run (es : list event) (w : world) : world :=
  foldl (λ w e, step e w) w es.

(** The guard as the specification words it. *)
Definition spec_guard (m : t) : bool :=
  _started m && negb (_creatingChannel m) && bool_decide (_channel m = None).

(** The guard of the source. *)
Definition code_guard (m : t) : bool :=
  _started m && negb (_creatingChannel m).

Definition in_flight (w : world) : nat := length (requests w).

(** The bookkeeping invariant behind [_creatingChannel]: the flag is set
    exactly while one request is awaiting its answer. *)
Definition flag_counts_requests (w : world) : Prop :=
  in_flight w = if _creatingChannel (mgr w) then 1%nat else 0%nat.

(** *** The guard *)

Lemma createChannel_blocked (w : world) :
  code_guard (mgr w) = false → _createChannel w = w.
Proof.
  unfold code_guard, _createChannel.
  destruct (_started (mgr w)), (_creatingChannel (mgr w)); simpl; done.
Qed.

Lemma createChannel_requests (w : world) :
  code_guard (mgr w) = true →
  requests (_createChannel w) = requests w ++ [_confirm (mgr w)]
  ∧ _creatingChannel (mgr (_createChannel w)) = true
  ∧ _channel (mgr (_createChannel w)) = _channel (mgr w).
Proof.
  unfold code_guard, _createChannel.
  destruct (_started (mgr w)), (_creatingChannel (mgr w)); simpl; done.
Qed.

Lemma spec_guard_code_guard (m : t) : spec_guard m = true → code_guard m = true.
Proof. unfold spec_guard, code_guard. by intros [? _]%andb_true_iff. Qed.

(** *** At most one request in flight *)

Lemma createChannel_preserves (w : world) :
  flag_counts_requests w → flag_counts_requests (_createChannel w).
Proof.
  unfold flag_counts_requests, in_flight, _createChannel.
  destruct (_started (mgr w)), (_creatingChannel (mgr w)) eqn:Hc; simpl;
    rewrite ?Hc; try done.
  rewrite length_app. simpl. lia.
Qed.

Lemma destroyChannel_preserves (w : world) :
  flag_counts_requests w → flag_counts_requests (_destroyChannel w).
Proof.
  unfold flag_counts_requests, in_flight, _destroyChannel.
  destruct (_channel (mgr w)); simpl;
    destruct (_recreateTimeout (mgr w)); simpl; done.
Qed.

Lemma answered_request (w : world) :
  flag_counts_requests w → requests w ≠ [] →
  _creatingChannel (mgr w) = true ∧ tail (requests w) = [].
Proof.
  unfold flag_counts_requests, in_flight.
  destruct (requests w) as [|r [|r' rs]]; [done| |];
    destruct (_creatingChannel (mgr w)); simpl; intros; done || lia.
Qed.

Lemma step_preserves (e : event) (w : world) :
  flag_counts_requests w → flag_counts_requests (step e w).
Proof.
  intros Hw. destruct e as [| |c| |c|tm|]; simpl.
  - unfold start. destruct (_connectionClosed (mgr w)); [done|].
    destruct (_started (mgr w)) eqn:Hs; simpl; [done|].
    apply createChannel_preserves. exact Hw.
  - unfold stop. destruct (_started (mgr w)); [|done].
    apply destroyChannel_preserves. exact Hw.
  - destruct (requests w) as [|r rs] eqn:Hr; [done|].
    case_bool_decide; [done|].
    destruct (answered_request w Hw) as [_ Ht]; [by rewrite Hr|].
    unfold flag_counts_requests, in_flight, channelCreated. simpl.
    rewrite Ht. done.
  - destruct (requests w) as [|r rs] eqn:Hr; [done|].
    destruct (answered_request w Hw) as [_ Ht]; [by rewrite Hr|].
    unfold flag_counts_requests, in_flight, channelCreationFailed. simpl.
    rewrite Ht. done.
  - case_bool_decide; [|done]. unfold handleChannelEvent.
    case_bool_decide; [done|]. exact Hw.
  - case_bool_decide; [|done]. apply createChannel_preserves. exact Hw.
  - unfold connectionClosed.
    apply (destroyChannel_preserves w) in Hw. exact Hw.
Qed.

Lemma run_preserves (es : list event) (w : world) :
  flag_counts_requests w → flag_counts_requests (run es w).
Proof.
  revert w. induction es as [|e es IH]; intros w Hw; [done|].
  simpl. apply IH, step_preserves, Hw.
Qed.

(** The race that the missing test on [_channel] allows: [stop] during a
    creation leaves the flag set, the late answer installs a channel in a
    stopped manager, and the next [start] asks for a second channel while
    the first is still open. *)
Lemma stale_creation_leaves_two_live_channels :
  let w := run [Start; Stop; ChannelCreated 1; Start; ChannelCreated 2] (new None) in
  live w = [1; 2]%nat ∧ closed_by_us w = [] ∧ _channel (mgr w) = Some 2%nat.
Proof. vm_compute. done. Qed.

(** C3 as stated fails: in the manager reached by [start], [stop], the
    late answer of the connection and a second [start] request, the guard
    of the specification is closed (a channel is held) and yet
    [_createChannel] asks the connection for a channel. *)
Lemma createChannel_ignores_held_channel :
  let w := run [Start; Stop; ChannelCreated 1] (new None) in
  let w1 := with_mgr w (set_started true (mgr w)) in
  _channel (mgr w1) = Some 1%nat
  ∧ spec_guard (mgr w1) = false
  ∧ requests w1 = []
  ∧ requests (_createChannel w1) = [false].
Proof. vm_compute. done. Qed.

(** C3, amended. [_createChannel] returns at once, asking the connection
    for nothing, unless the manager is started and not already creating a
    channel; whether a channel is held is not tested.  Consequently, in
    every run of a manager, at most one channel request is in flight. *)
Theorem createChannel_guard_single_request :
  (∀ w, code_guard (mgr w) = false → _createChannel w = w)
  ∧ (∀ w, code_guard (mgr w) = true →
       requests (_createChannel w) = requests w ++ [_confirm (mgr w)])
  ∧ (∀ confirm es, (in_flight (run es (new confirm)) ≤ 1)%nat).
Proof.
  split; [exact createChannel_blocked|]. split.
  - intros w Hg. by destruct (createChannel_requests w Hg).
  - intros confirm es.
    assert (flag_counts_requests (run es (new confirm))) as H.
    { apply run_preserves. reflexivity. }
    unfold flag_counts_requests in H. rewrite H.
    destruct (_creatingChannel _); lia.
Qed.

(** A new manager is blocked; once started it has one request in flight,
    and a second attempt is blocked again. *)
Lemma createChannel_guard_single_request_witness :
  _createChannel (new None) = new None
  ∧ requests (step Start (new None)) = [false]
  ∧ _createChannel (step Start (new None)) = step Start (new None).
Proof.
  split; [|split].
  - apply (proj1 createChannel_guard_single_request). reflexivity.
  - reflexivity.
  - apply (proj1 createChannel_guard_single_request). reflexivity.
Defined.

End AMQPChannelManager.

(** ** Consumer (the TypeScript AMQPConsumer, src/unnamed/part_012) *)

Module AMQPConsumer.

Abbreviation Promise := nat.
Abbreviation Message := nat.

Inductive outcome :=
| Fulfilled
| Rejected (e : error).

Record Exchange := { ex_name : string; ex_type : string }.
Record Binding := { exchange : string; pattern : string }.

(** What the consumer sends on its channel. *)
Inductive rpc :=
| AssertQueue (queue : string)
| AssertExchange (name type : string)
| BindQueue (queue exchange pattern : string)
| Prefetch (count : value)
| Consume (queue : string)
| Cancel (consumerTag : option string)
| Ack (m : Message)
| Reject (m : Message) (requeue : bool).

Inductive kind :=
| ConsumePromise
| StopPromise
| ResolvedPromise.

(** An invocation of the async function [_startConsuming] is suspended at
    one of its three [await]s. *)
Inductive stage :=
| AwaitQueue
| AwaitExchanges (actualQueueName : string)
| AwaitBinds (actualQueueName : string).

(** The chain built by [stopConsuming] first waits for the consume promise
    it was given, then for the answer to [basic.cancel]. *)
Inductive stop_stage :=
| AwaitConsume (cp : Promise)
| AwaitCancel.

Record t := {
  _queueName : string;
  _prefetch : value;
  _exchanges : list Exchange;
  _binds : list Binding;
  _consumerTag : option string;
  _started : bool;
  _consumePromise : option Promise;
  _stopPromise : option Promise
}.

Inductive emitted :=
| EmitCancel
| EmitMessage (m : Message).

(** The consumer and its surroundings: the promises created so far with
    their state, the suspended invocations of [_startConsuming], the
    pending stop chains (with the consumer tag each captured), the RPCs
    sent and the events emitted. *)
Record world := {
  self : t;
  promises : gmap Promise (kind * option outcome);
  next_promise : Promise;
  runs : gmap Promise stage;
  stops : gmap Promise (stop_stage * option string);
  rpcs : list rpc;
  events : list emitted
}.

Definition new (queueName : string) (prefetch : value)
    (exchanges : list Exchange) (binds : list Binding) : world :=
  {| self := {| _queueName := queueName; _prefetch := prefetch;
                _exchanges := exchanges; _binds := binds;
                _consumerTag := None; _started := false;
                _consumePromise := None; _stopPromise := None |};
     promises := ∅; next_promise := 0%nat; runs := ∅; stops := ∅;
     rpcs := []; events := [] |}.

Definition set_consumerTag (x : option string) (c : t) : t :=
  {| _queueName := _queueName c; _prefetch := _prefetch c;
     _exchanges := _exchanges c; _binds := _binds c;
     _consumerTag := x; _started := _started c;
     _consumePromise := _consumePromise c; _stopPromise := _stopPromise c |}.

Definition set_started (x : bool) (c : t) : t :=
  {| _queueName := _queueName c; _prefetch := _prefetch c;
     _exchanges := _exchanges c; _binds := _binds c;
     _consumerTag := _consumerTag c; _started := x;
     _consumePromise := _consumePromise c; _stopPromise := _stopPromise c |}.

Definition set_consumePromise (x : option Promise) (c : t) : t :=
  {| _queueName := _queueName c; _prefetch := _prefetch c;
     _exchanges := _exchanges c; _binds := _binds c;
     _consumerTag := _consumerTag c; _started := _started c;
     _consumePromise := x; _stopPromise := _stopPromise c |}.

Definition set_stopPromise (x : option Promise) (c : t) : t :=
  {| _queueName := _queueName c; _prefetch := _prefetch c;
     _exchanges := _exchanges c; _binds := _binds c;
     _consumerTag := _consumerTag c; _started := _started c;
     _consumePromise := _consumePromise c; _stopPromise := x |}.

Definition with_self (w : world) (c : t) : world :=
  {| self := c; promises := promises w; next_promise := next_promise w;
     runs := runs w; stops := stops w; rpcs := rpcs w; events := events w |}.

Definition send (rs : list rpc) (w : world) : world :=
  {| self := self w; promises := promises w; next_promise := next_promise w;
     runs := runs w; stops := stops w; rpcs := rpcs w ++ rs; events := events w |}.

Definition emitAsync (e : emitted) (w : world) : world :=
  {| self := self w; promises := promises w; next_promise := next_promise w;
     runs := runs w; stops := stops w; rpcs := rpcs w; events := events w ++ [e] |}.

(** A new promise, pending or already settled. *)
Definition new_promise (k : kind) (o : option outcome) (w : world) : Promise * world :=
  (next_promise w,
   {| self := self w;
      promises := <[next_promise w := (k, o)]> (promises w);
      next_promise := S (next_promise w);
      runs := runs w; stops := stops w; rpcs := rpcs w; events := events w |}).

Definition settle (p : Promise) (k : kind) (o : outcome) (w : world) : world :=
  {| self := self w;
     promises := <[p := (k, Some o)]> (promises w);
     next_promise := next_promise w;
     runs := runs w; stops := stops w; rpcs := rpcs w; events := events w |}.

Definition set_run (p : Promise) (st : option stage) (w : world) : world :=
  {| self := self w; promises := promises w; next_promise := next_promise w;
     runs := match st with Some s => <[p := s]> (runs w) | None => delete p (runs w) end;
     stops := stops w; rpcs := rpcs w; events := events w |}.

Definition set_stop (sp : Promise) (st : option (stop_stage * option string))
    (w : world) : world :=
  {| self := self w; promises := promises w; next_promise := next_promise w;
     runs := runs w;
     stops := match st with Some s => <[sp := s]> (stops w) | None => delete sp (stops w) end;
     rpcs := rpcs w; events := events w |}.

(** [p.then(f)] and [p.catch(g)] once [p] has settled with [o]: the
    callback of [then] runs on fulfilment only and a rejection passes
    through; [catch] is the mirror image. *)
Definition then_ (o : outcome) (f : world → outcome * world) (w : world)
  : outcome * world :=
  match o with
  | Fulfilled => f w
  | Rejected e => (Rejected e, w)
  end.

Definition catch_ (o : outcome) (g : error → world → outcome * world) (w : world)
  : outcome * world :=
  match o with
  | Fulfilled => (Fulfilled, w)
  | Rejected e => g e w
  end.

(** [_startConsuming] up to its first [await]: the promise of the async
    function is created and [assertQueue] is sent. *)
Definition _startConsuming (w : world) : Promise * world :=
  let '(p, w1) := new_promise ConsumePromise None w in
  (p, set_run p (Some AwaitQueue) (send [AssertQueue (_queueName (self w))] w1)).

(** [_startConsuming] resumed after [await channel.assertQueue]. *)
Definition queueAsserted (p : Promise) (actualQueueName : string) (w : world) : world :=
  set_run p (Some (AwaitExchanges actualQueueName))
    (send (map (λ e, AssertExchange (ex_name e) (ex_type e)) (_exchanges (self w))) w).

(** ... after the exchanges are asserted. *)
Definition exchangesAsserted (p : Promise) (actualQueueName : string) (w : world) : world :=
  set_run p (Some (AwaitBinds actualQueueName))
    (send (map (λ b, BindQueue actualQueueName (exchange b) (pattern b))
             (_binds (self w))) w).

(** ... after the binds: prefetch if requested, [channel.consume], then
    [self._started = true], and the function returns. *)
Definition bindsEstablished (p : Promise) (actualQueueName : string) (w : world) : world :=
  let w1 := if truthy (_prefetch (self w))
            then send [Prefetch (_prefetch (self w))] w else w in
  let w2 := send [Consume actualQueueName] w1 in
  let w3 := with_self w2 (set_started true (self w2)) in
  settle p ConsumePromise Fulfilled (set_run p None w3).

(** An awaited RPC of the invocation fails: the async function throws and
    its promise rejects. *)
Definition setupFailed (p : Promise) (e : error) (w : world) : world :=
  settle p ConsumePromise (Rejected e) (set_run p None w).

(** [consume()].  An async function never throws synchronously, so the
    [catch] of the source is not reachable. *)
Definition consume (w : world) : option Promise * world :=
  if negb (_started (self w)) then
    let '(p, w1) := _startConsuming w in
    (Some p, with_self w1 (set_consumePromise (Some p) (self w1)))
  else (_consumePromise (self w), w).

(** [handleMessage], the callback given to [channel.consume]. *)
Definition handleMessage (message : option Message) (w : world) : world :=
  match message with
  | None =>
      emitAsync EmitCancel
        (with_self w (set_consumePromise None (set_started false (self w))))
  | Some m => emitAsync (EmitMessage m) w
  end.

(** The three operations handed out with a message. *)
Definition ack (m : Message) (w : world) : world := send [Ack m] w.
Definition requeue (m : Message) (w : world) : world := send [Reject m true] w.
Definition reject (m : Message) (w : world) : world := send [Reject m false] w.

Definition isSome {A} (o : option A) : bool :=
  match o with Some _ => true | None => false end.

(** [Promise.resolve()]. *)
Definition Promise_resolve (w : world) : Promise * world :=
  new_promise ResolvedPromise (Some Fulfilled) w.

(** [stopConsuming()], the synchronous part: the guard, and otherwise the
    construction of the chain
    [consumePromise.then(cancelCurrentConsumer).catch(...).then(...)]. *)
Definition stopConsuming (w : world) : Promise * world :=
  let currentConsumerTag := _consumerTag (self w) in
  if negb (_started (self w)) || isSome (_stopPromise (self w))
     || negb (isSome (_consumePromise (self w)))
  then match _stopPromise (self w) with
       | Some sp => (sp, w)
       | None => Promise_resolve w
       end
  else
    match _consumePromise (self w) with
    | None => Promise_resolve w
    | Some cp =>
        let w1 := with_self w (set_started false (self w)) in
        let '(sp, w2) := new_promise StopPromise None w1 in
        let w3 := set_stop sp (Some (AwaitConsume cp, currentConsumerTag)) w2 in
        let w4 := with_self w3 (set_stopPromise (Some sp) (self w3)) in
        (sp, with_self w4 (set_consumePromise None (self w4)))
    end.

Definition isStopping (w : world) : bool := isSome (_stopPromise (self w)).

(** [cancelCurrentConsumer]: sends [basic.cancel] with the captured tag. *)
Definition cancelCurrentConsumer (tag : option string) (w : world) : world :=
  send [Cancel tag] w.

(** The rest of the chain once the outcome [o1] of
    [consumePromise.then(cancelCurrentConsumer)] is known:
    [.catch(_ignoreCancellationErrors).then(() => { self._stopPromise = null })];
    its outcome settles the stop promise. *)
Definition stop_chain_tail (sp : Promise) (o1 : outcome) (w : world) : world :=
  let '(o2, w2) := catch_ o1 (λ _ w, (Fulfilled, w)) w in
  let '(o3, w3) :=
    then_ o2 (λ w, (Fulfilled, with_self w (set_stopPromise None (self w)))) w2 in
  settle sp StopPromise o3 (set_stop sp None w3).

(** The consume promise awaited by chain [sp] has settled. *)
Definition stopAwaited (sp : Promise) (w : world) : world :=
  match stops w !! sp with
  | Some (AwaitConsume cp, tag) =>
      match promises w !! cp with
      | Some (_, Some Fulfilled) =>
          set_stop sp (Some (AwaitCancel, tag)) (cancelCurrentConsumer tag w)
      | Some (_, Some (Rejected e)) => stop_chain_tail sp (Rejected e) w
      | _ => w
      end
  | _ => w
  end.

(** The channel answered [basic.cancel] (or the call threw). *)
Definition cancelReplied (sp : Promise) (o : outcome) (w : world) : world :=
  match stops w !! sp with
  | Some (AwaitCancel, _) => stop_chain_tail sp o w
  | _ => w
  end.

Definition is_Consume (r : rpc) : bool :=
  match r with Consume _ => true | _ => false end.

(** The subscriptions requested so far. *)
Definition subscriptions (w : world) : list rpc := List.filter is_Consume (rpcs w).

Inductive event :=
| CallConsume
| CallStopConsuming
| QueueAsserted (p : Promise) (actualQueueName : string)
| ExchangesAsserted (p : Promise)
| BindsEstablished (p : Promise)
| SetupFailed (p : Promise) (e : error)
| ConsumeOk (consumerTag : string)
| Deliver (message : option Message)
| StopAwaited (sp : Promise)
| CancelReplied (sp : Promise) (o : outcome).

(** A continuation runs only for an invocation suspended at the matching
    [await]; the broker answers and delivers only once [basic.consume] was
    sent. *)
Definition step (e : event) (w : world) : world :=
  match e with
  | CallConsume => snd (consume w)
  | CallStopConsuming => snd (stopConsuming w)
  | QueueAsserted p q =>
      match runs w !! p with
      | Some AwaitQueue => queueAsserted p q w
      | _ => w
      end
  | ExchangesAsserted p =>
      match runs w !! p with
      | Some (AwaitExchanges q) => exchangesAsserted p q w
      | _ => w
      end
  | BindsEstablished p =>
      match runs w !! p with
      | Some (AwaitBinds q) => bindsEstablished p q w
      | _ => w
      end
  | SetupFailed p e =>
      match runs w !! p with
      | Some _ => setupFailed p e w
      | None => w
      end
  | ConsumeOk tag =>
      match subscriptions w with
      | [] => w
      | _ :: _ => with_self w (set_consumerTag (Some tag) (self w))
      end
  | Deliver m =>
      match subscriptions w with
      | [] => w
      | _ :: _ => handleMessage m w
      end
  | StopAwaited sp => stopAwaited sp w
  | CancelReplied sp o => cancelReplied sp o w
  end.

Definition run (es : list event) (w : world) : world :=
  foldl (λ w e, step e w) w es.

(** The legacy [consume] of lib/AMQPConsumer.js: the same first RPC, but
    [self._started = true] is executed before the method returns. *)
Definition consume_legacy (w : world) : option Promise * world :=
  if negb (_started (self w)) then
    let '(p, w1) := _startConsuming w in
    let w2 := with_self w1 (set_consumePromise (Some p) (self w1)) in
    (Some p, with_self w2 (set_started true (self w2)))
  else (_consumePromise (self w), w).

(** Well-formed worlds: promise identifiers are allocated in order, a
    suspended invocation owns a pending consume promise, a pending chain
    owns a pending stop promise, and only consume promises are ever
    rejected. *)
Record wf (w : world) : Prop := {
  wf_fresh : ∀ p x, promises w !! p = Some x → (p < next_promise w)%nat;
  wf_runs : ∀ p st, runs w !! p = Some st →
            promises w !! p = Some (ConsumePromise, None);
  wf_stops : ∀ sp x, stops w !! sp = Some x →
             promises w !! sp = Some (StopPromise, None);
  wf_rejected : ∀ p k e, promises w !! p = Some (k, Some (Rejected e)) →
                k = ConsumePromise
}.

(** *** [consume] *)

Lemma consume_not_started (w : world) :
  _started (self w) = false →
  fst (consume w) = Some (next_promise w)
  ∧ rpcs (snd (consume w)) = rpcs w ++ [AssertQueue (_queueName (self w))]
  ∧ next_promise (snd (consume w)) = S (next_promise w)
  ∧ _started (self (snd (consume w))) = false
  ∧ _queueName (self (snd (consume w))) = _queueName (self w).
Proof. intros H. unfold consume. rewrite H. simpl. done. Qed.

(** Once [_started] is set, [consume] is a pure read. *)
Lemma consume_started (w : world) :
  _started (self w) = true → consume w = (_consumePromise (self w), w).
Proof. intros H. unfold consume. by rewrite H. Qed.

(** After the first invocation has run to its end, a further call returns
    the stored promise and sends nothing. *)
Lemma consume_after_start_same_promise :
  let w := run [CallConsume; QueueAsserted 0 "q"; ExchangesAsserted 0;
                BindsEstablished 0] (new "q" VUndefined [] []) in
  consume w = (Some 0%nat, w) ∧ subscriptions w = [Consume "q"].
Proof. vm_compute. done. Qed.

(** The legacy implementation sets the flag before returning, and its
    second call returns the promise of the first. *)
Lemma consume_legacy_twice (w : world) :
  _started (self w) = false →
  fst (consume_legacy (snd (consume_legacy w))) = fst (consume_legacy w)
  ∧ snd (consume_legacy (snd (consume_legacy w))) = snd (consume_legacy w).
Proof. intros H. unfold consume_legacy. rewrite H. simpl. done. Qed.

(** *** What each continuation of [_startConsuming] does to the
    suspended invocations and to the subscriptions *)

Lemma run_cons (e : event) (es : list event) (w : world) :
  run (e :: es) w = run es (step e w).
Proof. reflexivity. Qed.

Lemma runs_queueAsserted p q w :
  runs (queueAsserted p q w) = <[p := AwaitExchanges q]> (runs w).
Proof. reflexivity. Qed.

Lemma runs_exchangesAsserted p q w :
  runs (exchangesAsserted p q w) = <[p := AwaitBinds q]> (runs w).
Proof. reflexivity. Qed.

Lemma runs_bindsEstablished p q w :
  runs (bindsEstablished p q w) = delete p (runs w).
Proof. unfold bindsEstablished. by destruct (truthy _). Qed.

Lemma filter_is_Consume_exchanges (exchanges : list Exchange) :
  List.filter is_Consume
    (map (λ e, AssertExchange (ex_name e) (ex_type e)) exchanges) = [].
Proof. induction exchanges as [|e es IH]; [done|]. simpl. apply IH. Qed.

Lemma filter_is_Consume_binds (q : string) (binds : list Binding) :
  List.filter is_Consume
    (map (λ b, BindQueue q (exchange b) (pattern b)) binds) = [].
Proof. induction binds as [|b bs IH]; [done|]. simpl. apply IH. Qed.

Lemma subscriptions_queueAsserted p q w :
  subscriptions (queueAsserted p q w) = subscriptions w.
Proof.
  unfold subscriptions. simpl.
  by rewrite List.filter_app, filter_is_Consume_exchanges, app_nil_r.
Qed.

Lemma subscriptions_exchangesAsserted p q w :
  subscriptions (exchangesAsserted p q w) = subscriptions w.
Proof.
  unfold subscriptions. simpl.
  by rewrite List.filter_app, filter_is_Consume_binds, app_nil_r.
Qed.

(** Every invocation that reaches its end adds one subscription. *)
Lemma subscriptions_bindsEstablished p q w :
  subscriptions (bindsEstablished p q w) = subscriptions w ++ [Consume q].
Proof.
  unfold subscriptions, bindsEstablished.
  destruct (truthy _); simpl; rewrite !List.filter_app; simpl;
    by rewrite ?app_nil_r.
Qed.

Lemma step_QueueAsserted p q w :
  runs w !! p = Some AwaitQueue → step (QueueAsserted p q) w = queueAsserted p q w.
Proof. intros H. simpl. by rewrite H. Qed.

Lemma step_ExchangesAsserted p q w :
  runs w !! p = Some (AwaitExchanges q) →
  step (ExchangesAsserted p) w = exchangesAsserted p q w.
Proof. intros H. simpl. by rewrite H. Qed.

Lemma step_BindsEstablished p q w :
  runs w !! p = Some (AwaitBinds q) →
  step (BindsEstablished p) w = bindsEstablished p q w.
Proof. intros H. simpl. by rewrite H. Qed.

Ltac map_lookup :=
  repeat (rewrite lookup_insert_eq
          || (rewrite lookup_insert_ne by done)
          || (rewrite lookup_delete_ne by done));
  try done.

(** C4. On a new consumer, on which [stopConsuming] was never called, two
    calls of [consume] in a row return two different promises and send
    [assertQueue] twice: [_started] is still [false] at the second call,
    because [_startConsuming] sets it only after its last [await].  When
    both invocations have run to their end the channel carries two
    subscriptions. *)
Theorem consume_twice_starts_twice (queueName : string) (prefetch : value)
    (exchanges : list Exchange) (binds : list Binding) :
  let w0 := new queueName prefetch exchanges binds in
  let first := consume w0 in
  let second := consume (snd first) in
  fst first = Some 0%nat
  ∧ fst second = Some 1%nat
  ∧ fst second ≠ fst first
  ∧ rpcs (snd second) = [AssertQueue queueName; AssertQueue queueName]
  ∧ subscriptions
      (run [QueueAsserted 0 queueName; QueueAsserted 1 queueName;
            ExchangesAsserted 0; ExchangesAsserted 1;
            BindsEstablished 0; BindsEstablished 1] (snd second))
    = [Consume queueName; Consume queueName].
Proof.
  intros w0 first second.
  repeat split; try done.
  assert (runs (snd second) = <[1%nat := AwaitQueue]> (<[0%nat := AwaitQueue]> ∅))
    as Hr by reflexivity.
  assert (subscriptions (snd second) = []) as Hs by reflexivity.
  generalize dependent (snd second). intros w Hr Hs.
  rewrite !run_cons. unfold run, foldl.
  rewrite (step_QueueAsserted 0) by (rewrite Hr; map_lookup).
  rewrite (step_QueueAsserted 1)
    by (rewrite runs_queueAsserted, Hr; map_lookup).
  rewrite (step_ExchangesAsserted 0 queueName)
    by (rewrite !runs_queueAsserted, Hr; map_lookup).
  rewrite (step_ExchangesAsserted 1 queueName)
    by (rewrite runs_exchangesAsserted, !runs_queueAsserted, Hr; map_lookup).
  rewrite (step_BindsEstablished 0 queueName)
    by (rewrite !runs_exchangesAsserted, !runs_queueAsserted, Hr; map_lookup).
  rewrite (step_BindsEstablished 1 queueName)
    by (rewrite runs_bindsEstablished, !runs_exchangesAsserted,
          !runs_queueAsserted, Hr; map_lookup).
  rewrite !subscriptions_bindsEstablished, !subscriptions_exchangesAsserted,
    !subscriptions_queueAsserted, Hs. done.
Qed.

(** *** [stopConsuming] *)

Lemma wf_new queueName prefetch exchanges binds :
  wf (new queueName prefetch exchanges binds).
Proof. split; simpl; intros *; by rewrite lookup_empty. Qed.

Lemma wf_same (w w' : world) :
  promises w' = promises w → next_promise w' = next_promise w →
  runs w' = runs w → stops w' = stops w → wf w → wf w'.
Proof.
  intros Hp Hn Hr Hs [H1 H2 H3 H4].
  split; rewrite ?Hp, ?Hn, ?Hr, ?Hs; assumption.
Qed.

Lemma wf_new_promise (k : kind) (o : option outcome) (w : world) :
  (∀ e, o ≠ Some (Rejected e)) → wf w → wf (snd (new_promise k o w)).
Proof.
  intros Ho [H1 H2 H3 H4]. split; simpl.
  - intros p x. destruct (decide (next_promise w = p)) as [<-|Hne].
    + intros _. lia.
    + rewrite lookup_insert_ne by done. intros H%H1. lia.
  - intros p st Hr. pose proof (H2 _ _ Hr) as Hp. pose proof (H1 _ _ Hp).
    rewrite lookup_insert_ne by lia. done.
  - intros p st Hr. pose proof (H3 _ _ Hr) as Hp. pose proof (H1 _ _ Hp).
    rewrite lookup_insert_ne by lia. done.
  - intros p k' e. destruct (decide (next_promise w = p)) as [<-|Hne].
    + rewrite lookup_insert_eq. intros [= -> ->]. by destruct (Ho e).
    + rewrite lookup_insert_ne by done. apply H4.
Qed.

Lemma wf_set_run (p : Promise) (st : stage) (w : world) :
  promises w !! p = Some (ConsumePromise, None) → wf w → wf (set_run p (Some st) w).
Proof.
  intros Hp [H1 H2 H3 H4]. split; simpl; try assumption.
  intros p' st'. destruct (decide (p = p')) as [<-|Hne].
  - done.
  - rewrite lookup_insert_ne by done. apply H2.
Qed.

Lemma wf_set_stop (sp : Promise) (x : stop_stage * option string) (w : world) :
  promises w !! sp = Some (StopPromise, None) → wf w → wf (set_stop sp (Some x) w).
Proof.
  intros Hp [H1 H2 H3 H4]. split; simpl; try assumption.
  intros p' st'. destruct (decide (sp = p')) as [<-|Hne].
  - done.
  - rewrite lookup_insert_ne by done. apply H3.
Qed.

Lemma wf_finish_run (p : Promise) (o : outcome) (w : world) :
  is_Some (runs w !! p) → wf w →
  wf (settle p ConsumePromise o (set_run p None w)).
Proof.
  intros [st Hst] [H1 H2 H3 H4]. pose proof (H2 _ _ Hst) as Hp.
  split; simpl.
  - intros p' x. destruct (decide (p = p')) as [<-|Hne].
    + intros _. by eapply H1.
    + rewrite lookup_insert_ne by done. apply H1.
  - intros p' st'. destruct (decide (p = p')) as [<-|Hne].
    + by rewrite lookup_delete_eq.
    + rewrite lookup_delete_ne, lookup_insert_ne by done. apply H2.
  - intros sp x Hs. pose proof (H3 _ _ Hs) as Hsp.
    destruct (decide (p = sp)) as [<-|Hne]; [congruence|].
    by rewrite lookup_insert_ne.
  - intros p' k e. destruct (decide (p = p')) as [<-|Hne].
    + rewrite lookup_insert_eq. by intros [= <- _].
    + rewrite lookup_insert_ne by done. apply H4.
Qed.

Lemma wf_finish_stop (sp : Promise) (w : world) :
  is_Some (stops w !! sp) → wf w →
  wf (settle sp StopPromise Fulfilled (set_stop sp None w)).
Proof.
  intros [st Hst] [H1 H2 H3 H4]. pose proof (H3 _ _ Hst) as Hp.
  split; simpl.
  - intros p' x. destruct (decide (sp = p')) as [<-|Hne].
    + intros _. by eapply H1.
    + rewrite lookup_insert_ne by done. apply H1.
  - intros p st' Hr. pose proof (H2 _ _ Hr) as Hcp.
    destruct (decide (sp = p)) as [<-|Hne]; [congruence|].
    by rewrite lookup_insert_ne.
  - intros p' x. destruct (decide (sp = p')) as [<-|Hne].
    + by rewrite lookup_delete_eq.
    + rewrite lookup_delete_ne, lookup_insert_ne by done. apply H3.
  - intros p' k e. destruct (decide (sp = p')) as [<-|Hne].
    + rewrite lookup_insert_eq. by intros [= _ ?].
    + rewrite lookup_insert_ne by done. apply H4.
Qed.

(** The tail of the chain swallows whatever reached it: the stop promise
    is fulfilled and the stored stop promise is cleared. *)
Lemma stop_chain_tail_fulfils (sp : Promise) (o1 : outcome) (w : world) :
  stop_chain_tail sp o1 w
  = settle sp StopPromise Fulfilled
      (set_stop sp None (with_self w (set_stopPromise None (self w)))).
Proof. by destruct o1. Qed.

Lemma wf_startConsuming (w : world) : wf w → wf (snd (_startConsuming w)).
Proof.
  intros Hw. unfold _startConsuming. simpl.
  apply wf_set_run; [simpl; by rewrite lookup_insert_eq|].
  eapply wf_same; [..|apply (wf_new_promise ConsumePromise None w); done]; done.
Qed.

Lemma wf_consume (w : world) : wf w → wf (snd (consume w)).
Proof.
  intros Hw. unfold consume. destruct (negb _); [|done].
  eapply wf_same; [..|apply (wf_startConsuming w Hw)]; done.
Qed.

Lemma wf_stopConsuming (w : world) : wf w → wf (snd (stopConsuming w)).
Proof.
  intros Hw. unfold stopConsuming.
  destruct (_ || _).
  - destruct (_stopPromise (self w)); [done|]. by apply wf_new_promise.
  - destruct (_consumePromise (self w)) as [cp|]; [|by apply wf_new_promise].
    simpl.
    eapply wf_same;
      [..|apply (wf_set_stop (next_promise w)
                   (AwaitConsume cp, _consumerTag (self w))
                   (snd (new_promise StopPromise None w)))]; try done.
    + simpl. by rewrite lookup_insert_eq.
    + by apply wf_new_promise.
Qed.

Lemma wf_step (e : event) (w : world) : wf w → wf (step e w).
Proof.
  intros Hw. destruct e as [| |p q|p|p|p e|tag|m|sp|sp o]; simpl.
  - by apply wf_consume.
  - by apply wf_stopConsuming.
  - destruct (runs w !! p) as [[]|] eqn:Hr; try done.
    apply wf_set_run; [exact (wf_runs w Hw _ _ Hr)|].
    eapply wf_same; [..|exact Hw]; done.
  - destruct (runs w !! p) as [[]|] eqn:Hr; try done.
    apply wf_set_run; [exact (wf_runs w Hw _ _ Hr)|].
    eapply wf_same; [..|exact Hw]; done.
  - destruct (runs w !! p) as [[]|] eqn:Hr; try done.
    unfold bindsEstablished.
    eapply wf_same; [..|apply (wf_finish_run p Fulfilled w); [by rewrite Hr|done]];
      by destruct (truthy _).
  - destruct (runs w !! p) as [st|] eqn:Hr; [|done].
    apply wf_finish_run; [by rewrite Hr|done].
  - destruct (subscriptions w); [done|]. eapply wf_same; [..|exact Hw]; done.
  - destruct (subscriptions w); [done|].
    destruct m; (eapply wf_same; [..|exact Hw]; done).
  - unfold stopAwaited.
    destruct (stops w !! sp) as [[[cp|] tag]|] eqn:Hs; try done.
    destruct (promises w !! cp) as [[k [[|e]|]]|] eqn:Hcp; try done.
    + apply wf_set_stop; [exact (wf_stops w Hw _ _ Hs)|].
      eapply wf_same; [..|exact Hw]; done.
    + rewrite stop_chain_tail_fulfils.
      eapply wf_same; [..|apply (wf_finish_stop sp w); [by rewrite Hs|done]]; done.
  - unfold cancelReplied.
    destruct (stops w !! sp) as [[[cp|] tag]|] eqn:Hs; try done.
    rewrite stop_chain_tail_fulfils.
    eapply wf_same; [..|apply (wf_finish_stop sp w); [by rewrite Hs|done]]; done.
Qed.







(** Whatever happens to a well-formed consumer, a pending stop promise that
    settles is fulfilled, and the stored stop promise is cleared by the
    same step. *)
Lemma stop_promise_settles_fulfilled (e : event) (w : world) sp o :
  wf w → promises w !! sp = Some (StopPromise, None) →
  promises (step e w) !! sp = Some (StopPromise, Some o) →
  o = Fulfilled ∧ _stopPromise (self (step e w)) = None.
Proof.
  intros Hw Hp. pose proof (wf_fresh w Hw _ _ Hp) as Hlt.
  assert (∀ p st, runs w !! p = Some st → p ≠ sp) as Hrun.
  { intros p st Hr ->. pose proof (wf_runs w Hw _ _ Hr). congruence. }
  destruct e as [| |p q|p|p|p e|tag|m|sp'|sp' o']; simpl.
  - unfold consume. destruct (negb _); simpl; [|congruence].
    rewrite lookup_insert_ne by lia. congruence.
  - unfold stopConsuming. destruct (_ || _).
    + destruct (_stopPromise (self w)); simpl; [congruence|].
      rewrite lookup_insert_ne by lia. congruence.
    + destruct (_consumePromise (self w)); simpl;
        rewrite lookup_insert_ne by lia; congruence.
  - destruct (runs w !! p) as [[]|]; simpl; congruence.
  - destruct (runs w !! p) as [[]|]; simpl; congruence.
  - destruct (runs w !! p) as [[]|] eqn:Hr; simpl; try congruence.
    unfold bindsEstablished. destruct (truthy _); simpl;
      rewrite lookup_insert_ne by (by eapply Hrun); congruence.
  - destruct (runs w !! p) as [st|] eqn:Hr; simpl; [|congruence].
    rewrite lookup_insert_ne by (by eapply Hrun). congruence.
  - destruct (subscriptions w); simpl; congruence.
  - destruct (subscriptions w); [congruence|]. destruct m; simpl; congruence.
  - unfold stopAwaited.
    destruct (stops w !! sp') as [[[cp|] tag]|]; try congruence.
    destruct (promises w !! cp) as [[k [[|e]|]]|]; try congruence.
    { simpl. congruence. }
    rewrite stop_chain_tail_fulfils. simpl.
    destruct (decide (sp' = sp)) as [->|Hne].
    + rewrite lookup_insert_eq. by intros [= <-].
    + rewrite lookup_insert_ne by done. congruence.
  - unfold cancelReplied.
    destruct (stops w !! sp') as [[[cp|] tag]|]; try congruence.
    rewrite stop_chain_tail_fulfils. simpl.
    destruct (decide (sp' = sp)) as [->|Hne].
    + rewrite lookup_insert_eq. by intros [= <-].
    + rewrite lookup_insert_ne by done. congruence.
Qed.




End AMQPConsumer.

(** ** PublishStream (the TypeScript AMQPPublishStream, src/unnamed/part_013) *)

Module AMQPPublishStream.

(** What the constructor hands to [Writable] and keeps. *)
Record t := {
  objectMode : bool;
  highWaterMark : value;
  decodeStrings : bool;
  _options : option value
}.

(** What Node's [Writable], reached by [super(...)], does with the
    [highWaterMark] it is handed: the value must be an integer that is not
    negative, otherwise the constructor throws ERR_INVALID_ARG_VALUE, a
    [TypeError] (its message goes on with the value received, which is
    left out here).  A number that is not [NaN] is an integer in this
    model, and [Math.floor] leaves it as it is. *)
Definition Writable_highWaterMark (hwm : value) : result value :=
  match hwm with
  | VNumber (Num z) =>
      if 0 <=? z then Ok hwm
      else Throw (TypeError "The property 'options.highWaterMark' is invalid.")
  | _ => Throw (TypeError "The property 'options.highWaterMark' is invalid.")
  end.

(** [options = options || {}], then [super] with
    [options.highWaterMark || 8].  The fresh [{}] has no property, so its
    [highWaterMark] is [undefined].  The fields are assigned only when
    [super] has returned. *)
Definition new (h : heap) (options : value) : result t :=
  hwm ← (if truthy options then get h options "highWaterMark" else Ok VUndefined);
  highWaterMark ← Writable_highWaterMark (or_ hwm (VNumber (Num 8)));
  Ok {| objectMode := true;
        highWaterMark := highWaterMark;
        decodeStrings := true;
        _options := if truthy options then Some options else None |}.

Inductive publish_options :=
| MessageOptions (v : value)
| NotPersistent.

(** The calls [_write] makes: the stream's write callback, the channel's
    [publish], the message's own callback. *)
Inductive effect :=
| WriteCallback (err : option error)
| Publish (exchange routingKey : value) (content : list byte)
    (options : publish_options)
| CustomPublishCallback (f : value).

Record fields := {
  exchange : value;
  routingKey : value;
  content : list byte;
  options : publish_options;
  customPublishCallback : value
}.

Definition is_object (message : value) : bool :=
  truthy message && bool_decide (typeof message = TObject).

(** [Buffer.isBuffer(v)], with the bytes. *)
Definition as_Buffer (h : heap) (v : value) : option (list byte) :=
  match v with
  | VRef l => match h !! l with Some (Buf bytes) => Some bytes | _ => None end
  | _ => None
  end.

(** [Buffer.from] on strings (taken as their UTF-8 bytes); other values are
    refused. *)
Definition Buffer_from_string (h : heap) (v : value) : result (list byte) :=
  match v with
  | VString s => Ok (String.list_byte_of_string s)
  | _ => Throw (TypeError "The first argument must be of type string or an instance of Buffer, ArrayBuffer, or Array or an Array-like Object.")
  end.

Section Write.

(** Node's [Buffer.from(value, 'utf-8')] on a value that is not a Buffer:
    the bytes, or the [TypeError] it throws.  The library only relies on
    it being a function. *)
Variable Buffer_from : heap → value → result (list byte).

(** The first [try] block of [_write]. *)
Definition verify (h : heap) (message : value) : result fields :=
  if negb (truthy message) || negb (bool_decide (typeof message = TObject))
  then Throw (Error "Messages to publish must be objects")
  else
    exchange0 ← get h message "exchange";
    routingKey ← get h message "routingKey";
    content0 ← get h message "content";
    content ← match as_Buffer h content0 with
               | Some bytes => Ok bytes
               | None => Buffer_from h content0
               end;
    options0 ← get h message "options";
    callback0 ← get h message "callback";
    if negb (truthy routingKey)
    then Throw (Error "No routing key provided in the message")
    else Ok {| exchange := or_ exchange0 (VString "");
               routingKey := routingKey;
               content := content;
               options := if truthy options0 then MessageOptions options0
                          else NotPersistent;
               customPublishCallback := or_ callback0 VNull |}.

(** [_write] up to its return; [publish_throws] is the exception, if any,
    that [channel.publish] raises synchronously. *)
Definition _write (h : heap) (publish_throws : option error) (message : value)
  : list effect :=
  match verify h message with
  | Throw messageVerificationError =>
      [WriteCallback (Some messageVerificationError)]
  | Ok m =>
      Publish (exchange m) (routingKey m) (content m) (options m)
      :: match publish_throws with
         | Some publishError => [WriteCallback (Some publishError)]
         | None => []
         end
  end.

(** [publishCallback], run by the channel when the broker has answered. *)
Definition publishCallback (m : fields) (publishError : option error) : list effect :=
  match publishError with
  | Some e => [WriteCallback (Some e)]
  | None =>
      WriteCallback None
      :: (if truthy (customPublishCallback m)
          then [CustomPublishCallback (customPublishCallback m)] else [])
  end.

Definition is_Publish (e : effect) : bool :=
  match e with Publish _ _ _ _ => true | _ => false end.

(** *** Validation *)

Lemma verify_not_object h message :
  is_object message = false →
  verify h message = Throw (Error "Messages to publish must be objects").
Proof.
  unfold is_object, verify. intros H.
  destruct (truthy message), (bool_decide _); simpl in *; done.
Qed.

Lemma verify_no_routing_key h message rk :
  get h message "routingKey" = Ok rk → truthy rk = false →
  ∃ e, verify h message = Throw e.
Proof.
  intros Hrk Hf. unfold verify.
  destruct (negb _ || negb _); [by eexists|].
  rewrite Hrk. simpl.
  destruct (get h message "exchange"); simpl; [|by eexists].
  destruct (get h message "content") as [c|]; simpl; [|by eexists].
  destruct (match as_Buffer h c with Some b => Ok b | None => Buffer_from h c end);
    simpl; [|by eexists].
  destruct (get h message "options"); simpl; [|by eexists].
  destruct (get h message "callback"); simpl; [|by eexists].
  rewrite Hf. simpl. by eexists.
Qed.

Lemma verify_ok h message m :
  verify h message = Ok m →
  is_object message = true
  ∧ ∃ ex, get h message "exchange" = Ok ex ∧ exchange m = or_ ex (VString "")
  ∧ get h message "routingKey" = Ok (routingKey m) ∧ truthy (routingKey m) = true.
Proof.
  unfold verify, is_object.
  destruct (truthy message), (bool_decide _); simpl; try done.
  destruct (get h message "exchange") as [ex|]; simpl; [|done].
  destruct (get h message "routingKey") as [rk|]; simpl; [|done].
  destruct (get h message "content") as [c|]; simpl; [|done].
  destruct (match as_Buffer h c with Some b => Ok b | None => Buffer_from h c end);
    simpl; [|done].
  destruct (get h message "options"); simpl; [|done].
  destruct (get h message "callback"); simpl; [|done].
  destruct (truthy rk) eqn:Hrk; simpl; [|done].
  intros [= <-]. simpl. split; [done|]. exists ex. done.
Qed.

(** C7. A chunk that is not an object, or whose [routingKey] is missing,
    empty or otherwise falsy, makes [_write] call the write callback with
    an error before returning and never reach [channel.publish].  For any
    other chunk, every call of [channel.publish] carries the chunk's
    routing key and, when its [exchange] is missing, empty or otherwise
    falsy, the exchange [""]; the call is made whenever the content could
    be turned into a Buffer. *)
Theorem write_validates_chunk (h : heap) (publish_throws : option error)
    (message : value) :
  (is_object message = false
   ∨ (∃ rk, get h message "routingKey" = Ok rk ∧ truthy rk = false) →
   (∃ e, _write h publish_throws message = [WriteCallback (Some e)])
   ∧ List.filter is_Publish (_write h publish_throws message) = [])
  ∧ (∀ ex e r c o,
       get h message "exchange" = Ok ex → truthy ex = false →
       In (Publish e r c o) (_write h publish_throws message) →
       e = VString "" ∧ get h message "routingKey" = Ok r)
  ∧ (∀ m, verify h message = Ok m →
       ∃ rest, _write h publish_throws message
               = Publish (exchange m) (routingKey m) (content m) (options m) :: rest
               ∧ List.filter is_Publish rest = []).
Proof.
  split; [|split].
  - intros H.
    assert (∃ e, verify h message = Throw e) as [e He].
    { destruct H as [H|(rk & Hrk & Hf)].
      - eexists. by apply verify_not_object.
      - by eapply verify_no_routing_key. }
    unfold _write. rewrite He. split; [by exists e|done].
  - intros ex e r c o Hex Hf. unfold _write.
    destruct (verify h message) as [m|err] eqn:Hv.
    + destruct (verify_ok _ _ _ Hv) as (_ & ex' & Hex' & Hm & Hrk & _).
      assert (ex' = ex) as -> by congruence.
      assert (exchange m = VString "") as Hempty.
      { rewrite Hm. unfold or_. by rewrite Hf. }
      intros [Heq|Hin].
      * injection Heq as <- <- _ _. done.
      * destruct publish_throws; simpl in Hin; [|done].
        by destruct Hin.
    + intros [Heq|[]]. discriminate Heq.
  - intros m Hv. unfold _write. rewrite Hv.
    eexists. split; [reflexivity|]. by destruct publish_throws.
Qed.

End Write.

(** A message without routing key is refused; a message with routing key
    and no exchange is published to the exchange [""]. *)
Lemma write_validates_chunk_witness :
  let h : heap := {[ 1%positive := Obj {[ "exchange" := VString "X" ]};
                     2%positive := Obj {[ "routingKey" := VString "k";
                                          "content" := VString "m" ]} ]} in
  (∃ e, _write Buffer_from_string h None (VRef 1%positive) = [WriteCallback (Some e)])
  ∧ _write Buffer_from_string h None (VRef 2%positive)
    = [Publish (VString "") (VString "k") [Byte.x6d] NotPersistent]
  ∧ (∀ e r c o,
       In (Publish e r c o) (_write Buffer_from_string h None (VRef 2%positive)) →
       e = VString "").
Proof.
  intros h. split; [|split].
  - apply (proj1 (write_validates_chunk Buffer_from_string h None (VRef 1%positive))).
    right. exists VUndefined. split; vm_compute; reflexivity.
  - vm_compute. reflexivity.
  - intros e r c o Hin.
    apply (proj1 (proj2 (write_validates_chunk Buffer_from_string h None (VRef 2%positive)))
             VUndefined e r c o); [vm_compute; reflexivity|reflexivity|exact Hin].
Defined.

(** *** The high-water mark *)

Lemma new_falsy_options h options :
  truthy options = false →
  ∃ s, new h options = Ok s ∧ highWaterMark s = VNumber (Num 8).
Proof.
  intros Ho. unfold new. rewrite Ho. simpl.
  eexists. split; reflexivity.
Qed.

Lemma new_falsy_highWaterMark h options v :
  truthy options = true → get h options "highWaterMark" = Ok v →
  truthy v = false →
  ∃ s, new h options = Ok s ∧ highWaterMark s = VNumber (Num 8).
Proof.
  intros Ho Hg Hv. unfold new. rewrite Ho, Hg. simpl.
  unfold or_. rewrite Hv. simpl.
  eexists. split; reflexivity.
Qed.

Lemma new_positive_highWaterMark h options z :
  truthy options = true →
  get h options "highWaterMark" = Ok (VNumber (Num z)) → 0 < z →
  ∃ s, new h options = Ok s ∧ highWaterMark s = VNumber (Num z).
Proof.
  intros Ho Hg Hz. unfold new. rewrite Ho, Hg. simpl.
  unfold or_. simpl.
  destruct (Z.eqb_spec z 0); [lia|]. simpl.
  destruct (Z.leb_spec 0 z); [|lia]. simpl.
  eexists. split; reflexivity.
Qed.

Lemma new_invalid_highWaterMark h options v :
  truthy options = true → get h options "highWaterMark" = Ok v →
  truthy v = true → (∀ z, v = VNumber (Num z) → z < 0) →
  ∃ e, new h options = Throw e.
Proof.
  intros Ho Hg Hv Hneg. unfold new. rewrite Ho, Hg. simpl.
  unfold or_. rewrite Hv.
  destruct v as [| |b|[|z]|str|l|f]; simpl in *; try done; try by eexists.
  specialize (Hneg z eq_refl).
  destruct (Z.leb_spec 0 z); [lia|]. by eexists.
Qed.

Lemma Writable_highWaterMark_Ok v v' :
  Writable_highWaterMark v = Ok v' → v' = v ∧ ∃ z, v = VNumber (Num z) ∧ 0 ≤ z.
Proof.
  destruct v as [| |b|[|z]|str|l|f]; simpl; try done.
  destruct (Z.leb_spec 0 z); [|done]. intros [= <-]. split; [done|]. by exists z.
Qed.

(** C9. Without options, or with a [highWaterMark] that is 0 or otherwise
    falsy, the stream is built with high-water mark 8; a [highWaterMark]
    that is a positive integer is used as given; any other truthy
    [highWaterMark] (a negative number, a string, [true], an object) makes
    the constructor throw, in [Writable]; hence every stream that is built
    has a positive high-water mark, 8 or the truthy one given, and none
    has high-water mark 0. *)
Theorem highWaterMark_defaults_to_8 (h : heap) :
  (∀ options, truthy options = false →
     ∃ s, new h options = Ok s ∧ highWaterMark s = VNumber (Num 8))
  ∧ (∀ options v, truthy options = true →
       get h options "highWaterMark" = Ok v → truthy v = false →
       ∃ s, new h options = Ok s ∧ highWaterMark s = VNumber (Num 8))
  ∧ (∀ options z, truthy options = true →
       get h options "highWaterMark" = Ok (VNumber (Num z)) → 0 < z →
       ∃ s, new h options = Ok s ∧ highWaterMark s = VNumber (Num z))
  ∧ (∀ options v, truthy options = true →
       get h options "highWaterMark" = Ok v → truthy v = true →
       (∀ z, v = VNumber (Num z) → z < 0) →
       ∃ e, new h options = Throw e)
  ∧ (∀ options s, new h options = Ok s →
       truthy (highWaterMark s) = true
       ∧ highWaterMark s ≠ VNumber (Num 0)
       ∧ (∃ z, highWaterMark s = VNumber (Num z) ∧ 0 < z)
       ∧ (highWaterMark s = VNumber (Num 8)
          ∨ ∃ v, get h options "highWaterMark" = Ok v ∧ truthy v = true
                 ∧ v ≠ VNumber (Num 0) ∧ highWaterMark s = v)).
Proof.
  split; [exact (new_falsy_options h)|].
  split; [exact (new_falsy_highWaterMark h)|].
  split; [exact (new_positive_highWaterMark h)|].
  split; [exact (new_invalid_highWaterMark h)|].
  intros options s. unfold new.
  assert (∀ hwm,
            (Writable_highWaterMark (or_ hwm (VNumber (Num 8))) ≫= λ m,
               Ok {| objectMode := true; highWaterMark := m; decodeStrings := true;
                     _options := if truthy options then Some options else None |})
            = Ok s →
            truthy (highWaterMark s) = true
            ∧ highWaterMark s ≠ VNumber (Num 0)
            ∧ (∃ z, highWaterMark s = VNumber (Num z) ∧ 0 < z)
            ∧ (highWaterMark s = VNumber (Num 8)
               ∨ truthy hwm = true ∧ hwm ≠ VNumber (Num 0) ∧ highWaterMark s = hwm))
    as Hmark.
  { intros hwm Hw.
    destruct (Writable_highWaterMark (or_ hwm (VNumber (Num 8)))) as [m|] eqn:Hm;
      simpl in Hw; [|done].
    injection Hw as <-. simpl.
    apply Writable_highWaterMark_Ok in Hm as (-> & z & Hz & Hge).
    unfold or_ in *. destruct (truthy hwm) eqn:Ht.
    - subst hwm. simpl in Ht.
      assert (z ≠ 0) by (intros ->; done).
      split; [done|]. split; [congruence|]. split; [exists z; split; [done|lia]|].
      right. split; [done|]. split; [congruence|done].
    - injection Hz as <-. split; [done|]. split; [done|].
      split; [by exists 8|]. by left. }
  destruct (truthy options) eqn:Ho.
  - destruct (get h options "highWaterMark") as [v|] eqn:Hg; simpl; [|done].
    intros Hs. destruct (Hmark v Hs) as (H1 & H2 & H3 & [H4|(H4 & H5 & H6)]).
    + split; [done|]. split; [done|]. split; [done|]. by left.
    + split; [done|]. split; [done|]. split; [done|]. right. by exists v.
  - simpl. intros Hs. destruct (Hmark VUndefined Hs) as (H1 & H2 & H3 & [H4|(H4 & _)]).
    + split; [done|]. split; [done|]. split; [done|]. by left.
    + done.
Qed.

(** [{ highWaterMark: 0 }], [{ highWaterMark: 32 }] and
    [{ highWaterMark: -1 }]. *)
Lemma highWaterMark_defaults_to_8_witness :
  let h : heap := {[ 1%positive := Obj {[ "highWaterMark" := VNumber (Num 0) ]};
                     2%positive := Obj {[ "highWaterMark" := VNumber (Num 32) ]};
                     3%positive := Obj {[ "highWaterMark" := VNumber (Num (-1)) ]} ]} in
  (∃ s, new h (VRef 1%positive) = Ok s ∧ highWaterMark s = VNumber (Num 8))
  ∧ (∃ s, new h (VRef 2%positive) = Ok s ∧ highWaterMark s = VNumber (Num 32))
  ∧ (∃ e, new h (VRef 3%positive) = Throw e).
Proof.
  intros h. split; [|split].
  - apply (proj1 (proj2 (highWaterMark_defaults_to_8 h)) (VRef 1%positive)
             (VNumber (Num 0))); vm_compute; reflexivity.
  - apply (proj1 (proj2 (proj2 (highWaterMark_defaults_to_8 h))) (VRef 2%positive) 32);
      vm_compute; reflexivity.
  - apply (proj1 (proj2 (proj2 (proj2 (highWaterMark_defaults_to_8 h))))
             (VRef 3%positive) (VNumber (Num (-1)))); try (vm_compute; reflexivity).
    intros z [= <-]. lia.
Defined.

End AMQPPublishStream.

(** ** TieredListener (the constructor in src/unnamed/part_004) *)

Module AMQPTieredListener.

(** *** Heap operations *)

(** [{...}] and [[...]]: a new object lives at an unused location. *)
Definition alloc (o : object) (h : heap) : loc * heap :=
  let l := fresh (dom h) in (l, <[l := o]> h).

(** [o[k] = v] on a plain object. *)
Definition set_field (l : loc) (k : string) (v : value) (h : heap) : heap :=
  match h !! l with
  | Some (Obj fs) => <[l := Obj (<[k := v]> fs)]> h
  | _ => h
  end.

Definition index_map (vs : list value) : gmap string value :=
  list_to_map (imap (λ i v, (pretty i, v)) vs).

(** The own enumerable properties that [Object.keys(v)] walks and a copy
    loop reads back: the fields of a plain object, the indices of an
    array, a Buffer or a string; nothing for a number, a boolean or a
    function; [undefined] and [null] make [Object.keys] throw. *)
Definition own_fields (h : heap) (v : value) : result (gmap string value) :=
  match v with
  | VUndefined | VNull =>
      Throw (TypeError "Cannot convert undefined or null to object")
  | VString s =>
      Ok (index_map (map (λ c, VString (String c EmptyString))
                       (String.list_ascii_of_string s)))
  | VRef l =>
      match h !! l with
      | Some (Obj fs) => Ok fs
      | Some (Arr vs) => Ok (index_map vs)
      | Some (Buf bs) =>
          Ok (index_map (map (λ b, VNumber (Num (Z.of_N (Byte.to_N b)))) bs))
      | None => Ok ∅
      end
  | _ => Ok ∅
  end.

(** [o.k = o.k || dflt], with [dflt] a fresh object. *)
Definition default_field (l : loc) (k : string) (dflt : object) (h : heap)
  : result heap :=
  v ← get h (VRef l) k;
  if truthy v then Ok (set_field l k v h)
  else let '(l', h') := alloc dflt h in Ok (set_field l k (VRef l') h').

(** The argument list of [Array.prototype.concat]: an array is spread, any
    other value is appended as it is. *)
Definition concat_arg (h : heap) (v : value) : list value :=
  match v with
  | VRef l => match h !! l with Some (Arr vs) => vs | _ => [v] end
  | _ => [v]
  end.

(** One closure of [consumerConstructors]: the tier, its index and the
    queue name computed when the listener was built. *)
Record constructor := {
  tier : value;
  tierIndex : nat;
  tierQueueName : string
}.

(** The variables the closures capture. *)
Record closure := {
  queueNameBase : string;
  options : loc;
  messageHandler : value;
  deadLetterExchange : value;
  circular : value;
  tiers : value;
  exchanges : value;
  consumerConstructors : list constructor
}.

Inductive bind :=
| OwnBind (exchange pattern : value)
| GivenBind (definition : value).

(** The arguments of [new AMQPConsumer(channel, tierQueueName,
    singleConsumerOptions)]; the two fresh objects [queueOptions] and
    [queueBinds] are given by their content. *)
Record consumer := {
  queueName : string;
  queue : gmap string value;
  consume : value;
  consumer_exchanges : value;
  binds : list bind
}.

Inductive operation := OpAck | OpRequeue | OpReject.

(** What the message listener does with the operations it was handed. *)
Inductive reaction :=
| Call (op : operation)
| SetTimeout (op : operation) (delay : value).

Section Model.

(** JavaScript's ToString on values other than strings, [undefined],
    [null] and booleans (number formatting, [Object.prototype.toString],
    [Array.prototype.join]); the library relies on it only through [+]. *)
Variable ToString_other : heap → value → string.

Definition to_string (h : heap) (v : value) : string :=
  match v with
  | VString s => s
  | VUndefined => "undefined"
  | VNull => "null"
  | VBool true => "true"
  | VBool false => "false"
  | _ => ToString_other h v
  end.

(** [tiers.slice()]: a copy of an array, a string as it is.  On a Buffer
    [slice] gives a Buffer on the same bytes; it is given here by the same
    object, which nothing below can tell from a second one on those
    bytes.  A plain object has no [slice] (one that brings a [slice]
    method of its own is outside this model). *)
Definition slice (h : heap) (v : value) : result (value * heap) :=
  match v with
  | VUndefined | VNull =>
      Throw (TypeError "Cannot read properties of undefined (reading 'slice')")
  | VString s => Ok (VString s, h)
  | VRef l =>
      match h !! l with
      | Some (Arr vs) => let '(l', h') := alloc (Arr vs) h in Ok (VRef l', h')
      | Some (Buf bs) => Ok (VRef l, h)
      | _ => Throw (TypeError "tiers.slice is not a function")
      end
  | _ => Throw (TypeError "tiers.slice is not a function")
  end.

(** [options.exchanges.concat([ deadLetterExchange ])] on the truthy value
    that [options.exchanges] holds by then. *)
Definition concat_deadLetterExchange (h : heap) (v dlx : value)
  : result (value * heap) :=
  match v with
  | VString s => Ok (VString (s +:+ to_string h dlx), h)
  | VRef l =>
      match h !! l with
      | Some (Arr vs) =>
          let '(l', h') := alloc (Arr (vs ++ [dlx])) h in Ok (VRef l', h')
      | _ => Throw (TypeError "options.exchanges.concat is not a function")
      end
  | _ => Throw (TypeError "options.exchanges.concat is not a function")
  end.

(** The callback of [tiers.map]: the queue name is computed here, once. *)
Definition createTierQueueConstructor (h : heap) (base : string)
    (tier : value) (tierIndex : nat) : result constructor :=
  name ← get h tier "name";
  Ok {| tier := tier; tierIndex := tierIndex;
        tierQueueName := base +:+ "-" +:+ to_string h name |}.

Fixpoint map_tiers (h : heap) (base : string) (vs : list value) (i : nat)
  : result (list constructor) :=
  match vs with
  | [] => Ok []
  | v :: vs' =>
      c ← createTierQueueConstructor h base v i;
      cs ← map_tiers h base vs' (S i);
      Ok (c :: cs)
  end.

(** The elements of a Buffer, as its [map] hands them to the callback. *)
Definition bytes_values (bs : list byte) : list value :=
  map (λ b, VNumber (Num (Z.of_N (Byte.to_N b)))) bs.

(** [tiers.map(createTierQueueConstructor)] on the sliced value.  On a
    Buffer the callback runs on every byte, and what it returns is stored
    as a byte: the closures are lost (each becomes 0), so that the
    listener is handed a Buffer and not one closure. *)
Definition tiers_map (h : heap) (base : string) (v : value)
  : result (list constructor) :=
  match v with
  | VRef l =>
      match h !! l with
      | Some (Arr vs) => map_tiers h base vs 0
      | Some (Buf bs) => _ ← map_tiers h base (bytes_values bs) 0; Ok []
      | _ => Throw (TypeError "tiers.map is not a function")
      end
  | _ => Throw (TypeError "tiers.map is not a function")
  end.

(** The constructor, statement by statement. *)
Definition AMQPTieredListener (h : heap) (queueNameBase : string)
    (tiers options : value) : result (closure * heap) :=
  copiedOptions ← (if truthy options then own_fields h options else Ok ∅);
  let '(options, h) := alloc (Obj copiedOptions) h in
  h ← default_field options "queue" (Obj ∅) h;
  h ← default_field options "consume" (Obj ∅) h;
  h ← default_field options "exchanges" (Arr []) h;
  h ← default_field options "binds" (Arr []) h;
  h ← default_field options "routing" (Obj ∅) h;
  handler ← get h (VRef options) "messageHandler";
  let messageHandler := or_ handler (VFun "handleMessage") in
  routing ← get h (VRef options) "routing";
  dlx ← get h routing "deadLetterExchange";
  let '(deadLetterExchange, h) :=
    if truthy dlx then (dlx, h)
    else
      let '(o, h) := alloc (Obj {[ "durable" := VBool true ]}) h in
      let '(d, h) := alloc (Obj {[ "name" := VString (queueNameBase +:+ "DLX");
                                   "type" := VString "direct";
                                   "options" := VRef o ]}) h in
      (VRef d, h) in
  c ← get h routing "circular";
  let circular := or_ c (VBool false) in
  '(tiers, h) ← slice h tiers;
  exchanges0 ← get h (VRef options) "exchanges";
  '(exchanges, h) ← concat_deadLetterExchange h exchanges0 deadLetterExchange;
  consumerConstructors ← tiers_map h queueNameBase tiers;
  Ok ({| queueNameBase := queueNameBase; options := options;
         messageHandler := messageHandler;
         deadLetterExchange := deadLetterExchange; circular := circular;
         tiers := tiers; exchanges := exchanges;
         consumerConstructors := consumerConstructors |}, h).

(** The elements of the private [tiers] array, read when a closure runs
    ([tiers.length], [tiers[i]]).  The closures never write to it. *)
Definition tiers_elems (h : heap) (cl : closure) : result (list value) :=
  match tiers cl with
  | VRef l =>
      match h !! l with
      | Some (Arr vs) => Ok vs
      | _ => Throw (TypeError "tiers is not an array")
      end
  | _ => Throw (TypeError "tiers is not an array")
  end.

(** [tiers[i].name]. *)
Definition tier_name (h : heap) (vs : list value) (i : nat) : result value :=
  get h (default VUndefined (vs !! i)) "name".

(** [constructConsumer(channel)] up to [new AMQPConsumer(...)], on the
    heap as it is when the channel has been created. *)
Definition constructConsumer (h : heap) (cl : closure) (c : constructor)
  : result consumer :=
  userQueue ← get h (VRef (options cl)) "queue";
  queueOptions ← own_fields h userQueue;
  vs ← tiers_elems h cl;
  queueOptions ←
    (if bool_decide (Z.of_nat (tierIndex c) ≠ Z.of_nat (length vs) - 1)
     then
       dlxName ← get h (deadLetterExchange cl) "name";
       nextName ← tier_name h vs (tierIndex c + 1);
       Ok (<["deadLetterRoutingKey" := nextName]>
             (<["deadLetterExchange" := dlxName]> queueOptions))
     else Ok queueOptions);
  queueOptions ←
    (if bool_decide (Z.of_nat (tierIndex c) = Z.of_nat (length vs) - 1)
        && truthy (circular cl)
     then
       dlxName ← get h (deadLetterExchange cl) "name";
       firstName ← tier_name h vs 0;
       Ok (<["deadLetterRoutingKey" := firstName]>
             (<["deadLetterExchange" := dlxName]> queueOptions))
     else Ok queueOptions);
  dlxName ← get h (deadLetterExchange cl) "name";
  ownPattern ← get h (tier c) "name";
  userBinds ← get h (VRef (options cl)) "binds";
  let queueBinds :=
    OwnBind dlxName ownPattern
    :: (if bool_decide (tierIndex c = 0%nat)
        then map GivenBind (concat_arg h userBinds) else []) in
  userConsume ← get h (VRef (options cl)) "consume";
  Ok {| queueName := tierQueueName c;
        queue := queueOptions;
        consume := userConsume;
        consumer_exchanges := exchanges cl;
        binds := queueBinds |}.

(** The listener registered on ['message']: [handled] tells whether
    [messageHandler] completed ([messageProcessed]) or failed
    ([messageProcessingFailed]). *)
Definition onMessage (h : heap) (cl : closure) (c : constructor) (handled : bool)
  : result reaction :=
  if handled then Ok (Call OpAck)
  else
    vs ← tiers_elems h cl;
    if bool_decide (Z.of_nat (tierIndex c) ≠ Z.of_nat (length vs) - 1)
       || truthy (circular cl)
    then delay ← get h (tier c) "delay"; Ok (SetTimeout OpReject delay)
    else delay ← get h (tier c) "delay"; Ok (SetTimeout OpRequeue delay).

End Model.

(** The values a closure dereferences when it runs: the user's queue
    options and binds (held by the copied options), the dead-letter
    exchange definition and the tiers. *)
Definition reads (h : heap) (cl : closure) : list value :=
  match h !! options cl with
  | Some (Obj fs) =>
      [default VUndefined (fs !! "queue"); default VUndefined (fs !! "binds")]
  | _ => []
  end
  ++ deadLetterExchange cl
  :: match tiers cl with
     | VRef l => match h !! l with Some (Arr vs) => vs | _ => [] end
     | _ => []
     end.

(** None of them is the caller's tiers array [lt] or options object [lo],
    and none dangles. *)
Definition apart (h : heap) (cl : closure) (lt lo : loc) : bool :=
  forallb (λ v, match v with
                | VRef l => bool_decide (l ≠ lt ∧ l ≠ lo ∧ is_Some (h !! l))
                | _ => true
                end) (reads h cl).

(** The operations are the closures built by the consumer. *)
Definition perform (op : operation) (m : AMQPConsumer.Message)
  : AMQPConsumer.world → AMQPConsumer.world :=
  match op with
  | OpAck => AMQPConsumer.ack m
  | OpRequeue => AMQPConsumer.requeue m
  | OpReject => AMQPConsumer.reject m
  end.

(** [h'] keeps every object of [h]. *)
Definition extends (h h' : heap) : Prop :=
  ∀ l o, h !! l = Some o → h' !! l = Some o.

(** The queue options a tier ends up with, given the user's. *)
Definition tier_queue (dlxName next first : value) (userQueue : gmap string value)
    (i N : nat) (circular : bool) : gmap string value :=
  if bool_decide (i + 1 < N)%nat
  then <["deadLetterRoutingKey" := next]> (<["deadLetterExchange" := dlxName]> userQueue)
  else if circular
       then <["deadLetterRoutingKey" := first]>
              (<["deadLetterExchange" := dlxName]> userQueue)
       else userQueue.

(** What a successful construction establishes. *)
Record constructed (ToString_other : heap → value → string) (h : heap)
    (base : string) (tiersV optsV : value) (cl : closure) (h1 : heap) : Prop := {
  c_tiers_arg :
      (∃ lt vs lt',
         tiersV = VRef lt ∧ (∀ o, h !! lt = Some o → o = Arr vs)
         ∧ tiers cl = VRef lt' ∧ h !! lt' = None ∧ h1 !! lt' = Some (Arr vs)
         ∧ map_tiers ToString_other h1 base vs 0 = Ok (consumerConstructors cl))
      ∨ (∃ lt bs,
           tiersV = VRef lt ∧ (∀ o, h !! lt = Some o → o = Buf bs)
           ∧ h1 !! lt = Some (Buf bs)
           ∧ tiers cl = VRef lt ∧ consumerConstructors cl = []);
  c_options : ∃ fs q c x b r,
      h !! options cl = None ∧ h1 !! options cl = Some (Obj fs)
      ∧ fs !! "queue" = Some q ∧ truthy q = true
      ∧ fs !! "consume" = Some c ∧ truthy c = true
      ∧ fs !! "exchanges" = Some x
      ∧ fs !! "binds" = Some b ∧ truthy b = true
      ∧ fs !! "routing" = Some r;
  c_copied : ∃ copied q b,
      (if truthy optsV then own_fields h optsV else Ok ∅) = Ok copied
      ∧ get h1 (VRef (options cl)) "queue" = Ok q
      ∧ get h1 (VRef (options cl)) "binds" = Ok b
      ∧ (truthy (default VUndefined (copied !! "queue")) = true
         → q = default VUndefined (copied !! "queue"))
      ∧ (truthy (default VUndefined (copied !! "queue")) = false
         → ∃ l, q = VRef l ∧ h !! l = None ∧ h1 !! l = Some (Obj ∅))
      ∧ (truthy (default VUndefined (copied !! "binds")) = true
         → b = default VUndefined (copied !! "binds"))
      ∧ (truthy (default VUndefined (copied !! "binds")) = false
         → ∃ l, b = VRef l ∧ h !! l = None ∧ h1 !! l = Some (Arr []));
  c_extends : extends h h1;
  c_dlx : truthy (deadLetterExchange cl) = true;
  c_base : queueNameBase cl = base
}.

(** *** Concrete listeners *)

Definition ToString_plain (h : heap) (v : value) : string := "[object Object]".

(** Three tiers as in the example program, a durable queue and one user
    bind; the tiers array is object 1, the options object is object 5. *)
Definition example_heap : heap :=
  {[ 1%positive := Arr [VRef 2; VRef 3; VRef 4];
     2%positive := Obj {[ "name" := VString "fast"; "delay" := VNumber (Num 500) ]};
     3%positive := Obj {[ "name" := VString "medium"; "delay" := VNumber (Num 2000) ]};
     4%positive := Obj {[ "name" := VString "slow"; "delay" := VNumber (Num 10000) ]};
     5%positive := Obj {[ "queue" := VRef 6; "binds" := VRef 7 ]};
     6%positive := Obj {[ "durable" := VBool true ]};
     7%positive := Arr [VRef 8];
     8%positive := Obj {[ "exchange" := VString "X"; "pattern" := VString "k" ]} ]}.


(** *** Heap lemmas *)

Lemma alloc_fresh (o : object) (h h' : heap) (l : loc) :
  alloc o h = (l, h') → h !! l = None ∧ h' = <[l := o]> h.
Proof.
  unfold alloc. intros [= <- <-]. split; [|done].
  apply not_elem_of_dom, is_fresh.
Qed.

Lemma bind_Ok {A B} (m : result A) (f : A → result B) (b : B) :
  m ≫= f = Ok b → ∃ a, m = Ok a ∧ f a = Ok b.
Proof. destruct m as [a|e]; simpl; [|done]. intros H. by exists a. Qed.

Lemma bind_Ok_l {A B} (a : A) (f : A → result B) : Ok a ≫= f = f a.
Proof. reflexivity. Qed.

Ltac fields_lookup :=
  repeat (rewrite lookup_insert_eq || (rewrite lookup_insert_ne by done));
  try done.

Lemma default_field_inv l k d h h' fs :
  h !! l = Some (Obj fs) → default_field l k d h = Ok h' →
  ∃ v, h' !! l = Some (Obj (<[k := v]> fs)) ∧ truthy v = true
       ∧ (∀ l' o, l' ≠ l → h !! l' = Some o → h' !! l' = Some o)
       ∧ (truthy (default VUndefined (fs !! k)) = true
          → v = default VUndefined (fs !! k))
       ∧ (truthy (default VUndefined (fs !! k)) = false
          → ∃ l', v = VRef l' ∧ h !! l' = None ∧ h' !! l' = Some d).
Proof.
  intros Hl. unfold default_field. simpl. rewrite Hl. simpl.
  destruct (truthy (default VUndefined (fs !! k))) eqn:Ht.
  - intros [= <-]. exists (default VUndefined (fs !! k)).
    unfold set_field. rewrite Hl.
    split; [by rewrite lookup_insert_eq|]. split; [done|].
    split; [intros l' o Hne Ho; rewrite lookup_insert_ne; [done|congruence]|].
    split; [done|]. intros [=].
  - set (l' := fresh (dom h)).
    assert (h !! l' = None) as Hfresh by apply not_elem_of_dom, is_fresh.
    assert (l' ≠ l) as Hne by congruence.
    intros [= <-]. exists (VRef l'). unfold set_field.
    rewrite lookup_insert_ne, Hl by done.
    split; [by rewrite lookup_insert_eq|]. split; [done|].
    split.
    { intros l'' o Hne' Ho. rewrite lookup_insert_ne by congruence.
      rewrite lookup_insert_ne by congruence. done. }
    split; [intros [=]|]. intros _. exists l'.
    split; [done|]. split; [done|].
    rewrite lookup_insert_ne by done. by rewrite lookup_insert_eq.
Qed.

Section Properties.

Variable ToString_other : heap → value → string.

Lemma map_tiers_inv h base vs k cs :
  map_tiers ToString_other h base vs k = Ok cs →
  length cs = length vs
  ∧ ∀ i c, cs !! i = Some c →
      vs !! i = Some (tier c) ∧ tierIndex c = (k + i)%nat
      ∧ ∃ name, get h (tier c) "name" = Ok name
                ∧ tierQueueName c = base +:+ "-" +:+ to_string ToString_other h name.
Proof.
  revert k cs. induction vs as [|v vs IH]; intros k cs; simpl.
  - intros [= <-]. split; [done|]. intros i c. by rewrite lookup_nil.
  - intros (c & Hc & H)%bind_Ok. apply bind_Ok in H as (cs' & Hcs & [= <-]).
    destruct (IH _ _ Hcs) as [Hlen Hall].
    split; [simpl; by rewrite Hlen|].
    intros [|i] c'; simpl.
    + intros [= <-]. unfold createTierQueueConstructor in Hc.
      apply bind_Ok in Hc as (name & Hname & [= <-]). simpl.
      split; [done|]. split; [lia|]. by exists name.
    + intros Hi. destruct (Hall _ _ Hi) as (? & ? & ?).
      split; [done|]. split; [lia|]. done.
Qed.

Lemma slice_inv h v v' h' :
  slice h v = Ok (v', h') →
  (∃ s, v = VString s ∧ v' = VString s ∧ h' = h)
  ∨ (∃ l vs l', v = VRef l ∧ h !! l = Some (Arr vs) ∧ v' = VRef l'
                ∧ h !! l' = None ∧ h' = <[l' := Arr vs]> h)
  ∨ (∃ l bs, v = VRef l ∧ h !! l = Some (Buf bs) ∧ v' = VRef l ∧ h' = h).
Proof.
  unfold slice. destruct v as [| | | |s|l|]; try done.
  - intros [= <- <-]. left. by exists s.
  - destruct (h !! l) as [[| vs | bs]|] eqn:Hl; try done.
    + destruct (alloc (Arr vs) h) as [l' h''] eqn:Ha.
      destruct (alloc_fresh _ _ _ _ Ha) as [Hf ->].
      intros [= <- <-]. right. left. by exists l, vs, l'.
    + intros [= <- <-]. right. right. by exists l, bs.
Qed.

Lemma slice_extends h v v' h' : slice h v = Ok (v', h') → extends h h'.
Proof.
  intros [(s & _ & _ & ->)|[(l & vs & l' & _ & _ & _ & Hf & ->)|(l & bs & _ & _ & _ & ->)]]%slice_inv.
  - by intros l o.
  - intros l0 o Hl0. rewrite lookup_insert_ne; [done|congruence].
  - by intros l0 o.
Qed.

Lemma concat_deadLetterExchange_inv h v dlx e h' :
  concat_deadLetterExchange ToString_other h v dlx = Ok (e, h') →
  h' = h ∨ ∃ l' o, h !! l' = None ∧ h' = <[l' := o]> h.
Proof.
  unfold concat_deadLetterExchange. destruct v as [| | | |s|l|]; try done.
  - intros [= _ <-]. by left.
  - destruct (h !! l) as [[| vs |]|] eqn:Hl; try done.
    destruct (alloc (Arr (vs ++ [dlx])) h) as [l' h''] eqn:Ha.
    destruct (alloc_fresh _ _ _ _ Ha) as [Hf ->].
    intros [= _ <-]. right. by exists l', (Arr (vs ++ [dlx])).
Qed.

Lemma tiers_map_inv h base v cs :
  tiers_map ToString_other h base v = Ok cs →
  (∃ l vs, v = VRef l ∧ h !! l = Some (Arr vs)
           ∧ map_tiers ToString_other h base vs 0 = Ok cs)
  ∨ (∃ l bs, v = VRef l ∧ h !! l = Some (Buf bs) ∧ cs = []).
Proof.
  unfold tiers_map. destruct v as [| | | | |l|]; try done.
  destruct (h !! l) as [[| vs | bs]|] eqn:Hl; try done.
  - intros H. left. by exists l, vs.
  - intros (? & _ & [= <-])%bind_Ok. right. by exists l, bs.
Qed.

(** The callback does not throw on bytes: the [name] of a number is
    [undefined]. *)
Lemma map_tiers_bytes h base bs k :
  ∃ cs, map_tiers ToString_other h base (bytes_values bs) k = Ok cs.
Proof.
  revert k. induction bs as [|b bs IH]; intros k; [by eexists|].
  destruct (IH (S k)) as [cs Hcs].
  change (map_tiers ToString_other h base (bytes_values (b :: bs)) k)
    with (createTierQueueConstructor ToString_other h base
            (VNumber (Num (Z.of_N (Byte.to_N b)))) k ≫= λ c,
          map_tiers ToString_other h base (bytes_values bs) (S k) ≫= λ cs,
          Ok (c :: cs)).
  rewrite Hcs. by eexists.
Qed.

Lemma extends_refl h : extends h h.
Proof. by intros l o. Qed.

Lemma extends_trans h1 h2 h3 : extends h1 h2 → extends h2 h3 → extends h1 h3.
Proof. intros H12 H23 l o Hl. by apply H23, H12. Qed.

Lemma extends_insert_fresh h l o : h !! l = None → extends h (<[l := o]> h).
Proof.
  intros Hf l' o' Hl'. rewrite lookup_insert_ne; [done|congruence].
Qed.

Lemma construct_inv h base tiersV optsV cl h1 :
  AMQPTieredListener ToString_other h base tiersV optsV = Ok (cl, h1) →
  constructed ToString_other h base tiersV optsV cl h1.
Proof.
  unfold AMQPTieredListener.
  intros (copied & Hcopied & H)%bind_Ok.
  destruct (alloc (Obj copied) h) as [lo' h0] eqn:Ha.
  destruct (alloc_fresh _ _ _ _ Ha) as [Hlo ->].
  assert (<[lo' := Obj copied]> h !! lo' = Some (Obj copied)) as Hl0
    by apply lookup_insert_eq.
  assert (∀ l o, l ≠ lo' → h !! l = Some o →
            <[lo' := Obj copied]> h !! l = Some o) as Hp0.
  { intros l o Hne Hl. rewrite lookup_insert_ne; [done|congruence]. }
  apply bind_Ok in H as (ha & Hda & H).
  destruct (default_field_inv _ _ _ _ _ _ Hl0 Hda)
    as (q & Hla & Hq & Hpa & Hq1 & Hq2).
  apply bind_Ok in H as (hb & Hdb & H).
  destruct (default_field_inv _ _ _ _ _ _ Hla Hdb) as (c & Hlb & Hc & Hpb & _).
  apply bind_Ok in H as (hc & Hdc & H).
  destruct (default_field_inv _ _ _ _ _ _ Hlb Hdc) as (x & Hlc & Hx & Hpc & _).
  apply bind_Ok in H as (hd & Hdd & H).
  destruct (default_field_inv _ _ _ _ _ _ Hlc Hdd)
    as (b & Hld & Hb & Hpd & Hb1 & Hb2).
  rewrite !lookup_insert_ne in Hb1, Hb2 by done.
  apply bind_Ok in H as (he & Hde & H).
  destruct (default_field_inv _ _ _ _ _ _ Hld Hde) as (r & Hle & Hr & Hpe & _).
  assert (∀ l o, l ≠ lo' → h !! l = Some o → he !! l = Some o) as Hp.
  { intros l o Hne Hl. by apply Hpe, Hpd, Hpc, Hpb, Hpa, Hp0. }
  apply bind_Ok in H as (handler & Hh & H).
  apply bind_Ok in H as (routing & Hrt & H).
  apply bind_Ok in H as (dlx & Hdlx & H).
  destruct (if truthy dlx then (dlx, he) else _) as [dle hf] eqn:Hdle.
  assert (extends he hf ∧ truthy dle = true) as [Hef Htd].
  { destruct (truthy dlx) eqn:Ht.
    - injection Hdle as <- <-. split; [apply extends_refl|done].
    - destruct (alloc (Obj {[ "durable" := VBool true ]}) he) as [o ho] eqn:Ho.
      destruct (alloc_fresh _ _ _ _ Ho) as [Hfo ->].
      destruct (alloc _ (<[o := _]> he)) as [d hd'] eqn:Hd.
      destruct (alloc_fresh _ _ _ _ Hd) as [Hfd ->].
      injection Hdle as <- <-. split; [|done].
      eapply extends_trans; by apply extends_insert_fresh. }
  apply bind_Ok in H as (ci & Hci & H).
  apply bind_Ok in H as ([tv hg] & Hsl & H).
  apply bind_Ok in H as (ex0 & Hex0 & H).
  apply bind_Ok in H as ([ex hh] & Hcc & H).
  apply bind_Ok in H as (cs & Hcs & [= <- <-]).
  assert (extends hg hh) as Hgh.
  { apply concat_deadLetterExchange_inv in Hcc as [->|(l' & o & Hfl & ->)];
      [apply extends_refl|by apply extends_insert_fresh]. }
  assert (extends hf hh) as Hfh.
  { eapply extends_trans; [|exact Hgh]. by eapply slice_extends. }
  assert (extends he hh) as Heh by (eapply extends_trans; eassumption).
  assert (∀ l o, l ≠ lo' → h !! l = Some o → hf !! l = Some o) as Hhf.
  { intros l o Hne Hl. by apply Hef, Hp. }
  assert (hf !! lo' = Some (Obj (<["routing" := r]> (<["binds" := b]>
            (<["exchanges" := x]> (<["consume" := c]> (<["queue" := q]> copied)))))))
    as Hlof by (by apply Hef).
  split; simpl.
  - apply slice_inv in Hsl
      as [(s & _ & -> & _)|[(lt & vs' & lt' & -> & Hlt & -> & Hf & ->)
                            |(lt & bs & -> & Hlt & -> & ->)]].
    + by destruct (tiers_map_inv _ _ _ _ Hcs) as [(? & ? & [=] & _)|(? & ? & [=] & _)].
    + assert (hh !! lt' = Some (Arr vs')) as Hlt2.
      { apply Hgh. apply lookup_insert_eq. }
      assert (lt ≠ lo') as Hne by congruence.
      left. exists lt, vs', lt'. split; [done|]. split.
      { intros o Hl. pose proof (Hhf _ _ Hne Hl). congruence. }
      split; [done|]. split.
      { destruct (h !! lt') as [o|] eqn:Hl; [|done].
        assert (lt' ≠ lo') as Hne' by congruence.
        pose proof (Hhf _ _ Hne' Hl). congruence. }
      split; [done|].
      destruct (tiers_map_inv _ _ _ _ Hcs)
        as [(l0 & vs & [= <-] & Hm0 & Hmap)|(l0 & bs & [= <-] & Hm0 & _)];
        [|congruence].
      assert (vs = vs') as -> by congruence. done.
    + assert (hh !! lt = Some (Buf bs)) as Hlt2 by (by apply Hgh).
      assert (lt ≠ lo') as Hne by congruence.
      right. exists lt, bs. split; [done|]. split.
      { intros o Hl. pose proof (Hhf _ _ Hne Hl). congruence. }
      split; [done|]. split; [done|].
      destruct (tiers_map_inv _ _ _ _ Hcs)
        as [(l0 & vs & [= <-] & Hm0 & _)|(l0 & bs' & _ & _ & ->)]; [congruence|done].
  - exists (<["routing" := r]> (<["binds" := b]> (<["exchanges" := x]>
             (<["consume" := c]> (<["queue" := q]> copied))))), q, c, x, b, r.
    split; [done|]. split; [by apply Heh|].
    repeat split; try done; fields_lookup.
  - assert (hh !! lo' = Some (Obj (<["routing" := r]> (<["binds" := b]>
             (<["exchanges" := x]> (<["consume" := c]> (<["queue" := q]> copied)))))))
      as Hfin by (by apply Heh).
    assert (∀ l o, l ≠ lo' → ha !! l = Some o → hh !! l = Some o) as Hah.
    { intros l o Hl Ho. by apply Heh, Hpe, Hpd, Hpc, Hpb. }
    assert (∀ l o, l ≠ lo' → hd !! l = Some o → hh !! l = Some o) as Hdh.
    { intros l o Hl Ho. by apply Heh, Hpe. }
    assert (∀ l, h !! l = None ∨ l ≠ lo') as Hdom.
    { intros l. destruct (decide (l = lo')) as [->|]; [by left|by right]. }
    exists copied, q, b. split; [done|]. simpl. rewrite Hfin.
    split; [fields_lookup|]. split; [fields_lookup|].
    split; [done|]. split; [|split; [done|]].
    + intros Hfq. destruct (Hq2 Hfq) as (l & -> & Hn & Hs).
      assert (l ≠ lo') as Hne' by (intros ->; rewrite lookup_insert_eq in Hn; done).
      exists l. split; [done|]. split; [|by apply Hah].
      rewrite lookup_insert_ne in Hn by done. done.
    + intros Hfb. destruct (Hb2 Hfb) as (l & -> & Hn & Hs).
      assert (l ≠ lo') as Hne' by congruence.
      exists l. split; [done|]. split; [|by apply Hdh].
      destruct (h !! l) as [o|] eqn:Hl; [|done].
      pose proof (Hpc _ _ Hne' (Hpb _ _ Hne' (Hpa _ _ Hne' (Hp0 _ _ Hne' Hl)))).
      congruence.
  - intros l o Hl. destruct (decide (l = lo')) as [->|Hne']; [congruence|].
    by apply Heh, Hp.
  - done.
  - done.
Qed.

Lemma get_truthy h v k : truthy v = true → ∃ x, get h v k = Ok x.
Proof.
  destruct v as [| | | | |l|]; simpl; try done; try by eexists.
  intros _. destruct (h !! l) as [[]|]; by eexists.
Qed.

Lemma own_fields_truthy h v : truthy v = true → ∃ fs, own_fields h v = Ok fs.
Proof.
  destruct v as [| | | | |l|]; simpl; try done; try by eexists.
  intros _. destruct (h !! l) as [[]|]; by eexists.
Qed.

Lemma get_field_of h l fs k v :
  h !! l = Some (Obj fs) → fs !! k = Some v → get h (VRef l) k = Ok v.
Proof. intros Hl Hk. simpl. by rewrite Hl, Hk. Qed.

Lemma constructConsumer_eval h cl c fs q uq b cns vs dn name next first :
  h !! options cl = Some (Obj fs) →
  fs !! "queue" = Some q → own_fields h q = Ok uq →
  fs !! "binds" = Some b → fs !! "consume" = Some cns →
  tiers_elems h cl = Ok vs →
  get h (deadLetterExchange cl) "name" = Ok dn →
  get h (tier c) "name" = Ok name →
  (tierIndex c < length vs)%nat →
  ((tierIndex c + 1 < length vs)%nat → tier_name h vs (tierIndex c + 1) = Ok next) →
  tier_name h vs 0 = Ok first →
  constructConsumer h cl c
  = Ok {| queueName := tierQueueName c;
          queue := tier_queue dn next first uq (tierIndex c) (length vs)
                     (truthy (circular cl));
          consume := cns;
          consumer_exchanges := exchanges cl;
          binds := OwnBind dn name
                   :: (if bool_decide (tierIndex c = 0%nat)
                       then map GivenBind (concat_arg h b) else []) |}.
Proof.
  intros Hl Hq Huq Hb Hc Hvs Hdn Hname Hlt Hnext Hfirst.
  unfold constructConsumer, tier_queue.
  rewrite (get_field_of _ _ _ _ _ Hl Hq), bind_Ok_l.
  rewrite Huq, bind_Ok_l. rewrite Hvs, bind_Ok_l.
  pose proof (get_field_of _ _ _ _ _ Hl Hb) as Hgb.
  pose proof (get_field_of _ _ _ _ _ Hl Hc) as Hgc.
  destruct (decide (tierIndex c + 1 < length vs)%nat) as [Hin|Hlast].
  - rewrite (bool_decide_eq_true_2 (Z.of_nat (tierIndex c) ≠ _)) by lia.
    rewrite (bool_decide_eq_true_2 _ Hin). cbv iota.
    rewrite Hdn, bind_Ok_l, (Hnext Hin), !bind_Ok_l.
    rewrite (bool_decide_eq_false_2 (Z.of_nat (tierIndex c) = _)) by lia.
    rewrite andb_false_l. cbv iota.
    repeat (rewrite ?bind_Ok_l, ?Hdn, ?Hname, ?Hgb, ?Hgc; cbv beta). done.
  - rewrite (bool_decide_eq_false_2 (Z.of_nat (tierIndex c) ≠ _)) by lia.
    rewrite (bool_decide_eq_false_2 _ Hlast). cbv iota.
    rewrite bind_Ok_l.
    rewrite (bool_decide_eq_true_2 (Z.of_nat (tierIndex c) = _)) by lia.
    rewrite andb_true_l.
    destruct (truthy (circular cl)); cbv iota;
      repeat (rewrite ?bind_Ok_l, ?Hdn, ?Hfirst, ?Hname, ?Hgb, ?Hgc; cbv beta);
      done.
Qed.

Lemma tiers_elems_of h cl l vs :
  tiers cl = VRef l → h !! l = Some (Arr vs) → tiers_elems h cl = Ok vs.
Proof. intros Ht Hl. unfold tiers_elems. by rewrite Ht, Hl. Qed.

Lemma tier_name_of h vs j t :
  vs !! j = Some t → tier_name h vs j = get h t "name".
Proof. intros Hj. unfold tier_name. by rewrite Hj. Qed.

(** Everything [constructConsumer] needs is in place once the constructor
    has returned. *)
Lemma constructed_tiers h base lt vs optsV cl h1 :
  h !! lt = Some (Arr vs) →
  constructed ToString_other h base (VRef lt) optsV cl h1 →
  tiers_elems h1 cl = Ok vs
  ∧ length (consumerConstructors cl) = length vs
  ∧ (∀ i t, vs !! i = Some t →
       ∃ c name, consumerConstructors cl !! i = Some c ∧ tier c = t
                 ∧ tierIndex c = i ∧ get h1 t "name" = Ok name
                 ∧ tierQueueName c
                   = base +:+ "-" +:+ to_string ToString_other h1 name)
  ∧ (∀ i c, consumerConstructors cl !! i = Some c →
       vs !! i = Some (tier c) ∧ tierIndex c = i).
Proof.
  intros Hlt [Ht _ _ _ _ _].
  destruct Ht as [(lt0 & vs0 & lt' & [= <-] & Harr & Hcl & _ & Hlt' & Hmap)
                 |(lt0 & bs & [= <-] & Hbuf & _)];
    [|by pose proof (Hbuf _ Hlt)].
  pose proof (Harr _ Hlt) as [= <-].
  destruct (map_tiers_inv _ _ _ _ _ Hmap) as [Hlen Hall].
  split; [by eapply tiers_elems_of|]. split; [done|]. split.
  - intros i t Hi.
    destruct (lookup_lt_is_Some_2 (consumerConstructors cl) i) as [c Hc].
    { rewrite Hlen. by eapply lookup_lt_Some. }
    destruct (Hall _ _ Hc) as (Hvi & Hidx & name & Hname & Hqn).
    assert (tier c = t) as Htc by congruence.
    exists c, name. rewrite <- Htc. repeat split; try done.
  - intros i c Hc. destruct (Hall _ _ Hc) as (? & ? & _). done.
Qed.





(** *** Reads through the heap *)

Lemma get_agree (h1 h2 : heap) v k :
  (∀ l, v = VRef l → h2 !! l = h1 !! l) → get h2 v k = get h1 v k.
Proof. destruct v as [| | | | |l|]; simpl; try done. intros H. by rewrite (H l). Qed.

Lemma own_fields_agree (h1 h2 : heap) v :
  (∀ l, v = VRef l → h2 !! l = h1 !! l) → own_fields h2 v = own_fields h1 v.
Proof. destruct v as [| | | | |l|]; simpl; try done. intros H. by rewrite (H l). Qed.

Lemma concat_arg_agree (h1 h2 : heap) v :
  (∀ l, v = VRef l → h2 !! l = h1 !! l) → concat_arg h2 v = concat_arg h1 v.
Proof. destruct v as [| | | | |l|]; simpl; try done. intros H. by rewrite (H l). Qed.

Lemma apart_agree (h1 h2 : heap) cl lt lo v :
  apart h1 cl lt lo = true →
  (∀ l o, l ≠ lt → l ≠ lo → h1 !! l = Some o → h2 !! l = Some o) →
  v ∈ reads h1 cl → ∀ l, v = VRef l → h2 !! l = h1 !! l.
Proof.
  unfold apart. rewrite forallb_forall. intros Hap Hframe Hv l ->.
  apply list_elem_of_In, Hap in Hv. apply bool_decide_eq_true in Hv.
  destruct Hv as (H1 & H2 & [o Ho]). rewrite Ho. by apply Hframe.
Qed.

(** C10.  The constructor works on its own copy of the tiers array and of
    the options object.  Let [lt] be the caller's array and [lo] the
    caller's options object, and suppose the objects they lead to (the
    tiers, the queue options, the binds, the dead-letter exchange
    definition) are other objects of the heap.  Then, in any later heap
    that differs from the heap at construction at most in [lt], in [lo]
    and in newly created objects - elements added to, removed from or
    replaced in the array, keys of the options object reassigned - the
    number of tiers the closures see, the consumers they construct (queue
    name, queue options with the dead-letter routing, binds) and their
    reaction to a message are what they were at construction. *)
Theorem closures_unaffected_by_caller_mutation h base lt vs lo optsO cl h1 h2 :
  h !! lt = Some (Arr vs) →
  h !! lo = Some optsO →
  AMQPTieredListener ToString_other h base (VRef lt) (VRef lo) = Ok (cl, h1) →
  apart h1 cl lt lo = true →
  (∀ l o, l ≠ lt → l ≠ lo → h1 !! l = Some o → h2 !! l = Some o) →
  length (consumerConstructors cl) = length vs
  ∧ tiers_elems h2 cl = Ok vs
  ∧ ∀ c, c ∈ consumerConstructors cl →
      ∃ spec, constructConsumer h1 cl c = Ok spec
        ∧ constructConsumer h2 cl c = Ok spec
        ∧ queueName spec = tierQueueName c
        ∧ ∀ handled, onMessage h2 cl c handled = onMessage h1 cl c handled.
Proof.
  intros Hlt Hlo Hc%construct_inv Hap Hframe.
  destruct (constructed_tiers _ _ _ _ _ _ _ Hlt Hc) as (Hvs & Hlen & Htiers & Hcs).
  pose proof Hc as [Ht Hopt _ _ Hdlx _].
  destruct Ht as [(lt0 & vs0 & lt' & [= <-] & Harr & Hcl & Hfl & Hlt' & _)
                 |(lt0 & bs & [= <-] & Hbuf & _)];
    [|by pose proof (Hbuf _ Hlt)].
  pose proof (Harr _ Hlt) as [= <-].
  destruct Hopt as (fs & q & cns & x & b & r & Hfo & Hl & Hq & Htq & Hcns & _
                    & _ & Hb & Htb & _).
  assert (h2 !! lt' = Some (Arr vs)) as Hlt2.
  { apply Hframe; [congruence|congruence|done]. }
  assert (h2 !! options cl = Some (Obj fs)) as Hl2.
  { apply Hframe; [congruence|congruence|done]. }
  assert (tiers_elems h2 cl = Ok vs) as Hvs2 by by eapply tiers_elems_of.
  assert (∀ v, v ∈ reads h1 cl → ∀ l, v = VRef l → h2 !! l = h1 !! l) as Hag.
  { intros v Hv. by eapply apart_agree. }
  assert (q ∈ reads h1 cl) as Hqr.
  { unfold reads. rewrite Hl, Hq. simpl. apply list_elem_of_here. }
  assert (b ∈ reads h1 cl) as Hbr.
  { unfold reads. rewrite Hl, Hb. simpl. apply list_elem_of_further, list_elem_of_here. }
  assert (deadLetterExchange cl ∈ reads h1 cl) as Hdr.
  { unfold reads. rewrite Hl. simpl. do 2 apply list_elem_of_further.
    apply list_elem_of_here. }
  assert (∀ t, t ∈ vs → t ∈ reads h1 cl) as Htr.
  { intros t Ht. unfold reads. rewrite Hl, Hcl, Hlt'. simpl.
    by do 3 apply list_elem_of_further. }
  split; [done|]. split; [done|].
  intros c [i Hci]%list_elem_of_lookup.
  destruct (Hcs _ _ Hci) as [Hvi Hidx].
  destruct (Htiers _ _ Hvi) as (c' & name & Hci' & _ & _ & Hname & _).
  assert (i < length vs)%nat as Hilt by by eapply lookup_lt_Some.
  destruct (lookup_lt_is_Some_2 vs 0) as [t0 Ht0]; [lia|].
  destruct (Htiers _ _ Ht0) as (_ & first & _ & _ & _ & Hfirst & _).
  assert (∃ next, (tierIndex c + 1 < length vs)%nat →
            tier_name h1 vs (tierIndex c + 1) = Ok next
            ∧ tier_name h2 vs (tierIndex c + 1) = Ok next) as [next Hnext].
  { destruct (vs !! (i + 1)%nat) as [t'|] eqn:Ht'.
    - destruct (Htiers _ _ Ht') as (_ & next & _ & _ & _ & Hn & _).
      exists next. intros _. rewrite Hidx, !(tier_name_of _ _ _ _ Ht').
      split; [done|]. rewrite (get_agree h1 h2); [done|].
      apply Hag, Htr. by eapply list_elem_of_lookup_2.
    - exists VUndefined. intros Hin. apply lookup_ge_None in Ht'. lia. }
  destruct (get_truthy h1 _ "name" Hdlx) as [dn Hdn].
  destruct (own_fields_truthy h1 _ Htq) as [uq Huq].
  assert (tier c ∈ vs) as Htc by by eapply list_elem_of_lookup_2.
  assert (t0 ∈ vs) as Ht0' by by eapply list_elem_of_lookup_2.
  pose proof (constructConsumer_eval h1 cl c fs q uq b cns vs dn name next first
                Hl Hq Huq Hb Hcns Hvs Hdn Hname) as E1.
  pose proof (constructConsumer_eval h2 cl c fs q uq b cns vs dn name next first
                Hl2 Hq) as E2.
  eexists. split.
  { apply E1; [lia|intros Hin; by apply Hnext|by rewrite (tier_name_of _ _ _ _ Ht0)]. }
  rewrite E2; try done; try lia.
  - split; [by rewrite (concat_arg_agree h1 h2 b (Hag _ Hbr))|].
    split; [done|].
    intros [|]; [done|].
    unfold onMessage. rewrite Hvs, Hvs2, !bind_Ok_l.
    by rewrite (get_agree h1 h2 (tier c) "delay" (Hag _ (Htr _ Htc))).
  - by rewrite (own_fields_agree h1 h2 q (Hag _ Hqr)).
  - by rewrite (get_agree h1 h2 _ _ (Hag _ Hdr)).
  - by rewrite (get_agree h1 h2 _ _ (Hag _ (Htr _ Htc))).
  - intros Hin. by apply Hnext.
  - rewrite (tier_name_of _ _ _ _ Ht0).
    by rewrite (get_agree h1 h2 _ _ (Hag _ (Htr _ Ht0'))).
Qed.

End Properties.

(** *** The concrete listeners *)




(** After construction the caller shortens the tiers array to one tier
    and empties the options object: the closures still see three tiers. *)
Lemma closures_unaffected_by_caller_mutation_witness :
  ∃ cl h1,
    AMQPTieredListener ToString_plain example_heap "jobs" (VRef 1) (VRef 5)
    = Ok (cl, h1)
    ∧ tiers_elems (<[1%positive := Arr [VRef 2]]> (<[5%positive := Obj ∅]> h1)) cl
      = Ok [VRef 2; VRef 3; VRef 4].
Proof.
  eexists _, _. split; [vm_compute; reflexivity|].
  refine (proj1 (proj2 (closures_unaffected_by_caller_mutation ToString_plain
            example_heap "jobs" 1%positive [VRef 2; VRef 3; VRef 4] 5%positive
            (Obj {[ "queue" := VRef 6; "binds" := VRef 7 ]}) _ _ _
            eq_refl eq_refl _ _ _))).
  - vm_compute; reflexivity.
  - vm_compute; reflexivity.
  - intros l o H1 H5 Hl. rewrite !lookup_insert_ne by done. exact Hl.
Defined.

(** The copies are shallow: renaming the second tier object in place,
    which is not a change of the array, does change the dead-letter
    routing key of the first tier's queue. *)
Lemma tier_object_mutation_is_observed :
  ∃ cl h1 c spec,
    AMQPTieredListener ToString_plain example_heap "jobs" (VRef 1) (VRef 5)
    = Ok (cl, h1)
    ∧ consumerConstructors cl !! 0%nat = Some c
    ∧ constructConsumer
        (<[3%positive := Obj {[ "name" := VString "other" ]}]> h1) cl c = Ok spec
    ∧ queue spec !! "deadLetterRoutingKey" = Some (VString "other").
Proof.
  eexists _, _, _, _. split; [vm_compute; reflexivity|].
  split; [reflexivity|]. split; [vm_compute; reflexivity|].
  vm_compute. reflexivity.
Qed.

End AMQPTieredListener.


(** ** Facts about lists *)

Lemma app_snoc_inv {A} (l l1 l2 : list A) (x y : A) :
  l ++ [x] = l1 ++ y :: l2 →
  (l2 = [] ∧ l = l1 ∧ x = y) ∨ (∃ l2', l2 = l2' ++ [x] ∧ l = l1 ++ y :: l2').
Proof.
  destruct l2 as [|z l2 _] using rev_ind.
  - intros H. apply (app_inj_tail l l1 x y) in H as [-> ->]. by left.
  - intros H. right. exists l2.
    replace (l1 ++ y :: l2 ++ [z]) with ((l1 ++ y :: l2) ++ [z]) in H
      by (by rewrite <- app_assoc).
    apply app_inj_tail in H as [-> ->]. done.
Qed.

Lemma app_inv_not_in {A} (l rs l1 l2 : list A) (x : A) :
  x ∉ rs → l ++ rs = l1 ++ x :: l2 → ∃ l2', l = l1 ++ x :: l2'.
Proof.
  revert l2. induction rs as [|z rs IH] using rev_ind; intros l2 Hx H.
  - rewrite app_nil_r in H. by exists l2.
  - rewrite app_assoc in H. apply not_elem_of_app in Hx as [Hx Hz].
    apply app_snoc_inv in H as [(_ & _ & ->)|(l2' & -> & H)].
    + exfalso. apply Hz, list_elem_of_here.
    + by eapply IH.
Qed.


(** ** Connector: the life cycle of its connections (src/src/index.ts) *)

Module ConnectorLifecycle.

Import AMQPConnector.

Abbreviation Timer := nat.
Abbreviation Listener := nat.

Inductive emitted :=
| EmitConnect (c : Connection)
| EmitDisconnect (c : Connection).

(** The connector and what surrounds it: the closure [state.destroy] (given
    by the connection it captured), the URIs handed to [amqplib.connect] so
    far, the number of connection attempts not answered yet, the
    connections handed out that are still open, the connections whose
    [connectionDropped] flag is set, those whose [connectionDestroyed] flag
    is set (on which [close()] was called), the armed timers with their
    delay, the events emitted and the listeners called directly by the
    ['newListener'] hook. *)
Record world := {
  self : AMQPConnector.t;
  destroy : option Connection;
  attempts : list (option ServerURI);
  pending : nat;
  live : list Connection;
  dropped : list Connection;
  destroyed : list Connection;
  timers : list (Timer * Z);
  next_timer : Timer;
  events : list emitted;
  handed : list (Listener * Connection)
}.

(** The connector as the constructor leaves it. *)
Definition init (c : AMQPConnector.t) : world :=
  {| self := c; destroy := None; attempts := []; pending := 0%nat;
     live := []; dropped := []; destroyed := []; timers := [];
     next_timer := 0%nat; events := []; handed := [] |}.

Definition state (w : world) : AMQPConnectorState := _state (self w).

Definition set_started (b : bool) (s : AMQPConnectorState) : AMQPConnectorState :=
  {| started := b; connecting := connecting s; connection := connection s;
     lastUsedURI := lastUsedURI s; reconnectTimeout := reconnectTimeout s |}.

Definition set_connecting (b : bool) (s : AMQPConnectorState) : AMQPConnectorState :=
  {| started := started s; connecting := b; connection := connection s;
     lastUsedURI := lastUsedURI s; reconnectTimeout := reconnectTimeout s |}.

Definition set_connection (c : option Connection) (s : AMQPConnectorState)
  : AMQPConnectorState :=
  {| started := started s; connecting := connecting s; connection := c;
     lastUsedURI := lastUsedURI s; reconnectTimeout := reconnectTimeout s |}.

Definition set_reconnectTimeout (tm : option Timer) (s : AMQPConnectorState)
  : AMQPConnectorState :=
  {| started := started s; connecting := connecting s; connection := connection s;
     lastUsedURI := lastUsedURI s; reconnectTimeout := tm |}.

Definition with_self (w : world) (c : AMQPConnector.t) : world :=
  {| self := c; destroy := destroy w; attempts := attempts w; pending := pending w;
     live := live w; dropped := dropped w; destroyed := destroyed w;
     timers := timers w; next_timer := next_timer w; events := events w;
     handed := handed w |}.

Definition with_state (w : world) (s : AMQPConnectorState) : world :=
  with_self w {| _serverURIs := _serverURIs (self w); _options := _options (self w);
                 _state := s |}.

(** [state.reconnectTimeout = setTimeout(() => self._createConnection(), ms)]. *)
Definition setTimeout_reconnect (ms : Z) (w : world) : world :=
  let w1 := with_state w (set_reconnectTimeout (Some (next_timer w)) (state w)) in
  {| self := self w1; destroy := destroy w; attempts := attempts w;
     pending := pending w; live := live w; dropped := dropped w;
     destroyed := destroyed w;
     timers := timers w ++ [(next_timer w, ms)];
     next_timer := S (next_timer w); events := events w; handed := handed w |}.

Definition clearTimeout (tm : Timer) (w : world) : world :=
  {| self := self w; destroy := destroy w; attempts := attempts w;
     pending := pending w; live := live w; dropped := dropped w;
     destroyed := destroyed w;
     timers := filter (λ x, x.1 ≠ tm) (timers w);
     next_timer := next_timer w; events := events w; handed := handed w |}.

Definition emitAsync (e : emitted) (w : world) : world :=
  {| self := self w; destroy := destroy w; attempts := attempts w;
     pending := pending w; live := live w; dropped := dropped w;
     destroyed := destroyed w; timers := timers w; next_timer := next_timer w;
     events := events w ++ [e]; handed := handed w |}.

(** [_createConnection] up to its [await]: the synchronous segment of the
    class, with the call of [amqplib.connect] recorded. *)
Definition _createConnection (w : world) : world :=
  match AMQPConnector._createConnection (self w) with
  | (c, Some URI) =>
      {| self := c; destroy := destroy w; attempts := attempts w ++ [URI];
         pending := S (pending w); live := live w; dropped := dropped w;
         destroyed := destroyed w; timers := timers w;
         next_timer := next_timer w; events := events w; handed := handed w |}
  | (_, None) => w
  end.

(** [_createConnection] after the [await], when [amqplib.connect] answered
    with connection [c]. *)
Definition connectionEstablished (c : Connection) (w : world) : world :=
  let w1 := with_state w (set_connecting false (set_connection (Some c) (state w))) in
  emitAsync (EmitConnect c)
    {| self := self w1; destroy := Some c; attempts := attempts w;
       pending := pred (pending w); live := live w ++ [c]; dropped := dropped w;
       destroyed := destroyed w; timers := timers w; next_timer := next_timer w;
       events := events w; handed := handed w |}.

(** The [catch] branch of [_createConnection]. *)
Definition connectionFailed (w : world) : world :=
  let w1 := with_state w (set_connecting false (state w)) in
  setTimeout_reconnect 5000
    {| self := self w1; destroy := destroy w; attempts := attempts w;
       pending := pred (pending w); live := live w; dropped := dropped w;
       destroyed := destroyed w; timers := timers w; next_timer := next_timer w;
       events := events w; handed := handed w |}.

(** [handleConnectionEvent], the listener of ['error'] and ['close'] on
    connection [c]. *)
Definition handleConnectionEvent (c : Connection) (w : world) : world :=
  if bool_decide (c ∈ dropped w) then w
  else
    let w1 := with_state w (set_connection None (state w)) in
    let w2 :=
      emitAsync (EmitDisconnect c)
        {| self := self w1; destroy := destroy w; attempts := attempts w;
           pending := pending w;
           live := filter (λ c', c' ≠ c) (live w);
           dropped := c :: dropped w;
           destroyed := destroyed w; timers := timers w;
           next_timer := next_timer w; events := events w; handed := handed w |} in
    if negb (bool_decide (c ∈ destroyed w)) then setTimeout_reconnect 1000 w2 else w2.

(** [_destroyConnection]: [state.destroy] closes the connection it
    captured and sets its [connectionDestroyed] flag. *)
Definition _destroyConnection (w : world) : world :=
  let w1 :=
    match connection (state w) with
    | Some _ =>
        let w' := with_state w (set_connection None (state w)) in
        {| self := self w'; destroy := destroy w; attempts := attempts w;
           pending := pending w; live := live w; dropped := dropped w;
           destroyed := destroyed w ++ option_list (destroy w);
           timers := timers w; next_timer := next_timer w; events := events w;
           handed := handed w |}
    | None => w
    end in
  match reconnectTimeout (state w1) with
  | Some tm => clearTimeout tm w1
  | None => w1
  end.

Definition start (w : world) : world :=
  if negb (started (state w))
  then _createConnection (with_state w (set_started true (state w)))
  else w.

Definition stop (w : world) : world :=
  if started (state w)
  then _destroyConnection (with_state w (set_started false (state w)))
  else w.

(** The ['newListener'] hook installed by the constructor. *)
Definition newListener (event : string) (listener : Listener) (w : world) : world :=
  match connection (state w) with
  | Some c =>
      if String.eqb event "connect"
      then {| self := self w; destroy := destroy w; attempts := attempts w;
              pending := pending w; live := live w; dropped := dropped w;
              destroyed := destroyed w; timers := timers w;
              next_timer := next_timer w; events := events w;
              handed := handed w ++ [(listener, c)] |}
      else w
  | None => w
  end.

(** What can happen to a connector: calls of [start], [stop] and [on], and
    the callbacks the runtime delivers. *)
Inductive event :=
| Start
| Stop
| On (event : string) (listener : Listener)
| Connected (c : Connection)
| ConnectFailed
| ConnectionEvent (c : Connection)
| TimerFired (tm : Timer).

(** A callback is delivered only if its source exists: an answer needs an
    attempt that is still unanswered and brings a connection never seen
    before, a connection event needs a connection that was handed out, a
    timer must be armed. *)
Definition step (e : event) (w : world) : world :=
  match e with
  | Start => start w
  | Stop => stop w
  | On ev l => newListener ev l w
  | Connected c =>
      match pending w with
      | O => w
      | S _ => if bool_decide (c ∈ live w ++ dropped w) then w
               else connectionEstablished c w
      end
  | ConnectFailed =>
      match pending w with
      | O => w
      | S _ => connectionFailed w
      end
  | ConnectionEvent c =>
      if bool_decide (c ∈ live w ++ dropped w) then handleConnectionEvent c w else w
  | TimerFired tm =>
      if bool_decide (tm ∈ (timers w).*1)
      then _createConnection (clearTimeout tm w)
      else w
  end.

Definition run (es : list event) (w : world) : world :=
  foldl (λ w e, step e w) w es.

(** The selection of the legacy connector (src/unnamed/part_008):
    [indexOf] is called on whatever [lastUsedURI] holds; [null] and
    [undefined] are not in a list of strings. *)
Definition _selectServerURI_legacy (self : t) (lastUsedURI : option ServerURI)
  : option ServerURI :=
  let lastURIIndex :=
    match lastUsedURI with
    | Some u => indexOf (_serverURIs self) u
    | None => -1
    end in
  if lastURIIndex <? 0 then at_ (_serverURIs self) 0
  else if lastURIIndex <? Z.of_nat (length (_serverURIs self)) - 1
       then at_ (_serverURIs self) (lastURIIndex + 1)
       else at_ (_serverURIs self) 0.


(** *** Invariants *)

(** [state.connecting] tells whether an attempt awaits its answer. *)
Definition flag_counts_pending (w : world) : Prop :=
  pending w = if connecting (state w) then 1%nat else 0%nat.

(** What the flags of the closures, the fields of the state and the
    events emitted have to do with each other. *)
Record consistent (w : world) : Prop := {
  held_destroy : ∀ k, connection (state w) = Some k → destroy w = Some k;
  held_live : ∀ k, connection (state w) = Some k → k ∈ live w;
  live_not_dropped : ∀ k, k ∈ live w → k ∉ dropped w;
  destroyed_known : ∀ k, k ∈ destroyed w → k ∈ live w ∨ k ∈ dropped w;
  held_not_destroyed : ∀ k, connection (state w) = Some k → k ∉ destroyed w;
  connect_iff : ∀ k, EmitConnect k ∈ events w ↔ k ∈ live w ∨ k ∈ dropped w;
  disconnect_iff : ∀ k, EmitDisconnect k ∈ events w ↔ k ∈ dropped w;
  events_nodup : NoDup (events w);
  events_order : ∀ l1 l2 k, events w = l1 ++ EmitDisconnect k :: l2 →
                 EmitConnect k ∈ l1
}.

(** The attempts made so far went through the list in order, and
    [lastUsedURI] is the URI of the latest one. *)
Definition rotation (uris : list ServerURI) (w : world) : Prop :=
  _serverURIs (self w) = uris
  ∧ lastUsedURI (state w) = from_option id None (last (attempts w))
  ∧ ∀ k a, attempts w !! k = Some a → a = uris !! (k mod length uris)%nat.

(** *** Bookkeeping *)

Ltac destruct_world w :=
  destruct w as [[uris opts [st cg cn lu rt]] d ats p lv dr ds tms nt ev hd].

Lemma createConnection_pending (w : world) :
  flag_counts_pending w → flag_counts_pending (_createConnection w).
Proof.
  destruct_world w. unfold flag_counts_pending, _createConnection,
    AMQPConnector._createConnection. simpl.
  destruct st, cg; simpl; intros; subst; done.
Qed.

Lemma destroyConnection_pending (w : world) :
  flag_counts_pending w → flag_counts_pending (_destroyConnection w).
Proof.
  destruct_world w. unfold flag_counts_pending, _destroyConnection. simpl.
  destruct cn, rt; simpl; done.
Qed.

Lemma step_pending (e : event) (w : world) :
  flag_counts_pending w → flag_counts_pending (step e w).
Proof.
  intros Hw. destruct e as [| |ev l|c| |c|tm]; simpl.
  - unfold start. destruct (started (state w)) eqn:Hs; simpl; [done|].
    apply createConnection_pending. exact Hw.
  - unfold stop. destruct (started (state w)) eqn:Hs; simpl; [|done].
    apply destroyConnection_pending. exact Hw.
  - unfold newListener. destruct (connection (state w)); [|done].
    destruct (String.eqb ev "connect"); done.
  - destruct (pending w) as [|n] eqn:Hp; [done|]. case_bool_decide; [done|].
    revert Hw Hp. destruct_world w. unfold flag_counts_pending. simpl.
    destruct cg; intros; simplify_eq; done.
  - destruct (pending w) as [|n] eqn:Hp; [done|].
    revert Hw Hp. destruct_world w. unfold flag_counts_pending. simpl.
    destruct cg; intros; simplify_eq; done.
  - case_bool_decide; [|done]. unfold handleConnectionEvent.
    case_bool_decide; [done|]. revert Hw. destruct_world w.
    unfold flag_counts_pending. simpl. by case_bool_decide.
  - case_bool_decide; [|done]. apply createConnection_pending. exact Hw.
Qed.

Lemma run_pending (es : list event) (w : world) :
  flag_counts_pending w → flag_counts_pending (run es w).
Proof.
  revert w. induction es as [|e es IH]; intros w Hw; [done|].
  simpl. apply IH, step_pending, Hw.
Qed.

Lemma new_state serverURI options c :
  AMQPConnector.new serverURI options = Ok c →
  _state c = {| started := false; connecting := false; connection := None;
                lastUsedURI := None; reconnectTimeout := None |}
  ∧ _serverURIs c = match serverURI with
                    | ManyURIs uris => uris
                    | OneURI uri => [uri]
                    end.
Proof. intros [= <-]. done. Qed.


Lemma connector_consistent_same (w w' : world) :
  connection (state w') = connection (state w) → destroy w' = destroy w →
  live w' = live w → dropped w' = dropped w → destroyed w' = destroyed w →
  events w' = events w →
  consistent w → consistent w'.
Proof.
  intros H1 H2 H3 H4 H5 H6 [? ? ? ? ? ? ? ? ?].
  split; rewrite ?H1, ?H2, ?H3, ?H4, ?H5, ?H6; done.
Qed.

Lemma consistent_createConnection (w : world) :
  consistent w → consistent (_createConnection w).
Proof.
  apply connector_consistent_same; destruct_world w;
    unfold _createConnection, AMQPConnector._createConnection; simpl;
    destruct st, cg; done.
Qed.

Lemma consistent_setTimeout ms (w : world) :
  consistent w → consistent (setTimeout_reconnect ms w).
Proof. apply connector_consistent_same; done. Qed.

Lemma consistent_clearTimeout tm (w : world) :
  consistent w → consistent (clearTimeout tm w).
Proof. apply connector_consistent_same; done. Qed.

Lemma consistent_destroyConnection (w : world) :
  consistent w → consistent (_destroyConnection w).
Proof.
  intros Hw. unfold _destroyConnection.
  assert (consistent
            match connection (state w) with
            | Some _ =>
                let w' := with_state w (set_connection None (state w)) in
                {| self := self w'; destroy := destroy w; attempts := attempts w;
                   pending := pending w; live := live w; dropped := dropped w;
                   destroyed := destroyed w ++ option_list (destroy w);
                   timers := timers w; next_timer := next_timer w;
                   events := events w; handed := handed w |}
            | None => w
            end) as H1.
  { destruct (connection (state w)) as [k|] eqn:Hk; [|done].
    destruct Hw as [Hd Hl Hnd Hdk Hhd Hc Hdc Hn Ho].
    rewrite (Hd _ Hk). split; simpl; try done.
    intros k' [Hin|Hin%list_elem_of_singleton]%elem_of_app; [by apply Hdk|].
    subst. left. by apply Hl. }
  destruct (reconnectTimeout _); [by apply consistent_clearTimeout|done].
Qed.

Lemma consistent_established (c : Connection) (w : world) :
  c ∉ live w ++ dropped w → consistent w → consistent (connectionEstablished c w).
Proof.
  intros Hc [Hd Hl Hnd Hdk Hhd Hci Hdi Hn Ho].
  rewrite elem_of_app in Hc.
  split; simpl.
  - intros k [= <-]. done.
  - intros k [= <-]. rewrite elem_of_app, list_elem_of_singleton. by right.
  - intros k [Hin|Hin%list_elem_of_singleton]%elem_of_app; [by apply Hnd|].
    subst. tauto.
  - intros k Hin. rewrite elem_of_app. destruct (Hdk _ Hin); tauto.
  - intros k [= <-] Hin. destruct (Hdk _ Hin); tauto.
  - intros k. rewrite !elem_of_app, !list_elem_of_singleton, Hci.
    split; [intros [[|]|[= ->]]|intros [[|]|]]; subst; tauto.
  - intros k. rewrite elem_of_app, list_elem_of_singleton, Hdi.
    split; [intros [|]|]; [done|done|tauto].
  - apply NoDup_app. split; [done|]. split; [|apply NoDup_singleton].
    intros e He ->%list_elem_of_singleton. apply Hci in He. tauto.
  - intros l1 l2 k [(_ & _ & [=])|(l2' & -> & H)]%app_snoc_inv. by eapply Ho.
Qed.

Lemma connector_consistent_dropped (c : Connection) (w : world) :
  c ∈ live w ++ dropped w → consistent w → consistent (handleConnectionEvent c w).
Proof.
  intros Hc Hw. unfold handleConnectionEvent. case_bool_decide as Hdr; [done|].
  assert (c ∈ live w) as Hlive.
  { apply elem_of_app in Hc as [|]; done. }
  match goal with |- consistent (if _ then setTimeout_reconnect _ ?x else _) =>
    assert (consistent x) as H1 end.
  { destruct Hw as [Hd Hl Hnd Hdk Hhd Hci Hdi Hn Ho]. split; simpl.
    - done.
    - done.
    - intros k [Hk1 Hk2]%list_elem_of_filter.
      rewrite not_elem_of_cons. split; [done|by apply Hnd].
    - intros k Hin. rewrite list_elem_of_filter, elem_of_cons.
      destruct (decide (k = c)) as [->|Hne]; [tauto|].
      destruct (Hdk _ Hin); tauto.
    - done.
    - intros k. rewrite elem_of_app, list_elem_of_singleton, Hci,
        list_elem_of_filter, elem_of_cons.
      destruct (decide (k = c)) as [->|Hne]; [tauto|].
      split; [intros [[|]|[=]]|intros [[_ ?]|[|]]]; tauto.
    - intros k. rewrite elem_of_app, list_elem_of_singleton, Hdi, elem_of_cons.
      split; [intros [|[= ->]]|intros [->|]]; tauto.
    - apply NoDup_app. split; [done|]. split; [|apply NoDup_singleton].
      intros e He ->%list_elem_of_singleton. apply Hdi in He. done.
    - intros l1 l2 k [(_ & <- & [= <-])|(l2' & -> & H)]%app_snoc_inv.
      + apply Hci. by left.
      + by eapply Ho. }
  destruct (negb _); [by apply consistent_setTimeout|done].
Qed.

Lemma connector_consistent_step (e : event) (w : world) : consistent w → consistent (step e w).
Proof.
  intros Hw. destruct e as [| |ev l|c| |c|tm]; simpl.
  - unfold start. destruct (negb _); [|done].
    apply consistent_createConnection. revert Hw. by apply connector_consistent_same.
  - unfold stop. destruct (started _); [|done].
    apply consistent_destroyConnection. revert Hw. by apply connector_consistent_same.
  - unfold newListener. destruct (connection _); [|done].
    destruct (String.eqb _ _); [|done]. revert Hw. by apply connector_consistent_same.
  - destruct (pending w); [done|]. case_bool_decide; [done|].
    by apply consistent_established.
  - destruct (pending w); [done|]. unfold connectionFailed.
    apply consistent_setTimeout. revert Hw. by apply connector_consistent_same.
  - case_bool_decide; [|done]. by apply connector_consistent_dropped.
  - case_bool_decide; [|done].
    by apply consistent_createConnection, consistent_clearTimeout.
Qed.

Lemma connector_consistent_run (es : list event) (w : world) :
  consistent w → consistent (run es w).
Proof.
  revert w. induction es as [|e es IH]; intros w Hw; [done|].
  simpl. apply IH, connector_consistent_step, Hw.
Qed.

Lemma consistent_init serverURI options c :
  AMQPConnector.new serverURI options = Ok c → consistent (init c).
Proof.
  intros [= <-]. split; simpl; try done.
  - intros k []%elem_of_nil.
  - intros k []%elem_of_nil.
  - intros k. rewrite !elem_of_nil. tauto.
  - intros k. rewrite !elem_of_nil. tauto.
  - by apply NoDup_nil.
  - intros [|? ?] ? ? [=].
Qed.


(** *** The order of the connection attempts *)

Lemma indexOf_NoDup (l : list string) (j : nat) (u : string) :
  NoDup l → l !! j = Some u → indexOf l u = Z.of_nat j.
Proof.
  intros Hnd Hj. destruct (indexOf_bounds l u) as [Hm|Hb].
  - apply indexOf_not_elem in Hm. exfalso. apply Hm.
    by eapply list_elem_of_lookup_2.
  - assert (0 ≤ indexOf l u) as Hge by lia.
    pose proof (NoDup_lookup _ _ _ _ Hnd (indexOf_lookup l u Hge) Hj). lia.
Qed.

Lemma mod_succ (m n : nat) :
  (0 < n)%nat →
  (S m mod n = if decide (m mod n + 1 < n) then m mod n + 1 else 0)%nat.
Proof.
  intros Hn.
  pose proof (Nat.mod_upper_bound m n ltac:(lia)) as Hb.
  pose proof (Nat.div_mod_eq m n) as Hm.
  case_decide as Hlt.
  - symmetry. apply (Nat.mod_unique _ _ (m / n)); lia.
  - symmetry. apply (Nat.mod_unique _ _ (S (m / n))); lia.
Qed.

Lemma select_after (c : t) (m : nat) (u : ServerURI) :
  NoDup (_serverURIs c) → u ≠ "" →
  _serverURIs c !! (m mod length (_serverURIs c))%nat = Some u →
  _selectServerURI c (Some u)
  = _serverURIs c !! (S m mod length (_serverURIs c))%nat.
Proof.
  intros Hnd Hne Hm. pose proof (lookup_lt_Some _ _ _ Hm) as Hlt.
  unfold _selectServerURI.
  assert (string_truthy u = true) as ->.
  { unfold string_truthy. by destruct (String.eqb_spec u ""). }
  rewrite (indexOf_NoDup _ _ _ Hnd Hm).
  rewrite mod_succ by lia.
  destruct (Z.ltb_spec (Z.of_nat (m mod length (_serverURIs c))) 0); [lia|].
  destruct (Z.ltb_spec (Z.of_nat (m mod length (_serverURIs c)))
              (Z.of_nat (length (_serverURIs c)) - 1)) as [H1|H1].
  - rewrite decide_True by lia. unfold at_.
    destruct (Z.ltb_spec (Z.of_nat (m mod length (_serverURIs c)) + 1) 0); [lia|].
    f_equal. lia.
  - rewrite decide_False by lia. done.
Qed.

Lemma rotation_same uris (w w' : world) :
  _serverURIs (self w') = _serverURIs (self w) →
  lastUsedURI (state w') = lastUsedURI (state w) →
  attempts w' = attempts w →
  rotation uris w → rotation uris w'.
Proof. unfold rotation. intros -> -> ->. done. Qed.

Lemma rotation_createConnection uris (w : world) :
  NoDup uris → (∀ u, u ∈ uris → u ≠ "") → uris ≠ [] →
  rotation uris w → rotation uris (_createConnection w).
Proof.
  intros Hnd Hne Hnil (Hu & Hlast & Hall).
  unfold _createConnection, AMQPConnector._createConnection.
  destruct (negb _ || _); [done|].
  unfold rotation. simpl. split; [done|].
  rewrite last_snoc. simpl. split; [done|].
  intros k a Hk.
  destruct (decide (k < length (attempts w))%nat) as [Hlt|Hge].
  { rewrite lookup_app_l in Hk by done. by apply Hall. }
  assert (k = length (attempts w)) as ->.
  { apply lookup_lt_Some in Hk. rewrite length_app in Hk. simpl in Hk. lia. }
  rewrite lookup_app_r, Nat.sub_diag in Hk by lia. injection Hk as <-.
  fold (state w). rewrite Hlast.
  assert (0 < length uris)%nat as Hpos by (destruct uris; simpl; [done|lia]).
  destruct (attempts w) as [|a0 ats _] using rev_ind.
  - simpl. unfold _selectServerURI. simpl. rewrite Hu.
    rewrite Nat.Div0.mod_0_l. done.
  - rewrite last_snoc. simpl.
    rewrite length_app. simpl. rewrite Nat.add_1_r.
    pose proof (Hall (length ats) a0) as Ha0.
    rewrite lookup_app_r, Nat.sub_diag in Ha0 by lia.
    specialize (Ha0 eq_refl).
    destruct (lookup_lt_is_Some_2 uris (length ats mod length uris)) as [u Hu'].
    { apply Nat.mod_upper_bound. lia. }
    rewrite Ha0, Hu'. rewrite <- Hu in Hu' |- *.
    apply select_after; [by rewrite Hu| |done].
    apply Hne. rewrite <- Hu. by eapply list_elem_of_lookup_2.
Qed.

Lemma rotation_step uris (e : event) (w : world) :
  NoDup uris → (∀ u, u ∈ uris → u ≠ "") → uris ≠ [] →
  rotation uris w → rotation uris (step e w).
Proof.
  intros Hnd Hne Hnil Hw. destruct e as [| |ev l|c| |c|tm]; simpl.
  - unfold start. destruct (negb _); [|done].
    apply rotation_createConnection; [done|done|done|].
    revert Hw. by apply rotation_same.
  - unfold stop. destruct (started _); [|done]. revert Hw.
    apply rotation_same; unfold _destroyConnection; simpl;
      destruct (connection (state w)); simpl;
      destruct (reconnectTimeout (state w)); done.
  - unfold newListener. destruct (connection _); [|done].
    by destruct (String.eqb _ _).
  - destruct (pending w); [done|]. case_bool_decide; [done|].
    revert Hw. by apply rotation_same.
  - destruct (pending w); [done|]. revert Hw. by apply rotation_same.
  - case_bool_decide; [|done]. unfold handleConnectionEvent.
    case_bool_decide; [done|]. revert Hw.
    apply rotation_same; by destruct (negb _).
  - case_bool_decide; [|done].
    apply rotation_createConnection; [done|done|done|].
    revert Hw. by apply rotation_same.
Qed.

Lemma rotation_run uris (es : list event) (w : world) :
  NoDup uris → (∀ u, u ∈ uris → u ≠ "") → uris ≠ [] →
  rotation uris w → rotation uris (run es w).
Proof.
  intros Hnd Hne Hnil. revert w.
  induction es as [|e es IH]; intros w Hw; [done|].
  simpl. by apply IH, rotation_step.
Qed.


Lemma rotation_init uris options c :
  AMQPConnector.new (ManyURIs uris) options = Ok c → rotation uris (init c).
Proof. intros [= <-]. split; [done|]. split; [done|]. intros k a [=]. Qed.

(** X1. In every run of a connector built on a non-empty list of distinct
    URIs, none of them the empty string, the connection attempts go
    through the list in order and start
    over after the last entry: attempt number [k], counted from 0 over
    the whole life of the connector, is made at the URI of index
    [k mod n], whatever failures, drops and calls of [stop] and [start]
    lie in between. *)
Theorem connect_attempts_rotate (uris : list ServerURI)
    (options : option AMQPConnectorOptions) (c : t) (es : list event) :
  AMQPConnector.new (ManyURIs uris) options = Ok c →
  uris ≠ [] → NoDup uris → (∀ u, u ∈ uris → u ≠ "") →
  ∀ k a, attempts (run es (init c)) !! k = Some a →
         a = uris !! (k mod length uris)%nat.
Proof.
  intros Hc Hnil Hnd Hne.
  destruct (rotation_run uris es (init c) Hnd Hne Hnil) as (_ & _ & H); [|done].
  by eapply rotation_init.
Qed.

(** Two brokers, two failed attempts: the third attempt is made at the
    first broker again. *)
Lemma connect_attempts_rotate_witness :
  ∃ c, AMQPConnector.new (ManyURIs ["amqp://a"; "amqp://b"]) None = Ok c
    ∧ attempts (run [Start; ConnectFailed; TimerFired 0; ConnectFailed; TimerFired 1]
                  (init c))
      = [Some "amqp://a"; Some "amqp://b"; Some "amqp://a"]
    ∧ Some "amqp://a" = ["amqp://a"; "amqp://b"] !! (2 mod 2)%nat.
Proof.
  eexists. split; [reflexivity|]. split; [reflexivity|].
  eapply (connect_attempts_rotate ["amqp://a"; "amqp://b"] None _
            [Start; ConnectFailed; TimerFired 0; ConnectFailed; TimerFired 1]
            eq_refl).
  - done.
  - apply NoDup_cons. split.
    + rewrite list_elem_of_singleton. done.
    + apply NoDup_singleton.
  - intros u Hu ->. rewrite !elem_of_cons, elem_of_nil in Hu.
    by destruct Hu as [|[|]].
  - reflexivity.
Defined.

(** *** One attempt at a time *)

(** X2. In every run, at most one call of [amqplib.connect] is awaiting its
    answer, and one is exactly while [state.connecting] is set. *)
Theorem at_most_one_attempt_pending (serverURI : serverURI_arg)
    (options : option AMQPConnectorOptions) (c : t) (es : list event) :
  AMQPConnector.new serverURI options = Ok c →
  (pending (run es (init c)) ≤ 1)%nat
  ∧ (pending (run es (init c)) = 1%nat
     ↔ connecting (state (run es (init c))) = true).
Proof.
  intros [= <-].
  match goal with |- context [run es ?w] =>
    assert (flag_counts_pending (run es w)) as H by (by apply run_pending) end.
  unfold flag_counts_pending in H. rewrite H.
  destruct (connecting _); split; try lia; done.
Qed.

Lemma at_most_one_attempt_pending_witness :
  ∃ c, AMQPConnector.new (OneURI "amqp://a") None = Ok c
    ∧ pending (run [Start; Stop; Start; ConnectFailed; TimerFired 0] (init c)) = 1%nat
    ∧ (pending (run [Start; Stop; Start] (init c)) ≤ 1)%nat.
Proof.
  eexists. split; [reflexivity|]. split; [reflexivity|].
  apply (at_most_one_attempt_pending (OneURI "amqp://a") None _ [Start; Stop; Start]
           eq_refl).
Defined.

(** *** Stopping *)

Lemma connector_idle_step (e : event) (w : world) :
  e ≠ Start → started (state w) = false →
  started (state (step e w)) = false ∧ attempts (step e w) = attempts w.
Proof.
  intros He Hs. destruct e as [| |ev l|c| |c|tm]; simpl.
  - done.
  - unfold stop. by rewrite Hs.
  - unfold newListener. destruct (connection _); [|done].
    by destruct (String.eqb _ _).
  - destruct (pending w); [done|]. by case_bool_decide.
  - by destruct (pending w).
  - case_bool_decide; [|done]. unfold handleConnectionEvent.
    case_bool_decide; [done|]. by destruct (negb _).
  - case_bool_decide; [|done].
    unfold _createConnection, AMQPConnector._createConnection. simpl.
    fold (state w). by rewrite Hs.
Qed.

Lemma connector_idle_run (es : list event) (w : world) :
  Start ∉ es → started (state w) = false →
  started (state (run es w)) = false ∧ attempts (run es w) = attempts w.
Proof.
  revert w. induction es as [|e es IH]; intros w Hes Hs; [done|].
  apply not_elem_of_cons in Hes as [He Hes]. simpl.
  destruct (connector_idle_step e w) as [H1 H2]; [done|done|].
  destruct (IH (step e w) Hes H1) as [H3 H4]. by rewrite H4.
Qed.

Lemma connector_stop_stops (w : world) :
  started (state (stop w)) = false ∧ attempts (stop w) = attempts w.
Proof.
  unfold stop. destruct (started (state w)) eqn:Hs; [|done].
  unfold _destroyConnection. simpl.
  destruct (connection (state w)); simpl;
    destruct (reconnectTimeout (state w)); done.
Qed.

(** X3. After [stop()], whatever happens - a late answer to the attempt that
    was under way, failures, connection events, timers that are still
    armed - no connection attempt is made as long as [start()] is not
    called. *)
Theorem stopped_connector_never_connects (w : world) (es : list event) :
  Start ∉ es →
  attempts (run es (stop w)) = attempts w
  ∧ started (state (run es (stop w))) = false.
Proof.
  intros Hes. destruct (connector_stop_stops w) as [H1 H2].
  destruct (connector_idle_run es (stop w) Hes H1) as [H3 H4]. by rewrite H4.
Qed.

(** A connector stopped while its attempt failed: the retry timer armed
    by the failure fires and finds the connector stopped. *)
Lemma stopped_connector_never_connects_witness :
  ∃ c, AMQPConnector.new (OneURI "amqp://a") None = Ok c
    ∧ timers (run [ConnectFailed] (stop (run [Start] (init c)))) = [(0%nat, 5000)]
    ∧ attempts (run [ConnectFailed; TimerFired 0] (stop (run [Start] (init c))))
      = attempts (run [Start] (init c)).
Proof.
  eexists. split; [reflexivity|]. split; [reflexivity|].
  apply (stopped_connector_never_connects _ [ConnectFailed; TimerFired 0]).
  rewrite !not_elem_of_cons. split; [done|]. split; [done|]. apply not_elem_of_nil.
Defined.


(** X4. [stop()] on a started connector that holds connection [k]: the
    connection is closed and forgotten and the remembered timer is
    disarmed; when the ['close'] event of [k] then arrives, ['disconnect']
    is emitted for it and, [k] having been closed on purpose, no timer is
    armed and no attempt is made. *)
Theorem stop_closes_held_connection (serverURI : serverURI_arg)
    (options : option AMQPConnectorOptions) (c : t) (es : list event)
    (k : Connection) :
  AMQPConnector.new serverURI options = Ok c →
  started (state (run es (init c))) = true →
  connection (state (run es (init c))) = Some k →
  let w := run es (init c) in
  let w1 := step Stop w in
  let w2 := step (ConnectionEvent k) w1 in
  connection (state w1) = None
  ∧ destroyed w1 = destroyed w ++ [k]
  ∧ (∀ tm, reconnectTimeout (state w) = Some tm → tm ∉ (timers w1).*1)
  ∧ events w1 = events w
  ∧ events w2 = events w ++ [EmitDisconnect k]
  ∧ timers w2 = timers w1
  ∧ attempts w2 = attempts w.
Proof.
  intros Hc. set (w := run es (init c)). intros Hs Hk w0 w1 w2. subst w0.
  assert (consistent w) as [Hd Hl Hnd Hdk Hhd Hci Hdi Hn Ho].
  { apply connector_consistent_run. by eapply consistent_init. }
  pose proof (Hd _ Hk) as Hdes. pose proof (Hl _ Hk) as Hlive.
  pose proof (Hnd _ Hlive) as Hndr.
  assert (w1 = _destroyConnection (with_state w (set_started false (state w))))
    as Hw1.
  { unfold w1. change (step Stop w) with (stop w). unfold stop. by rewrite Hs. }
  assert (connection (state w1) = None ∧ destroyed w1 = destroyed w ++ [k]
          ∧ events w1 = events w ∧ attempts w1 = attempts w
          ∧ live w1 = live w ∧ dropped w1 = dropped w
          ∧ timers w1 = match reconnectTimeout (state w) with
                        | Some tm => filter (λ x, x.1 ≠ tm) (timers w)
                        | None => timers w
                        end) as (H1 & H2 & H3 & H4 & H5 & H6 & H7).
  { rewrite Hw1. unfold _destroyConnection. simpl. fold (state w).
    rewrite Hk. simpl. rewrite Hdes. simpl.
    destruct (reconnectTimeout (state w)); done. }
  split; [done|]. split; [done|]. split.
  { intros tm Htm. rewrite H7, Htm.
    intros [[tm' ms] [Heq [Hne _]%list_elem_of_filter]]%list_elem_of_fmap.
    simpl in *. congruence. }
  split; [done|].
  assert (w2 = handleConnectionEvent k w1) as Hw2.
  { unfold w2.
    change (step (ConnectionEvent k) w1)
      with (if bool_decide (k ∈ live w1 ++ dropped w1)
            then handleConnectionEvent k w1 else w1).
    rewrite bool_decide_eq_true_2; [done|].
    rewrite H5, elem_of_app. by left. }
  rewrite Hw2. unfold handleConnectionEvent.
  rewrite bool_decide_eq_false_2 by (by rewrite H6).
  rewrite (bool_decide_eq_true_2 (k ∈ destroyed w1)).
  2:{ rewrite H2, elem_of_app, list_elem_of_singleton. by right. }
  simpl. by rewrite H3, H4.
Qed.

Lemma stop_closes_held_connection_witness :
  ∃ c, AMQPConnector.new (OneURI "amqp://a") None = Ok c
    ∧ events (run [Start; Connected 7; Stop; ConnectionEvent 7] (init c))
      = [EmitConnect 7; EmitDisconnect 7]
    ∧ timers (run [Start; Connected 7; Stop; ConnectionEvent 7] (init c)) = [].
Proof.
  eexists. split; [reflexivity|].
  pose proof (stop_closes_held_connection (OneURI "amqp://a") None _
                [Start; Connected 7] 7%nat eq_refl eq_refl eq_refl)
    as (_ & _ & _ & _ & H5 & H6 & _).
  split; [exact H5|exact H6].
Defined.

(** *** Reconnecting *)

(** X5. A started connector that holds connection [k] and is not connecting
    loses [k]: ['disconnect'] is emitted for [k], the connection is
    forgotten and a timer of 1000 ms is armed; when that timer fires, an
    attempt is made at the URI that follows the last used one. *)
Theorem dropped_connection_is_replaced (serverURI : serverURI_arg)
    (options : option AMQPConnectorOptions) (c : t) (es : list event)
    (k : Connection) :
  AMQPConnector.new serverURI options = Ok c →
  started (state (run es (init c))) = true →
  connecting (state (run es (init c))) = false →
  connection (state (run es (init c))) = Some k →
  let w := run es (init c) in
  let w1 := step (ConnectionEvent k) w in
  let w2 := step (TimerFired (next_timer w)) w1 in
  events w1 = events w ++ [EmitDisconnect k]
  ∧ connection (state w1) = None
  ∧ timers w1 = timers w ++ [(next_timer w, 1000)]
  ∧ attempts w1 = attempts w
  ∧ attempts w2
    = attempts w ++ [_selectServerURI (self w) (lastUsedURI (state w))]
  ∧ pending w2 = S (pending w).
Proof.
  intros Hc. set (w := run es (init c)). intros Hs Hcg Hk w0 w1 w2. subst w0.
  assert (consistent w) as [Hd Hl Hnd Hdk Hhd Hci Hdi Hn Ho].
  { apply connector_consistent_run. by eapply consistent_init. }
  pose proof (Hl _ Hk) as Hlive. pose proof (Hnd _ Hlive) as Hndr.
  pose proof (Hhd _ Hk) as Hndes.
  assert (w1 = handleConnectionEvent k w) as Hw1.
  { unfold w1.
    change (step (ConnectionEvent k) w)
      with (if bool_decide (k ∈ live w ++ dropped w)
            then handleConnectionEvent k w else w).
    rewrite bool_decide_eq_true_2; [done|].
    rewrite elem_of_app. by left. }
  unfold handleConnectionEvent in Hw1.
  rewrite (bool_decide_eq_false_2 _ Hndr) in Hw1.
  rewrite (bool_decide_eq_false_2 _ Hndes) in Hw1. simpl in Hw1.
  assert (w2 = _createConnection (clearTimeout (next_timer w) w1)) as Hw2.
  { unfold w2.
    change (step (TimerFired (next_timer w)) w1)
      with (if bool_decide (next_timer w ∈ (timers w1).*1)
            then _createConnection (clearTimeout (next_timer w) w1) else w1).
    rewrite bool_decide_eq_true_2; [done|].
    rewrite Hw1. simpl. rewrite fmap_app, elem_of_app. right. simpl.
    apply list_elem_of_here. }
  rewrite Hw2, Hw1.
  unfold _createConnection, AMQPConnector._createConnection. simpl.
  fold (state w). rewrite Hs, Hcg. simpl. done.
Qed.

Lemma dropped_connection_is_replaced_witness :
  ∃ c, AMQPConnector.new (ManyURIs ["amqp://a"; "amqp://b"]) None = Ok c
    ∧ attempts (run [Start; Connected 7; ConnectionEvent 7; TimerFired 0] (init c))
      = [Some "amqp://a"; Some "amqp://b"].
Proof.
  eexists. split; [reflexivity|].
  pose proof (dropped_connection_is_replaced (ManyURIs ["amqp://a"; "amqp://b"]) None _
                [Start; Connected 7] 7%nat eq_refl eq_refl eq_refl eq_refl)
    as (_ & _ & _ & _ & H5 & _).
  exact H5.
Defined.

(** *** The events *)

(** X6. In every run each event is emitted at most once - ['connect'] once
    per connection, ['disconnect'] once per connection however many
    ['error'] and ['close'] events the connection raises - and the
    ['disconnect'] of a connection comes after its ['connect']. *)
Theorem disconnect_once_after_connect (serverURI : serverURI_arg)
    (options : option AMQPConnectorOptions) (c : t) (es : list event) :
  AMQPConnector.new serverURI options = Ok c →
  NoDup (events (run es (init c)))
  ∧ ∀ l1 l2 k, events (run es (init c)) = l1 ++ EmitDisconnect k :: l2 →
      EmitConnect k ∈ l1.
Proof.
  intros Hc.
  assert (consistent (run es (init c))) as [_ _ _ _ _ _ _ Hn Ho].
  { apply connector_consistent_run. by eapply consistent_init. }
  done.
Qed.

(** A connection that raises ['error'] and then ['close']. *)
Lemma disconnect_once_after_connect_witness :
  ∃ c, AMQPConnector.new (OneURI "amqp://a") None = Ok c
    ∧ events (run [Start; Connected 7; ConnectionEvent 7; ConnectionEvent 7] (init c))
      = [EmitConnect 7; EmitDisconnect 7]
    ∧ NoDup (events (run [Start; Connected 7; ConnectionEvent 7; ConnectionEvent 7]
                       (init c))).
Proof.
  eexists. split; [reflexivity|]. split; [reflexivity|].
  apply (disconnect_once_after_connect (OneURI "amqp://a") None _
           [Start; Connected 7; ConnectionEvent 7; ConnectionEvent 7] eq_refl).
Defined.

(** X7. A listener registered for ['connect'] while a connection is held is
    called at once with that connection, which has been announced with
    ['connect'] and not with ['disconnect']; without a held connection,
    and for any other event name, nothing is called. *)
Theorem late_listener_gets_held_connection (serverURI : serverURI_arg)
    (options : option AMQPConnectorOptions) (c : t) (es : list event)
    (l : Listener) :
  AMQPConnector.new serverURI options = Ok c →
  (∀ k, connection (state (run es (init c))) = Some k →
     handed (step (On "connect" l) (run es (init c)))
     = handed (run es (init c)) ++ [(l, k)]
     ∧ EmitConnect k ∈ events (run es (init c))
     ∧ EmitDisconnect k ∉ events (run es (init c)))
  ∧ (connection (state (run es (init c))) = None →
     step (On "connect" l) (run es (init c)) = run es (init c))
  ∧ (∀ ev, ev ≠ "connect" →
     step (On ev l) (run es (init c)) = run es (init c)).
Proof.
  intros Hc.
  assert (consistent (run es (init c))) as [Hd Hl Hnd Hdk Hhd Hci Hdi Hn Ho].
  { apply connector_consistent_run. by eapply consistent_init. }
  split; [|split].
  - intros k Hk. change (step (On "connect" l) ?w) with (newListener "connect" l w).
    unfold newListener. rewrite Hk. simpl.
    split; [done|]. pose proof (Hl _ Hk) as Hlive. split.
    + apply Hci. by left.
    + rewrite Hdi. by apply Hnd.
  - intros Hk. change (step (On "connect" l) ?w) with (newListener "connect" l w).
    unfold newListener. by rewrite Hk.
  - intros ev Hev. change (step (On ev l) ?w) with (newListener ev l w).
    unfold newListener. destruct (connection _); [|done].
    by destruct (String.eqb_spec ev "connect").
Qed.

Lemma late_listener_gets_held_connection_witness :
  ∃ c, AMQPConnector.new (OneURI "amqp://a") None = Ok c
    ∧ handed (run [Start; Connected 7; On "connect" 1] (init c)) = [(1%nat, 7%nat)]
    ∧ run [Start; On "connect" 1] (init c) = run [Start] (init c).
Proof.
  eexists. split; [reflexivity|].
  pose proof (late_listener_gets_held_connection (OneURI "amqp://a") None _
                [Start; Connected 7] 1%nat eq_refl) as (H1 & _).
  pose proof (late_listener_gets_held_connection (OneURI "amqp://a") None _
                [Start] 1%nat eq_refl) as (_ & H2 & _).
  split.
  - exact (proj1 (H1 7%nat eq_refl)).
  - exact (H2 eq_refl).
Defined.

(** *** The legacy selection *)

(** X8. The TypeScript connector selects the same URI as the legacy one,
    except when the last used URI is the empty string and the list
    contains it. *)
Theorem select_agrees_with_legacy (c : t) (last : option ServerURI) :
  last ≠ Some "" ∨ "" ∉ _serverURIs c →
  _selectServerURI c last = _selectServerURI_legacy c last.
Proof.
  intros H. unfold _selectServerURI, _selectServerURI_legacy.
  destruct last as [u|]; [|done].
  unfold string_truthy. destruct (String.eqb_spec u "") as [->|Hne]; [|done].
  destruct H as [H|H]; [done|]. simpl.
  apply indexOf_not_elem in H. by rewrite H.
Qed.

Lemma select_agrees_with_legacy_witness :
  ∃ c, AMQPConnector.new (ManyURIs ["amqp://a"; "amqp://b"]) None = Ok c
    ∧ _selectServerURI_legacy c (Some "amqp://a") = Some "amqp://b"
    ∧ _selectServerURI c (Some "amqp://a") = _selectServerURI_legacy c (Some "amqp://a").
Proof.
  eexists. split; [reflexivity|]. split; [reflexivity|].
  apply select_agrees_with_legacy. left. done.
Defined.

End ConnectorLifecycle.


(** ** ChannelManager: the life cycle of its channels
    (src/src/AMQPChannelManager.ts) *)

Module ChannelManagerLifecycle.

Import AMQPChannelManager.

(** What the fields of the manager, the flags of the closures and the
    events emitted have to do with each other. *)
Record consistent (w : world) : Prop := {
  held_destroy : ∀ k, _channel (mgr w) = Some k → _destroy (mgr w) = Some k;
  held_live : ∀ k, _channel (mgr w) = Some k → k ∈ live w;
  live_not_dropped : ∀ k, k ∈ live w → k ∉ dropped w;
  create_iff : ∀ k, EmitCreate k ∈ events w ↔ k ∈ live w ∨ k ∈ dropped w;
  close_iff : ∀ k, EmitClose k ∈ events w ↔ k ∈ dropped w;
  events_nodup : NoDup (events w);
  events_order : ∀ l1 l2 k, events w = l1 ++ EmitClose k :: l2 → EmitCreate k ∈ l1
}.

Lemma manager_consistent_same (w w' : world) :
  _channel (mgr w') = _channel (mgr w) → _destroy (mgr w') = _destroy (mgr w) →
  live w' = live w → dropped w' = dropped w → events w' = events w →
  consistent w → consistent w'.
Proof.
  intros H1 H2 H3 H4 H5 [? ? ? ? ? ? ?].
  split; rewrite ?H1, ?H2, ?H3, ?H4, ?H5; done.
Qed.

Lemma consistent_createChannel (w : world) :
  consistent w → consistent (_createChannel w).
Proof.
  apply manager_consistent_same; unfold _createChannel; by destruct (negb _ || _).
Qed.

Lemma consistent_destroyChannel (w : world) :
  consistent w → consistent (_destroyChannel w).
Proof.
  intros [Hd Hl Hnd Hci Hdi Hn Ho]. unfold _destroyChannel.
  destruct (_channel (mgr w)) as [k|] eqn:Hk; simpl;
    destruct (_recreateTimeout (mgr w)); split; simpl; rewrite ?Hk; done.
Qed.

Lemma consistent_created (c : Channel) (w : world) :
  c ∉ live w ++ dropped w → consistent w → consistent (channelCreated c w).
Proof.
  intros Hc [Hd Hl Hnd Hci Hdi Hn Ho].
  rewrite elem_of_app in Hc.
  split; simpl.
  - intros k [= <-]. done.
  - intros k [= <-]. rewrite elem_of_app, list_elem_of_singleton. by right.
  - intros k [Hin|Hin%list_elem_of_singleton]%elem_of_app; [by apply Hnd|].
    subst. tauto.
  - intros k. rewrite !elem_of_app, !list_elem_of_singleton, Hci.
    split; [intros [[|]|[= ->]]|intros [[|]|]]; subst; tauto.
  - intros k. rewrite elem_of_app, list_elem_of_singleton, Hdi.
    split; [intros [|]|]; [done|done|tauto].
  - apply NoDup_app. split; [done|]. split; [|apply NoDup_singleton].
    intros e He ->%list_elem_of_singleton. apply Hci in He. tauto.
  - intros l1 l2 k [(_ & _ & [=])|(l2' & -> & H)]%app_snoc_inv. by eapply Ho.
Qed.

Lemma manager_consistent_dropped (c : Channel) (w : world) :
  c ∈ live w ++ dropped w → consistent w → consistent (handleChannelEvent c w).
Proof.
  intros Hc Hw. unfold handleChannelEvent. case_bool_decide as Hdr; [done|].
  assert (c ∈ live w) as Hlive.
  { apply elem_of_app in Hc as [|]; done. }
  simpl. destruct Hw as [Hd Hl Hnd Hci Hdi Hn Ho]. split; simpl.
  - done.
  - done.
  - intros k [Hk1 Hk2]%list_elem_of_filter.
    rewrite not_elem_of_cons. split; [done|by apply Hnd].
  - intros k. rewrite elem_of_app, list_elem_of_singleton, Hci,
      list_elem_of_filter, elem_of_cons.
    destruct (decide (k = c)) as [->|Hne]; [tauto|].
    split; [intros [[|]|[=]]|intros [[_ ?]|[|]]]; tauto.
  - intros k. rewrite elem_of_app, list_elem_of_singleton, Hdi, elem_of_cons.
    split; [intros [|[= ->]]|intros [->|]]; tauto.
  - apply NoDup_app. split; [done|]. split; [|apply NoDup_singleton].
    intros e He ->%list_elem_of_singleton. apply Hdi in He. done.
  - intros l1 l2 k [(_ & <- & [= <-])|(l2' & -> & H)]%app_snoc_inv.
    + apply Hci. by left.
    + by eapply Ho.
Qed.

Lemma manager_consistent_step (e : event) (w : world) : consistent w → consistent (step e w).
Proof.
  intros Hw. destruct e as [| |c| |c|tm|]; simpl.
  - unfold start. destruct (_connectionClosed _); [done|].
    destruct (negb _); [|done].
    apply consistent_createChannel. revert Hw. by apply manager_consistent_same.
  - unfold stop. destruct (_started _); [|done].
    apply consistent_destroyChannel. revert Hw. by apply manager_consistent_same.
  - destruct (requests w); [done|]. case_bool_decide; [done|].
    by apply consistent_created.
  - destruct (requests w); [done|]. revert Hw. by apply manager_consistent_same.
  - case_bool_decide; [|done]. by apply manager_consistent_dropped.
  - case_bool_decide; [|done]. apply consistent_createChannel.
    revert Hw. by apply manager_consistent_same.
  - unfold connectionClosed.
    apply (manager_consistent_same (_destroyChannel w)); try done.
    by apply consistent_destroyChannel.
Qed.

Lemma manager_consistent_run (es : list event) (w : world) :
  consistent w → consistent (run es w).
Proof.
  revert w. induction es as [|e es IH]; intros w Hw; [done|].
  simpl. apply IH, manager_consistent_step, Hw.
Qed.

Lemma consistent_new (confirm : option bool) : consistent (new confirm).
Proof.
  split; simpl; try done.
  - intros k []%elem_of_nil.
  - intros k. rewrite !elem_of_nil. tauto.
  - intros k. rewrite !elem_of_nil. tauto.
  - by apply NoDup_nil.
  - intros [|? ?] ? ? [=].
Qed.


(** *** The events *)

(** X9. In every run each event is emitted at most once - ['create'] once per
    channel, ['close'] once per channel however many ['error'] and
    ['close'] events the channel raises - and the ['close'] of a channel
    comes after its ['create']. *)
Theorem close_once_after_create (confirm : option bool) (es : list event) :
  NoDup (events (run es (new confirm)))
  ∧ ∀ l1 l2 k, events (run es (new confirm)) = l1 ++ EmitClose k :: l2 →
      EmitCreate k ∈ l1.
Proof.
  assert (consistent (run es (new confirm))) as [_ _ _ _ _ Hn Ho].
  { apply manager_consistent_run, consistent_new. }
  done.
Qed.

(** *** A closed connection *)

Lemma connectionClosed_step (e : event) (w : world) :
  _connectionClosed (mgr w) = true → _connectionClosed (mgr (step e w)) = true.
Proof.
  intros Hw. destruct e as [| |c| |c|tm|]; simpl.
  - unfold start. by rewrite Hw.
  - unfold stop. destruct (_started _); [|done]. unfold _destroyChannel. simpl.
    destruct (_channel (mgr w)); simpl; destruct (_recreateTimeout (mgr w)); done.
  - destruct (requests w); [done|]. by case_bool_decide.
  - by destruct (requests w).
  - case_bool_decide; [|done]. unfold handleChannelEvent. by case_bool_decide.
  - case_bool_decide; [|done]. unfold _createChannel. by destruct (negb _ || _).
  - done.
Qed.

Lemma connectionClosed_run (es : list event) (w : world) :
  _connectionClosed (mgr w) = true → _connectionClosed (mgr (run es w)) = true.
Proof.
  revert w. induction es as [|e es IH]; intros w Hw; [done|].
  simpl. by apply IH, connectionClosed_step.
Qed.

(** X10. When the connection raises ['close'] or ['error'], the channel the
    manager holds is forgotten and, from then on and whatever happens,
    [start()] throws and changes nothing. *)
Theorem start_throws_once_connection_closed (confirm : option bool)
    (es1 es2 : list event) :
  _channel (mgr (step ConnectionClosed (run es1 (new confirm)))) = None
  ∧ start (run es2 (step ConnectionClosed (run es1 (new confirm))))
    = Throw (Error "The connection has been closed - can not start an AQMPChannelManager on a closed connection!")
  ∧ step Start (run es2 (step ConnectionClosed (run es1 (new confirm))))
    = run es2 (step ConnectionClosed (run es1 (new confirm))).
Proof.
  set (w := run es1 (new confirm)).
  assert (_connectionClosed (mgr (run es2 (step ConnectionClosed w))) = true) as H.
  { by apply connectionClosed_run. }
  split; [|split].
  - change (step ConnectionClosed w) with (connectionClosed w).
    unfold connectionClosed, _destroyChannel. simpl.
    destruct (_channel (mgr w)) eqn:E; simpl;
      destruct (_recreateTimeout (mgr w)); simpl; done.
  - unfold start. by rewrite H.
  - change (step Start ?x) with (match start x with Ok w' => w' | Throw _ => x end).
    unfold start. by rewrite H.
Qed.

(** *** Stopping *)

Lemma manager_idle_step (e : event) (w : world) :
  e ≠ Start → _started (mgr w) = false →
  _started (mgr (step e w)) = false
  ∧ ∃ n, requests (step e w) = drop n (requests w).
Proof.
  intros He Hs. destruct e as [| |c| |c|tm|]; simpl.
  - done.
  - unfold stop. rewrite Hs. split; [done|]. by exists 0%nat.
  - destruct (requests w) as [|r rs] eqn:Hr; [split; [done|by exists 0%nat]|].
    case_bool_decide; [split; [done|by exists 0%nat]|].
    split; [done|]. exists 1%nat. simpl. by rewrite Hr.
  - destruct (requests w) as [|r rs] eqn:Hr; [split; [done|by exists 0%nat]|].
    split; [done|]. exists 1%nat. simpl. by rewrite Hr.
  - case_bool_decide; [|split; [done|by exists 0%nat]]. unfold handleChannelEvent.
    case_bool_decide; (split; [done|by exists 0%nat]).
  - case_bool_decide; [|split; [done|by exists 0%nat]].
    unfold _createChannel. simpl. rewrite Hs. simpl.
    split; [done|by exists 0%nat].
  - unfold connectionClosed, _destroyChannel. simpl.
    destruct (_channel (mgr w)); simpl; destruct (_recreateTimeout (mgr w));
      (split; [done|by exists 0%nat]).
Qed.

Lemma manager_idle_run (es : list event) (w : world) :
  Start ∉ es → _started (mgr w) = false →
  _started (mgr (run es w)) = false
  ∧ ∃ n, requests (run es w) = drop n (requests w).
Proof.
  revert w. induction es as [|e es IH]; intros w Hes Hs.
  { split; [done|]. by exists 0%nat. }
  apply not_elem_of_cons in Hes as [He Hes]. simpl.
  destruct (manager_idle_step e w) as [H1 [n Hn]]; [done|done|].
  destruct (IH (step e w) Hes H1) as [H3 [m Hm]].
  split; [done|]. exists (n + m)%nat. by rewrite Hm, Hn, drop_drop.
Qed.

Lemma manager_stop_stops (w : world) :
  _started (mgr (stop w)) = false ∧ requests (stop w) = requests w.
Proof.
  unfold stop. destruct (_started (mgr w)) eqn:Hs; [|done].
  unfold _destroyChannel. simpl.
  destruct (_channel (mgr w)); simpl; destruct (_recreateTimeout (mgr w)); done.
Qed.

(** X11. After [stop()], whatever happens - a late answer to the request that
    was under way, channel events, timers that are still armed, the
    connection closing - no channel is requested as long as [start()] is
    not called: the requests awaiting an answer are those that were. *)
Theorem stopped_manager_requests_nothing (w : world) (es : list event) :
  Start ∉ es →
  _started (mgr (run es (stop w))) = false
  ∧ ∃ n, requests (run es (stop w)) = drop n (requests w).
Proof.
  intros Hes. destruct (manager_stop_stops w) as [H1 H2].
  destruct (manager_idle_run es (stop w) Hes H1) as [H3 [n Hn]].
  split; [done|]. exists n. by rewrite Hn, H2.
Qed.

(** A manager stopped while it holds a channel: the ['close'] of the
    channel arms the retry timer, which fires and requests nothing. *)
Lemma stopped_manager_requests_nothing_witness :
  timers (run [ChannelEvent 7] (stop (run [Start; ChannelCreated 7] (new None))))
  = [0%nat]
  ∧ ∃ n, requests (run [ChannelEvent 7; TimerFired 0]
                     (stop (run [Start; ChannelCreated 7] (new None))))
         = drop n (requests (run [Start; ChannelCreated 7] (new None))).
Proof.
  split; [reflexivity|].
  apply (stopped_manager_requests_nothing _ [ChannelEvent 7; TimerFired 0]).
  rewrite !not_elem_of_cons. split; [done|]. split; [done|]. apply not_elem_of_nil.
Defined.

(** X12. [stop()] on a started manager that holds channel [k]: the channel is
    closed and forgotten and the remembered timer is disarmed; when the
    ['close'] event of [k] then arrives, ['close'] is emitted for it. *)
Theorem stop_closes_held_channel (confirm : option bool) (es : list event)
    (k : Channel) :
  _started (mgr (run es (new confirm))) = true →
  _channel (mgr (run es (new confirm))) = Some k →
  let w := run es (new confirm) in
  let w1 := step Stop w in
  let w2 := step (ChannelEvent k) w1 in
  _channel (mgr w1) = None
  ∧ closed_by_us w1 = closed_by_us w ++ [k]
  ∧ (∀ tm, _recreateTimeout (mgr w) = Some tm → tm ∉ timers w1)
  ∧ events w1 = events w
  ∧ events w2 = events w ++ [EmitClose k]
  ∧ requests w2 = requests w.
Proof.
  set (w := run es (new confirm)). intros Hs Hk w0 w1 w2. subst w0.
  assert (consistent w) as [Hd Hl Hnd Hci Hdi Hn Ho].
  { apply manager_consistent_run, consistent_new. }
  pose proof (Hd _ Hk) as Hdes. pose proof (Hl _ Hk) as Hlive.
  pose proof (Hnd _ Hlive) as Hndr.
  assert (w1 = _destroyChannel (with_mgr w (set_started false (mgr w)))) as Hw1.
  { unfold w1. change (step Stop w) with (stop w). unfold stop. by rewrite Hs. }
  assert (_channel (mgr w1) = None ∧ closed_by_us w1 = closed_by_us w ++ [k]
          ∧ events w1 = events w ∧ requests w1 = requests w
          ∧ live w1 = live w ∧ dropped w1 = dropped w
          ∧ timers w1 = match _recreateTimeout (mgr w) with
                        | Some tm => filter (λ tm', tm' ≠ tm) (timers w)
                        | None => timers w
                        end) as (H1 & H2 & H3 & H4 & H5 & H6 & H7).
  { rewrite Hw1. unfold _destroyChannel. simpl.
    rewrite Hk. simpl. rewrite Hdes. simpl.
    destruct (_recreateTimeout (mgr w)); done. }
  split; [done|]. split; [done|]. split.
  { intros tm Htm. rewrite H7, Htm.
    intros [Hne _]%list_elem_of_filter. done. }
  split; [done|].
  assert (w2 = handleChannelEvent k w1) as Hw2.
  { unfold w2.
    change (step (ChannelEvent k) w1)
      with (if bool_decide (k ∈ live w1 ++ dropped w1)
            then handleChannelEvent k w1 else w1).
    rewrite bool_decide_eq_true_2; [done|].
    rewrite H5, elem_of_app. by left. }
  rewrite Hw2. unfold handleChannelEvent.
  rewrite bool_decide_eq_false_2 by (by rewrite H6).
  simpl. by rewrite H3, H4.
Qed.

Lemma stop_closes_held_channel_witness :
  closed_by_us (run [Start; ChannelCreated 7; Stop] (new None)) = [7%nat]
  ∧ events (run [Start; ChannelCreated 7; Stop; ChannelEvent 7] (new None))
    = [EmitCreate 7; EmitClose 7].
Proof.
  pose proof (stop_closes_held_channel None [Start; ChannelCreated 7] 7%nat
                eq_refl eq_refl) as (_ & H2 & _ & _ & H5 & _).
  split; [exact H2|exact H5].
Defined.

(** *** Re-creating *)

(** X13. A started manager that holds channel [k] and is not creating one
    loses [k]: ['close'] is emitted for [k], the channel is forgotten, a
    timer is armed and nothing is asked of the connection yet; when that
    timer fires, one channel is requested from the connection, after the
    requests that were pending.  (Which kind of channel is up to
    [_getChannelPromise] of the manager's class, and is not stated.) *)
Theorem dropped_channel_is_recreated (confirm : option bool) (es : list event)
    (k : Channel) :
  _started (mgr (run es (new confirm))) = true →
  _creatingChannel (mgr (run es (new confirm))) = false →
  _channel (mgr (run es (new confirm))) = Some k →
  let w := run es (new confirm) in
  let w1 := step (ChannelEvent k) w in
  let w2 := step (TimerFired (next_timer w)) w1 in
  events w1 = events w ++ [EmitClose k]
  ∧ _channel (mgr w1) = None
  ∧ timers w1 = timers w ++ [next_timer w]
  ∧ requests w1 = requests w
  ∧ ∃ kind, requests w2 = requests w ++ [kind].
Proof.
  set (w := run es (new confirm)). intros Hs Hcg Hk w0 w1 w2. subst w0.
  assert (consistent w) as [Hd Hl Hnd Hci Hdi Hn Ho].
  { apply manager_consistent_run, consistent_new. }
  pose proof (Hl _ Hk) as Hlive. pose proof (Hnd _ Hlive) as Hndr.
  assert (w1 = handleChannelEvent k w) as Hw1.
  { unfold w1.
    change (step (ChannelEvent k) w)
      with (if bool_decide (k ∈ live w ++ dropped w)
            then handleChannelEvent k w else w).
    rewrite bool_decide_eq_true_2; [done|].
    rewrite elem_of_app. by left. }
  unfold handleChannelEvent in Hw1.
  rewrite (bool_decide_eq_false_2 _ Hndr) in Hw1. simpl in Hw1.
  assert (w2 = _createChannel
                 {| mgr := mgr w1; requests := requests w1; live := live w1;
                    dropped := dropped w1; closed_by_us := closed_by_us w1;
                    timers := filter (λ tm', tm' ≠ next_timer w) (timers w1);
                    next_timer := next_timer w1; events := events w1 |}) as Hw2.
  { unfold w2.
    change (step (TimerFired (next_timer w)) w1)
      with (if bool_decide (next_timer w ∈ timers w1)
            then _createChannel
                   {| mgr := mgr w1; requests := requests w1; live := live w1;
                      dropped := dropped w1; closed_by_us := closed_by_us w1;
                      timers := filter (λ tm', tm' ≠ next_timer w) (timers w1);
                      next_timer := next_timer w1; events := events w1 |}
            else w1).
    rewrite bool_decide_eq_true_2; [done|].
    rewrite Hw1. simpl. rewrite elem_of_app. right. apply list_elem_of_here. }
  rewrite Hw2, Hw1. unfold _createChannel. simpl.
  rewrite Hs, Hcg. simpl. repeat split; try done. by eexists.
Qed.

(** A manager whose first channel, 7, is lost: the event is passed on, and
    the timer armed by the loss brings the one request there is. *)
Lemma dropped_channel_is_recreated_witness :
  events (run [Start; ChannelCreated 7; ChannelEvent 7] (new None))
  = [EmitCreate 7; EmitClose 7]
  ∧ requests (run [Start; ChannelCreated 7; ChannelEvent 7] (new None)) = []
  ∧ ∃ kind,
      requests (run [Start; ChannelCreated 7; ChannelEvent 7; TimerFired 0] (new None))
      = [kind].
Proof.
  pose proof (dropped_channel_is_recreated None [Start; ChannelCreated 7] 7%nat
                eq_refl eq_refl eq_refl) as (H1 & _ & _ & H4 & H5).
  split; [exact H1|]. split; [exact H4|exact H5].
Defined.

End ChannelManagerLifecycle.


(** ** Consumer: set-up, stopping and the order of the RPCs
    (src/unnamed/part_012) *)

Module ConsumerLifecycle.

Import AMQPConsumer.

(** What can happen to a consumer: the events of the consumer proper, and
    the calls of the operations it handed out with a message. *)
Inductive action :=
| Event (e : event)
| CallAck (m : Message)
| CallRequeue (m : Message)
| CallReject (m : Message).

Definition act (a : action) (w : world) : world :=
  match a with
  | Event e => step e w
  | CallAck m => ack m w
  | CallRequeue m => requeue m w
  | CallReject m => reject m w
  end.

Definition play (acts : list action) (w : world) : world :=
  foldl (λ w a, act a w) w acts.

(** The stored stop promise and the pending chain are the same thing. *)
Record stopping_ok (w : world) : Prop := {
  chain_is_stored : ∀ sp x, stops w !! sp = Some x → _stopPromise (self w) = Some sp;
  stored_is_chain : ∀ sp, _stopPromise (self w) = Some sp → is_Some (stops w !! sp)
}.

(** What has been sent, given what has been promised. *)
Record ordered (name : string) (w : world) : Prop := {
  name_kept : _queueName (self w) = name;
  run_declared : ∀ p st, runs w !! p = Some st → AssertQueue name ∈ rpcs w;
  fulfilled_subscribed : ∀ p, promises w !! p = Some (ConsumePromise, Some Fulfilled) →
                         ∃ q, Consume q ∈ rpcs w;
  chain_awaits_consume : ∀ sp cp tag, stops w !! sp = Some (AwaitConsume cp, tag) →
                         ∃ o, promises w !! cp = Some (ConsumePromise, o);
  stored_consume : ∀ cp, _consumePromise (self w) = Some cp →
                   ∃ o, promises w !! cp = Some (ConsumePromise, o);
  consume_after_declare : ∀ l1 l2 q, rpcs w = l1 ++ Consume q :: l2 →
                          AssertQueue name ∈ l1;
  cancel_after_consume : ∀ l1 l2 tag, rpcs w = l1 ++ Cancel tag :: l2 →
                         ∃ q, Consume q ∈ l1
}.

(** RPCs that neither subscribe nor cancel. *)
Definition quiet (rs : list rpc) : Prop :=
  (∀ q, Consume q ∉ rs) ∧ (∀ tag, Cancel tag ∉ rs).

(** *** The set-up *)

(** X14. A set-up that nothing disturbs: the queue is declared under the
    requested name; then the exchanges are declared, in the order given;
    then the queue is bound, under the name the broker answered, in the
    order given; then [basic.qos] is sent if [prefetch] is truthy (so not
    for 0), and [basic.consume] on the answered name.  The consume
    promise is then fulfilled and the consumer started, while the consumer
    tag is not known yet. *)
Theorem setup_sends_declarations_in_order (queueName actualQueueName : string)
    (prefetch : value) (exchanges : list Exchange) (binds : list Binding) :
  let w := run [CallConsume; QueueAsserted 0 actualQueueName;
                ExchangesAsserted 0; BindsEstablished 0]
             (new queueName prefetch exchanges binds) in
  rpcs w
  = [AssertQueue queueName]
    ++ map (λ e, AssertExchange (ex_name e) (ex_type e)) exchanges
    ++ map (λ b, BindQueue actualQueueName (exchange b) (pattern b)) binds
    ++ (if truthy prefetch then [Prefetch prefetch] else [])
    ++ [Consume actualQueueName]
  ∧ promises w !! 0%nat = Some (ConsumePromise, Some Fulfilled)
  ∧ _started (self w) = true
  ∧ _consumePromise (self w) = Some 0%nat
  ∧ _consumerTag (self w) = None.
Proof.
  intros w. unfold w.
  rewrite !run_cons. unfold run, foldl.
  set (w1 := step CallConsume _).
  assert (runs w1 = <[0%nat := AwaitQueue]> ∅) as Hr by reflexivity.
  rewrite (step_QueueAsserted 0) by (rewrite Hr; map_lookup).
  rewrite (step_ExchangesAsserted 0 actualQueueName)
    by (rewrite runs_queueAsserted, Hr; map_lookup).
  rewrite (step_BindsEstablished 0 actualQueueName)
    by (rewrite runs_exchangesAsserted, runs_queueAsserted, Hr; map_lookup).
  unfold bindsEstablished. simpl.
  destruct (truthy prefetch); simpl; rewrite lookup_insert_eq, <- !app_assoc; done.
Qed.


Lemma step_without_run (p : Promise) (w : world) :
  runs w !! p = None →
  (∀ q, step (QueueAsserted p q) w = w)
  ∧ step (ExchangesAsserted p) w = w
  ∧ step (BindsEstablished p) w = w.
Proof. intros H. simpl. by rewrite H. Qed.

(** X15. An awaited declaration of invocation [p] fails: the consume promise
    of [p] is rejected with the error, nothing more is sent and the
    consumer is left as it was - in particular not started -, and the
    invocation never resumes; a consumer that is not started then begins
    a new set-up at the next [consume()]. *)
Theorem failed_setup_rejects_and_allows_retry (w : world) (p : Promise)
    (st : stage) (e : error) :
  runs w !! p = Some st →
  promises (step (SetupFailed p e) w) !! p = Some (ConsumePromise, Some (Rejected e))
  ∧ rpcs (step (SetupFailed p e) w) = rpcs w
  ∧ self (step (SetupFailed p e) w) = self w
  ∧ (∀ q, step (QueueAsserted p q) (step (SetupFailed p e) w)
          = step (SetupFailed p e) w)
  ∧ step (ExchangesAsserted p) (step (SetupFailed p e) w) = step (SetupFailed p e) w
  ∧ step (BindsEstablished p) (step (SetupFailed p e) w) = step (SetupFailed p e) w
  ∧ (_started (self w) = false →
     fst (consume (step (SetupFailed p e) w)) = Some (next_promise w)
     ∧ rpcs (snd (consume (step (SetupFailed p e) w)))
       = rpcs w ++ [AssertQueue (_queueName (self w))]).
Proof.
  intros Hr.
  assert (step (SetupFailed p e) w = setupFailed p e w) as ->.
  { simpl. by rewrite Hr. }
  assert (runs (setupFailed p e w) !! p = None) as Hn.
  { simpl. by rewrite lookup_delete_eq. }
  assert (promises (setupFailed p e w) !! p
          = Some (ConsumePromise, Some (Rejected e))) as H1.
  { simpl. by rewrite lookup_insert_eq. }
  assert (rpcs (setupFailed p e w) = rpcs w) as H2 by done.
  assert (self (setupFailed p e w) = self w) as H3 by done.
  assert (next_promise (setupFailed p e w) = next_promise w) as H4 by done.
  generalize dependent (setupFailed p e w). intros w1 Hn H1 H2 H3 H4.
  split; [done|]. split; [done|]. split; [done|].
  destruct (step_without_run p w1 Hn) as (Hq & Hx & Hb).
  split; [done|]. split; [done|]. split; [done|].
  intros Hs. unfold consume. rewrite H3, Hs. simpl. rewrite ?H2, ?H3, ?H4. done.
Qed.

(** The declaration of the queue fails. *)
Lemma failed_setup_rejects_and_allows_retry_witness :
  promises (run [CallConsume; SetupFailed 0 (Error "NOT_FOUND")]
              (new "q" VUndefined [] [])) !! 0%nat
  = Some (ConsumePromise, Some (Rejected (Error "NOT_FOUND")))
  ∧ rpcs (run [CallConsume; SetupFailed 0 (Error "NOT_FOUND"); CallConsume]
            (new "q" VUndefined [] []))
    = [AssertQueue "q"; AssertQueue "q"].
Proof.
  pose proof (failed_setup_rejects_and_allows_retry
                (run [CallConsume] (new "q" VUndefined [] [])) 0%nat AwaitQueue
                (Error "NOT_FOUND") eq_refl) as (H1 & _ & _ & _ & _ & _ & H7).
  split; [exact H1|]. exact (proj2 (H7 eq_refl)).
Defined.

(** *** The stop promise *)

Lemma wf_act (a : action) (w : world) : wf w → wf (act a w).
Proof.
  destruct a as [e|m|m|m]; simpl; [apply wf_step|..];
    by apply wf_same.
Qed.

Lemma wf_play (acts : list action) (w : world) : wf w → wf (play acts w).
Proof.
  revert w. induction acts as [|a acts IH]; intros w Hw; [done|].
  simpl. apply IH, wf_act, Hw.
Qed.

Lemma stopping_same (w w' : world) :
  stops w' = stops w → _stopPromise (self w') = _stopPromise (self w) →
  stopping_ok w → stopping_ok w'.
Proof. intros H1 H2 [? ?]. split; rewrite ?H1, ?H2; done. Qed.

Lemma stopping_tail (sp : Promise) (o : outcome) (w : world) :
  is_Some (stops w !! sp) → stopping_ok w → stopping_ok (stop_chain_tail sp o w).
Proof.
  intros [x Hx] [H1 H2]. rewrite stop_chain_tail_fulfils. split; simpl.
  - intros sp' x'. destruct (decide (sp = sp')) as [<-|Hne].
    + by rewrite lookup_delete_eq.
    + rewrite lookup_delete_ne by done. intros H%H1.
      pose proof (H1 _ _ Hx). congruence.
  - done.
Qed.

Lemma stopping_step (e : event) (w : world) : stopping_ok w → stopping_ok (step e w).
Proof.
  intros Hw. destruct e as [| |p q|p|p|p e|tag|m|sp|sp o]; simpl.
  - unfold consume. destruct (negb _); [|done]. revert Hw. by apply stopping_same.
  - unfold stopConsuming.
    destruct (_stopPromise (self w)) as [sp|] eqn:Hsp.
    { rewrite orb_true_r. simpl. done. }
    rewrite orb_false_r.
    destruct (negb _ || negb _); [revert Hw; by apply stopping_same|].
    destruct (_consumePromise (self w)) as [cp|]; [|revert Hw; by apply stopping_same].
    destruct Hw as [H1 H2]. split; simpl.
    + intros sp' x'. destruct (decide (next_promise w = sp')) as [<-|Hne]; [done|].
      rewrite lookup_insert_ne by done. intros H%H1. congruence.
    + intros sp' [= <-]. by rewrite lookup_insert_eq.
  - destruct (runs w !! p) as [[]|]; try done. revert Hw. by apply stopping_same.
  - destruct (runs w !! p) as [[]|]; try done. revert Hw. by apply stopping_same.
  - destruct (runs w !! p) as [[]|]; try done. revert Hw.
    apply stopping_same; unfold bindsEstablished; by destruct (truthy _).
  - destruct (runs w !! p); [|done]. revert Hw. by apply stopping_same.
  - destruct (subscriptions w); [done|]. revert Hw. by apply stopping_same.
  - destruct (subscriptions w); [done|]. revert Hw.
    destruct m; by apply stopping_same.
  - unfold stopAwaited.
    destruct (stops w !! sp) as [[[cp|] tag]|] eqn:Hs; try done.
    destruct (promises w !! cp) as [[k [[|e]|]]|]; try done.
    + destruct Hw as [H1 H2]. split; simpl.
      * intros sp' x'. destruct (decide (sp = sp')) as [<-|Hne].
        -- intros _. by eapply H1.
        -- rewrite lookup_insert_ne by done. apply H1.
      * intros sp' Hsp'. destruct (decide (sp = sp')) as [<-|Hne].
        -- by rewrite lookup_insert_eq.
        -- rewrite lookup_insert_ne by done. by apply H2.
    + apply stopping_tail; [by rewrite Hs|done].
  - unfold cancelReplied.
    destruct (stops w !! sp) as [[[cp|] tag]|] eqn:Hs; try done.
    apply stopping_tail; [by rewrite Hs|done].
Qed.

Lemma stopping_act (a : action) (w : world) : stopping_ok w → stopping_ok (act a w).
Proof.
  intros Hw. destruct a as [e|m|m|m]; simpl;
    [by apply stopping_step|revert Hw; by apply stopping_same..].
Qed.

Lemma stopping_play (acts : list action) (w : world) :
  stopping_ok w → stopping_ok (play acts w).
Proof.
  revert w. induction acts as [|a acts IH]; intros w Hw; [done|].
  simpl. by apply IH, stopping_act.
Qed.

(** A promise keeps its kind, and a settled promise its outcome. *)
Lemma promise_kept_step (e : event) (w : world) (p : Promise) (k : kind)
    (o : option outcome) :
  wf w → promises w !! p = Some (k, o) →
  ∃ o', promises (step e w) !! p = Some (k, o').
Proof.
  intros Hwf Hp. pose proof (wf_fresh w Hwf _ _ Hp) as Hlt.
  assert (∀ p' st, runs w !! p' = Some st → p' = p → k = ConsumePromise) as Hrun.
  { intros p' st Hr ->. pose proof (wf_runs w Hwf _ _ Hr). congruence. }
  assert (∀ sp x, stops w !! sp = Some x → sp = p → k = StopPromise) as Hstop.
  { intros sp x Hs ->. pose proof (wf_stops w Hwf _ _ Hs). congruence. }
  assert (∀ sp o1, is_Some (stops w !! sp) →
            ∃ o', promises (stop_chain_tail sp o1 w) !! p = Some (k, o')) as Htail.
  { intros sp o1 [x Hx]. rewrite stop_chain_tail_fulfils. simpl.
    destruct (decide (sp = p)) as [->|Hne].
    - rewrite lookup_insert_eq, (Hstop _ _ Hx eq_refl). by eexists.
    - rewrite lookup_insert_ne by done. by eexists. }
  destruct e as [| |p' q|p'|p'|p' e|tag|m|sp|sp o1]; simpl.
  - unfold consume. destruct (negb _); simpl; [|by eexists].
    rewrite lookup_insert_ne by lia. by eexists.
  - unfold stopConsuming. destruct (_ || _).
    + destruct (_stopPromise (self w)); simpl; [by eexists|].
      rewrite lookup_insert_ne by lia. by eexists.
    + destruct (_consumePromise (self w)); simpl;
        rewrite lookup_insert_ne by lia; by eexists.
  - destruct (runs w !! p') as [[]|]; simpl; by eexists.
  - destruct (runs w !! p') as [[]|]; simpl; by eexists.
  - destruct (runs w !! p') as [[| |q]|] eqn:Hr; simpl; try by eexists.
    unfold bindsEstablished. destruct (decide (p' = p)) as [->|Hne].
    + rewrite (Hrun _ _ Hr eq_refl).
      destruct (truthy _); simpl; rewrite lookup_insert_eq; by eexists.
    + destruct (truthy _); simpl; rewrite lookup_insert_ne by done; by eexists.
  - destruct (runs w !! p') as [st|] eqn:Hr; simpl; [|by eexists].
    destruct (decide (p' = p)) as [->|Hne].
    + rewrite lookup_insert_eq, (Hrun _ _ Hr eq_refl). by eexists.
    + rewrite lookup_insert_ne by done. by eexists.
  - destruct (subscriptions w); simpl; by eexists.
  - destruct (subscriptions w); [by eexists|]. destruct m; simpl; by eexists.
  - unfold stopAwaited.
    destruct (stops w !! sp) as [[[cp|] tag]|] eqn:Hs; try by eexists.
    destruct (promises w !! cp) as [[k' [[|e]|]]|]; try by eexists.
    apply Htail. by rewrite Hs.
  - unfold cancelReplied.
    destruct (stops w !! sp) as [[[cp|] tag]|] eqn:Hs; try by eexists.
    apply Htail. by rewrite Hs.
Qed.

Lemma promise_kept_act (a : action) (w : world) (p : Promise) (k : kind)
    (o : option outcome) :
  wf w → promises w !! p = Some (k, o) →
  ∃ o', promises (act a w) !! p = Some (k, o').
Proof.
  intros Hwf Hp. destruct a as [e|m|m|m]; simpl;
    [by eapply promise_kept_step|by eexists..].
Qed.

(** The promise [stopConsuming] returns is a stop promise or an already
    fulfilled one, never a consume promise. *)
Lemma stopConsuming_promise_kind (w : world) :
  wf w → stopping_ok w →
  ∃ k o, promises (snd (stopConsuming w)) !! fst (stopConsuming w) = Some (k, o)
         ∧ k ≠ ConsumePromise.
Proof.
  intros Hwf [H1 H2]. unfold stopConsuming.
  destruct (_stopPromise (self w)) as [sp|] eqn:Hsp.
  { rewrite orb_true_r. simpl. destruct (H2 _ eq_refl) as [x Hx].
    rewrite (wf_stops w Hwf _ _ Hx). by eexists _, _. }
  rewrite orb_false_r. destruct (negb _ || negb _).
  { simpl. rewrite lookup_insert_eq. by eexists _, _. }
  destruct (_consumePromise (self w)); simpl; rewrite lookup_insert_eq;
    by eexists _, _.
Qed.

(** X16. In every state a consumer can reach, [isStopping()] answers [true]
    exactly while a chain built by [stopConsuming] is pending; there is
    never more than one such chain, and the stored stop promise is its
    promise, still pending. *)
Theorem isStopping_while_chain_pending (acts : list action) (queueName : string)
    (prefetch : value) (exchanges : list Exchange) (binds : list Binding) :
  (isStopping (play acts (new queueName prefetch exchanges binds)) = true
   ↔ ∃ sp x, stops (play acts (new queueName prefetch exchanges binds)) !! sp = Some x)
  ∧ (∀ sp sp' x x',
       stops (play acts (new queueName prefetch exchanges binds)) !! sp = Some x →
       stops (play acts (new queueName prefetch exchanges binds)) !! sp' = Some x' →
       sp = sp')
  ∧ (∀ sp,
       _stopPromise (self (play acts (new queueName prefetch exchanges binds)))
       = Some sp →
       promises (play acts (new queueName prefetch exchanges binds)) !! sp
       = Some (StopPromise, None)).
Proof.
  set (w := play acts _).
  assert (wf w) as Hwf by apply wf_play, wf_new.
  assert (stopping_ok w) as [H1 H2].
  { apply stopping_play. split; simpl; [intros sp x|intros sp]; done. }
  split; [|split].
  - unfold isStopping. split.
    + destruct (_stopPromise (self w)) as [sp|] eqn:Hsp; [|done]. intros _.
      destruct (H2 _ eq_refl) as [x Hx]. by exists sp, x.
    + intros (sp & x & Hx). by rewrite (H1 _ _ Hx).
  - intros sp sp' x x' Hx Hx'.
    pose proof (H1 _ _ Hx). pose proof (H1 _ _ Hx'). congruence.
  - intros sp Hsp. destruct (H2 _ Hsp) as [x Hx]. by eapply wf_stops.
Qed.


(** *** The order of the RPCs *)

Lemma quiet_nil : quiet [].
Proof. split; intros ?; apply not_elem_of_nil. Qed.

Lemma quiet_exchanges (exchanges : list Exchange) :
  quiet (map (λ e, AssertExchange (ex_name e) (ex_type e)) exchanges).
Proof.
  split; intros x; induction exchanges as [|e es IH]; simpl;
    rewrite ?not_elem_of_cons; try (apply not_elem_of_nil); done.
Qed.

Lemma quiet_binds (q : string) (binds : list Binding) :
  quiet (map (λ b, BindQueue q (exchange b) (pattern b)) binds).
Proof.
  split; intros x; induction binds as [|b bs IH]; simpl;
    rewrite ?not_elem_of_cons; try (apply not_elem_of_nil); done.
Qed.

Lemma quiet_one (r : rpc) : is_Consume r = false → (∀ tag, r ≠ Cancel tag) → quiet [r].
Proof.
  intros H1 H2. split; intros x; rewrite list_elem_of_singleton; intros <-; [done|].
  by eapply H2.
Qed.

(** A step that sends neither [basic.consume] nor [basic.cancel] keeps
    the order, whatever it does to the state. *)
Lemma ordered_quiet (name : string) (w w' : world) (rs : list rpc) :
  rpcs w' = rpcs w ++ rs → quiet rs → ordered name w →
  _queueName (self w') = name →
  (∀ p st, runs w' !! p = Some st → AssertQueue name ∈ rpcs w') →
  (∀ p, promises w' !! p = Some (ConsumePromise, Some Fulfilled) →
        ∃ q, Consume q ∈ rpcs w) →
  (∀ sp cp tag, stops w' !! sp = Some (AwaitConsume cp, tag) →
                ∃ o, promises w' !! cp = Some (ConsumePromise, o)) →
  (∀ cp, _consumePromise (self w') = Some cp →
         ∃ o, promises w' !! cp = Some (ConsumePromise, o)) →
  ordered name w'.
Proof.
  intros Hr [Hq1 Hq2] [_ _ _ _ _ Ho1 Ho2] Hn H1 H2 H3 H4.
  split; try done.
  - intros p Hp. destruct (H2 _ Hp) as [q Hq]. exists q.
    rewrite Hr, elem_of_app. by left.
  - intros l1 l2 q. rewrite Hr. intros [l2' H]%app_inv_not_in; [|done].
    by eapply Ho1.
  - intros l1 l2 tag. rewrite Hr. intros [l2' H]%app_inv_not_in; [|done].
    by eapply Ho2.
Qed.

Lemma ordered_tail (name : string) (sp : Promise) (o : outcome) (w : world) :
  wf w → is_Some (stops w !! sp) → ordered name w →
  ordered name (stop_chain_tail sp o w).
Proof.
  intros Hwf [x Hx] Hw. rewrite stop_chain_tail_fulfils.
  pose proof (wf_stops w Hwf _ _ Hx) as Hsp.
  pose proof Hw as [Hn H1 H2 H3 H4 _ _].
  apply (ordered_quiet name w _ []); simpl; try done.
  - by rewrite app_nil_r.
  - apply quiet_nil.
  - intros p. destruct (decide (sp = p)) as [<-|Hne].
    + by rewrite lookup_insert_eq.
    + rewrite lookup_insert_ne by done. apply H2.
  - intros sp' cp tag. destruct (decide (sp = sp')) as [<-|Hne].
    + by rewrite lookup_delete_eq.
    + rewrite lookup_delete_ne by done. intros [o' Ho']%H3.
      exists o'. rewrite lookup_insert_ne; [done|]. intros ->. congruence.
  - intros cp [o' Ho']%H4. exists o'.
    rewrite lookup_insert_ne; [done|]. intros ->. congruence.
Qed.

Lemma ordered_step (name : string) (e : event) (w : world) :
  wf w → ordered name w → ordered name (step e w).
Proof.
  intros Hwf Hw. pose proof Hw as [Hn H1 H2 H3 H4 Ho1 Ho2].
  assert (∀ p x, promises w !! p = Some x → p ≠ next_promise w) as Hfresh.
  { intros p x Hp ->. pose proof (wf_fresh w Hwf _ _ Hp). lia. }
  destruct e as [| |p q|p|p|p e|tag|m|sp|sp o]; simpl.
  - unfold consume. destruct (negb _); [|done].
    apply (ordered_quiet name w _ [AssertQueue (_queueName (self w))]); simpl;
      try done.
    + by apply quiet_one.
    + intros p st _. rewrite Hn, elem_of_app, list_elem_of_singleton. by right.
    + intros p. destruct (decide (next_promise w = p)) as [<-|Hne].
      * by rewrite lookup_insert_eq.
      * rewrite lookup_insert_ne by done. apply H2.
    + intros sp cp tag [o Ho]%H3. exists o.
      rewrite lookup_insert_ne; [done|]. intros Heq. by eapply Hfresh.
    + intros cp [= <-]. rewrite lookup_insert_eq. by eexists.
  - unfold stopConsuming. destruct (_ || _).
    + destruct (_stopPromise (self w)); [done|].
      apply (ordered_quiet name w _ []); simpl; try done.
      * by rewrite app_nil_r.
      * apply quiet_nil.
      * intros p. destruct (decide (next_promise w = p)) as [<-|Hne].
        -- by rewrite lookup_insert_eq.
        -- rewrite lookup_insert_ne by done. apply H2.
      * intros sp cp tag [o Ho]%H3. exists o.
        rewrite lookup_insert_ne; [done|]. intros Heq. by eapply Hfresh.
      * intros cp [o Ho]%H4. exists o.
        rewrite lookup_insert_ne; [done|]. intros Heq. by eapply Hfresh.
    + destruct (_consumePromise (self w)) as [cp|] eqn:Hcp.
      * destruct (H4 _ eq_refl) as [ocp Hocp].
        apply (ordered_quiet name w _ []); simpl; try done.
        -- by rewrite app_nil_r.
        -- apply quiet_nil.
        -- intros p. destruct (decide (next_promise w = p)) as [<-|Hne].
           ++ by rewrite lookup_insert_eq.
           ++ rewrite lookup_insert_ne by done. apply H2.
        -- intros sp cp' tag. destruct (decide (next_promise w = sp)) as [<-|Hne].
           ++ rewrite lookup_insert_eq. intros [= <- _]. exists ocp.
              rewrite lookup_insert_ne; [done|]. intros Heq. by eapply Hfresh.
           ++ rewrite lookup_insert_ne by done. intros [o Ho]%H3. exists o.
              rewrite lookup_insert_ne; [done|]. intros Heq. by eapply Hfresh.
      * apply (ordered_quiet name w _ []); simpl; try done.
        -- by rewrite app_nil_r.
        -- apply quiet_nil.
        -- intros p. destruct (decide (next_promise w = p)) as [<-|Hne].
           ++ by rewrite lookup_insert_eq.
           ++ rewrite lookup_insert_ne by done. apply H2.
        -- intros sp cp tag [o Ho]%H3. exists o.
           rewrite lookup_insert_ne; [done|]. intros Heq. by eapply Hfresh.
        -- by rewrite Hcp.
  - destruct (runs w !! p) as [[]|] eqn:Hr; try done.
    eapply (ordered_quiet name w); simpl; try done.
    + apply quiet_exchanges.
    + intros p' st _. rewrite elem_of_app. left. by eapply H1.
  - destruct (runs w !! p) as [[|q|]|] eqn:Hr; try done.
    eapply (ordered_quiet name w); simpl; try done.
    + apply quiet_binds.
    + intros p' st _. rewrite elem_of_app. left. by eapply H1.
  - destruct (runs w !! p) as [[| |q]|] eqn:Hr; try done.
    pose proof (H1 _ _ Hr) as Hdecl.
    pose proof (wf_runs w Hwf _ _ Hr) as Hp.
    assert (∃ pf, rpcs (bindsEstablished p q w) = (rpcs w ++ pf) ++ [Consume q]
                  ∧ quiet pf) as (pf & Hrpcs & Hpf).
    { unfold bindsEstablished. destruct (truthy _).
      - eexists. split; [reflexivity|]. by apply quiet_one.
      - exists []. split; [simpl; by rewrite app_nil_r|]. apply quiet_nil. }
    assert (promises (bindsEstablished p q w)
            = <[p := (ConsumePromise, Some Fulfilled)]> (promises w)
            ∧ stops (bindsEstablished p q w) = stops w
            ∧ _consumePromise (self (bindsEstablished p q w)) = _consumePromise (self w)
            ∧ _queueName (self (bindsEstablished p q w)) = _queueName (self w))
      as (Hpr & Hst & Hcp & Hqn).
    { unfold bindsEstablished. by destruct (truthy _). }
    split.
    + by rewrite Hqn.
    + intros p' st _. rewrite Hrpcs, !elem_of_app. by left; left.
    + intros p' _. exists q. rewrite Hrpcs, elem_of_app, list_elem_of_singleton.
      by right.
    + rewrite Hst, Hpr. intros sp cp tag [o Ho]%H3.
      destruct (decide (p = cp)) as [<-|Hne].
      * rewrite lookup_insert_eq. by eexists.
      * rewrite lookup_insert_ne by done. by exists o.
    + rewrite Hcp, Hpr. intros cp [o Ho]%H4.
      destruct (decide (p = cp)) as [<-|Hne].
      * rewrite lookup_insert_eq. by eexists.
      * rewrite lookup_insert_ne by done. by exists o.
    + intros l1 l2 q'. rewrite Hrpcs.
      intros [(_ & <- & _)|(l2' & -> & H)]%app_snoc_inv.
      * rewrite elem_of_app. by left.
      * apply app_inv_not_in in H as [l2'' H]; [|apply Hpf]. by eapply Ho1.
    + intros l1 l2 tag. rewrite Hrpcs.
      intros [(_ & _ & [=])|(l2' & -> & H)]%app_snoc_inv.
      apply app_inv_not_in in H as [l2'' H]; [|apply Hpf]. by eapply Ho2.
  - destruct (runs w !! p) as [st|] eqn:Hr; [|done].
    pose proof (wf_runs w Hwf _ _ Hr) as Hp.
    apply (ordered_quiet name w _ []); simpl; try done.
    + by rewrite app_nil_r.
    + apply quiet_nil.
    + intros p' st'. destruct (decide (p = p')) as [<-|Hne].
      * by rewrite lookup_delete_eq.
      * rewrite lookup_delete_ne by done. apply H1.
    + intros p'. destruct (decide (p = p')) as [<-|Hne].
      * by rewrite lookup_insert_eq.
      * rewrite lookup_insert_ne by done. apply H2.
    + intros sp cp tag [o Ho]%H3.
      destruct (decide (p = cp)) as [<-|Hne].
      * rewrite lookup_insert_eq. by eexists.
      * rewrite lookup_insert_ne by done. by exists o.
    + intros cp [o Ho]%H4.
      destruct (decide (p = cp)) as [<-|Hne].
      * rewrite lookup_insert_eq. by eexists.
      * rewrite lookup_insert_ne by done. by exists o.
  - destruct (subscriptions w); [done|].
    apply (ordered_quiet name w _ []); simpl; try done.
    + by rewrite app_nil_r.
    + apply quiet_nil.
  - destruct (subscriptions w); [done|].
    destruct m; (apply (ordered_quiet name w _ []); simpl; try done;
                 [by rewrite app_nil_r|apply quiet_nil]).
  - unfold stopAwaited.
    destruct (stops w !! sp) as [[[cp|] tag]|] eqn:Hs; try done.
    destruct (promises w !! cp) as [[k [[|e]|]]|] eqn:Hcp; try done.
    + destruct (H3 _ _ _ Hs) as [o Ho].
      assert (k = ConsumePromise) as -> by congruence.
      destruct (H2 _ Hcp) as [q Hq].
      split; simpl; try done.
      * intros p st Hr. rewrite elem_of_app. left. by eapply H1.
      * intros p Hp. destruct (H2 _ Hp) as [q' Hq']. exists q'.
        rewrite elem_of_app. by left.
      * intros sp' cp' tag'. destruct (decide (sp = sp')) as [<-|Hne].
        -- by rewrite lookup_insert_eq.
        -- rewrite lookup_insert_ne by done. apply H3.
      * intros l1 l2 q'. intros [(_ & _ & [=])|(l2' & -> & H)]%app_snoc_inv.
        by eapply Ho1.
      * intros l1 l2 tag'. intros [(_ & <- & _)|(l2' & -> & H)]%app_snoc_inv.
        -- by exists q.
        -- by eapply Ho2.
    + apply ordered_tail; [done|by rewrite Hs|done].
  - unfold cancelReplied.
    destruct (stops w !! sp) as [[[cp|] tag]|] eqn:Hs; try done.
    apply ordered_tail; [done|by rewrite Hs|done].
Qed.

Lemma ordered_act (name : string) (a : action) (w : world) :
  wf w → ordered name w → ordered name (act a w).
Proof.
  intros Hwf Hw. destruct a as [e|m|m|m]; simpl; [by apply ordered_step|..];
    pose proof Hw as [Hn H1 H2 H3 H4 _ _];
    (eapply (ordered_quiet name w); simpl; try done;
     [by apply quiet_one|intros p st Hr; rewrite elem_of_app; left; by eapply H1]).
Qed.

Lemma ordered_play (name : string) (acts : list action) (w : world) :
  wf w → ordered name w → ordered name (play acts w).
Proof.
  revert w. induction acts as [|a acts IH]; intros w Hwf Hw; [done|].
  simpl. apply IH; [by apply wf_act|by apply ordered_act].
Qed.

(** X17. Whatever happens to a consumer - calls of [consume] and
    [stopConsuming] in any order and number, answers and failures of the
    broker, deliveries, acknowledgements - every [basic.consume] it sends
    comes after a declaration of its queue, and every [basic.cancel]
    after a [basic.consume]. *)
Theorem subscribes_after_declaring_cancels_after_subscribing
    (acts : list action) (queueName : string) (prefetch : value)
    (exchanges : list Exchange) (binds : list Binding) :
  (∀ l1 l2 q,
     rpcs (play acts (new queueName prefetch exchanges binds)) = l1 ++ Consume q :: l2 →
     AssertQueue queueName ∈ l1)
  ∧ (∀ l1 l2 tag,
       rpcs (play acts (new queueName prefetch exchanges binds))
       = l1 ++ Cancel tag :: l2 →
       ∃ q, Consume q ∈ l1).
Proof.
  assert (ordered queueName (play acts (new queueName prefetch exchanges binds)))
    as [_ _ _ _ _ H1 H2].
  { apply ordered_play; [apply wf_new|].
    split; simpl; try done.
    - intros [|? ?] ? ? [=].
    - intros [|? ?] ? ? [=]. }
  done.
Qed.

End ConsumerLifecycle.


(** ** PublishStream: a write from beginning to end (src/unnamed/part_013) *)

Module PublishStreamWrites.

Import AMQPPublishStream.

Definition is_WriteCallback (e : effect) : bool :=
  match e with WriteCallback _ => true | _ => false end.

Section Chunk.

Variable Buffer_from : heap → value → result (list byte).

(** The calls made for one chunk: those of [_write], followed, when
    [channel.publish] was called and did not throw, by those of
    [publishCallback] once the channel reports the outcome [confirm] of
    the publication.  A [publish] that threw is taken not to call back. *)
Definition write (h : heap) (publish_throws confirm : option error)
    (message : value) : list effect :=
  _write Buffer_from h publish_throws message
  ++ match verify Buffer_from h message, publish_throws with
     | Ok m, None => publishCallback m confirm
     | _, _ => []
     end.

(** X18. Every chunk is answered exactly once through the write callback -
    with the verification error, with what [publish] threw, with the
    error the channel reported, or without error once the broker has
    confirmed -, and [channel.publish] is called at most once, before
    that answer.  The message's own callback is called only after a
    write callback without error, and then exactly when it is truthy. *)
Theorem write_answered_exactly_once (h : heap) (publish_throws confirm : option error)
    (message : value) :
  (∃ err, List.filter is_WriteCallback (write h publish_throws confirm message)
          = [WriteCallback err]
     ∧ (err = None ↔ (∃ m, verify Buffer_from h message = Ok m)
                      ∧ publish_throws = None ∧ confirm = None))
  ∧ (length (List.filter is_Publish (write h publish_throws confirm message)) ≤ 1)%nat
  ∧ (∀ l1 l2 e r c o,
       write h publish_throws confirm message = l1 ++ Publish e r c o :: l2 →
       l1 = [])
  ∧ (∀ l1 l2 f,
       write h publish_throws confirm message = l1 ++ CustomPublishCallback f :: l2 →
       truthy f = true ∧ l2 = [] ∧ WriteCallback None ∈ l1
       ∧ get h message "callback" = Ok f)
  ∧ (∀ m, verify Buffer_from h message = Ok m → publish_throws = None →
       confirm = None → truthy (customPublishCallback m) = true →
       CustomPublishCallback (customPublishCallback m)
       ∈ write h publish_throws confirm message).
Proof.
  unfold write, _write.
  destruct (verify Buffer_from h message) as [m|ve] eqn:Hv.
  - destruct publish_throws as [pe|]; [|destruct confirm as [ce|]]; simpl.
    + split; [eexists; split; [reflexivity|]; split; [done|by intros (_ & [=] & _)]|].
      split; [lia|]. split.
      { intros [|x l1] l2 e r c o; [done|]. intros [= _ H].
        destruct l1 as [|y [|z l1]]; simplify_eq. }
      split; [|by intros m' _ [=]].
      intros [|x [|y [|z l1]]] l2 f H; simpl in H; simplify_eq.
    + split; [eexists; split; [reflexivity|]; split; [done|by intros (_ & _ & [=])]|].
      split; [lia|]. split.
      { intros [|x l1] l2 e r c o; [done|]. intros [= _ H].
        destruct l1 as [|y [|z l1]]; simplify_eq. }
      split; [|by intros m' _ _ [=]].
      intros [|x [|y [|z l1]]] l2 f H; simpl in H; simplify_eq.
    + assert (get h message "callback" = Ok (customPublishCallback m)
              ∨ customPublishCallback m = VNull) as Hcb.
      { revert Hv. unfold verify. destruct (negb _ || negb _); [done|].
        destruct (get h message "exchange"); simpl; [|done].
        destruct (get h message "routingKey"); simpl; [|done].
        destruct (get h message "content") as [c0|]; simpl; [|done].
        destruct (match as_Buffer h c0 with
                  | Some b => Ok b | None => Buffer_from h c0 end); simpl; [|done].
        destruct (get h message "options"); simpl; [|done].
        destruct (get h message "callback") as [cb|]; simpl; [|done].
        destruct (negb _); [done|]. intros [= <-]. simpl.
        unfold or_. destruct (truthy cb); [by left|by right]. }
      destruct (truthy (customPublishCallback m)) eqn:Ht; simpl.
      * split; [eexists; split; [reflexivity|]; split; [by eauto|done]|].
        split; [lia|]. split.
        { intros [|x l1] l2 e r c o; [done|]. intros [= _ H].
          destruct l1 as [|y [|z [|z' l1]]]; simplify_eq. }
        split.
        { intros [|x [|y [|z [|z' l1]]]] l2 f H; simpl in H; simplify_eq.
          split; [done|]. split; [done|].
          split; [apply list_elem_of_further, list_elem_of_here|].
          destruct Hcb as [Hcb|Hcb]; [done|]. by rewrite Hcb in Ht. }
        intros m' [= <-] _ _ _. do 2 apply list_elem_of_further.
        apply list_elem_of_here.
      * split; [eexists; split; [reflexivity|]; split; [by eauto|done]|].
        split; [lia|]. split.
        { intros [|x l1] l2 e r c o; [done|]. intros [= _ H].
          destruct l1 as [|y [|z l1]]; simplify_eq. }
        split; [|intros m' [= <-] _ _; congruence].
        intros [|x [|y [|z l1]]] l2 f H; simpl in H; simplify_eq.
  - simpl.
    split; [eexists; split; [reflexivity|]; split; [done|by intros ([m' [=]] & _)]|].
    split; [lia|]. split.
    { intros [|x [|y l1]] l2 e r c o H; simpl in H; simplify_eq. }
    split; [|by intros m' [=]].
    intros [|x [|y l1]] l2 f H; simpl in H; simplify_eq.
Qed.

(** X19. A chunk whose content is neither a Buffer nor convertible by
    [Buffer.from] is answered with the error [Buffer.from] threw, whatever
    its routing key: the content is converted before the routing key is
    looked at, and nothing is published. *)
Theorem conversion_error_comes_first (h : heap) (publish_throws : option error)
    (message c : value) (e : error) :
  is_object message = true →
  get h message "content" = Ok c → as_Buffer h c = None →
  Buffer_from h c = Throw e →
  _write Buffer_from h publish_throws message = [WriteCallback (Some e)].
Proof.
  unfold is_object, _write, verify. intros Ho Hc Hb He.
  apply andb_true_iff in Ho as [Ht Hty]. rewrite Ht, Hty. simpl.
  destruct message as [| | | | |l|]; try done.
  simpl in *. destruct (h !! l) as [[fs| |]|]; simpl in *;
    simplify_eq; by rewrite ?Hb, ?He.
Qed.

End Chunk.

(** A chunk with neither content nor routing key: the error is that of
    [Buffer.from], not the missing routing key. *)
Lemma conversion_error_comes_first_witness :
  ∃ e, _write Buffer_from_string {[ 1%positive := Obj ∅ ]} None (VRef 1%positive)
       = [WriteCallback (Some (TypeError e))].
Proof.
  eexists.
  apply (conversion_error_comes_first Buffer_from_string {[ 1%positive := Obj ∅ ]}
           None (VRef 1%positive) VUndefined); reflexivity.
Defined.

End PublishStreamWrites.


(** ** TieredListener: what the constructor refuses and what it declares
    (src/unnamed/part_004) *)

Module TieredListenerConstruction.

Import AMQPTieredListener.

(** The dead-letter exchange the constructor makes up when the caller
    names none. *)
Definition default_exchange (h : heap) (base : string) (v : value) : Prop :=
  ∃ ld lo, v = VRef ld
    ∧ h !! ld = Some (Obj {[ "name" := VString (base +:+ "DLX");
                              "type" := VString "direct";
                              "options" := VRef lo ]})
    ∧ h !! lo = Some (Obj {[ "durable" := VBool true ]}).

Section Constructor.

Variable ToString_other : heap → value → string.

(** X20. The constructor throws when [tiers] is [undefined], [null], a
    string, a number, a boolean, a function or a plain object without a
    [slice] method, and when it is an array one of whose elements is
    [undefined] or [null].  A Buffer is not refused: it has [slice] and
    [map]. *)
Theorem constructor_rejects_bad_tiers (h : heap) (base : string)
    (tiersV optsV : value) :
  (∀ lt, tiersV = VRef lt →
     ∃ o, h !! lt = Some o
       ∧ (∀ bs, o ≠ Buf bs)
       ∧ (∀ fs, o = Obj fs →
            typeof (default VUndefined (fs !! "slice")) ≠ TFunction)
       ∧ ∀ vs, o = Arr vs → VUndefined ∈ vs ∨ VNull ∈ vs) →
  ∃ e, AMQPTieredListener ToString_other h base tiersV optsV = Throw e.
Proof.
  intros Hbad.
  destruct (AMQPTieredListener ToString_other h base tiersV optsV)
    as [[cl h1]|e] eqn:E; [|by exists e].
  exfalso. apply construct_inv in E as [Ht _ _ _ _ _].
  destruct Ht as [(lt & vs & lt' & -> & Harr & _ & _ & _ & Hmap)
                 |(lt & bs & -> & Hbuf & _)].
  2:{ destruct (Hbad lt eq_refl) as (o & Ho & Hnb & _).
      by apply (Hnb bs), Hbuf. }
  destruct (Hbad lt eq_refl) as (o & Ho & _ & _ & Hvs).
  pose proof (Harr _ Ho) as ->.
  destruct (map_tiers_inv _ _ _ _ _ _ Hmap) as [Hlen Hall].
  assert (∀ v, v ∈ vs → ∃ name, get h1 v "name" = Ok name) as Hnames.
  { intros v [i Hi]%list_elem_of_lookup.
    destruct (lookup_lt_is_Some_2 (consumerConstructors cl) i) as [c Hc].
    { rewrite Hlen. by eapply lookup_lt_Some. }
    destruct (Hall _ _ Hc) as (Hvi & _ & name & Hname & _).
    exists name. congruence. }
  destruct (Hvs vs eq_refl) as [Hin|Hin];
    destruct (Hnames _ Hin) as [name Hname]; done.
Qed.

Lemma concat_deadLetterExchange_shape h v dlx e h' :
  concat_deadLetterExchange ToString_other h v dlx = Ok (e, h') →
  (∃ s, v = VString s ∧ e = VString (s +:+ to_string ToString_other h dlx) ∧ h' = h)
  ∨ (∃ l vs l', v = VRef l ∧ h !! l = Some (Arr vs) ∧ e = VRef l'
                ∧ h !! l' = None ∧ h' = <[l' := Arr (vs ++ [dlx])]> h).
Proof.
  unfold concat_deadLetterExchange. destruct v as [| | | |s|l|]; try done.
  - intros [= <- <-]. left. by exists s.
  - destruct (h !! l) as [[| vs |]|] eqn:Hl; try done.
    destruct (alloc (Arr (vs ++ [dlx])) h) as [l' h''] eqn:Ha.
    destruct (alloc_fresh _ _ _ _ Ha) as [Hf ->].
    intros [= <- <-]. right. by exists l, vs, l'.
Qed.

Lemma constructConsumer_exchanges h cl c spec :
  constructConsumer h cl c = Ok spec →
  consumer_exchanges spec = exchanges cl.
Proof.
  unfold constructConsumer.
  intros (? & _ & H)%bind_Ok. apply bind_Ok in H as (? & _ & H).
  apply bind_Ok in H as (? & _ & H). apply bind_Ok in H as (? & _ & H).
  apply bind_Ok in H as (? & _ & H). apply bind_Ok in H as (? & _ & H).
  apply bind_Ok in H as (? & _ & H). apply bind_Ok in H as (? & _ & H).
  apply bind_Ok in H as (? & _ & [= <-]). done.
Qed.

(** X21. The exchanges every tier declares are the caller's, followed by the
    dead-letter exchange: the array the closures hold is a new one, made
    of the elements of [options.exchanges] (none when the caller gave no
    exchanges) and of the dead-letter exchange, and each consumer is
    constructed with it.  The dead-letter exchange is the caller's
    [options.routing.deadLetterExchange] when that is truthy; otherwise
    it is a direct, durable exchange named [queueNameBase + "DLX"]. *)
Theorem dead_letter_exchange_is_declared (h : heap) (base : string)
    (tiersV optsV : value) (cl : closure) (h1 : heap) :
  AMQPTieredListener ToString_other h base tiersV optsV = Ok (cl, h1) →
  ∃ copied x,
    (if truthy optsV then own_fields h optsV else Ok ∅) = Ok copied
    ∧ get h1 (VRef (options cl)) "exchanges" = Ok x
    ∧ (truthy (default VUndefined (copied !! "exchanges")) = true →
       x = default VUndefined (copied !! "exchanges"))
    ∧ (truthy (default VUndefined (copied !! "exchanges")) = false →
       ∃ l, x = VRef l ∧ h !! l = None ∧ h1 !! l = Some (Arr []))
    ∧ (∀ lx ues, x = VRef lx → h1 !! lx = Some (Arr ues) →
       ∃ le, exchanges cl = VRef le ∧ h !! le = None
             ∧ h1 !! le = Some (Arr (ues ++ [deadLetterExchange cl])))
    ∧ (∀ c spec, constructConsumer h1 cl c = Ok spec →
       consumer_exchanges spec = exchanges cl)
    ∧ (truthy (default VUndefined (copied !! "routing")) = false →
       default_exchange h1 base (deadLetterExchange cl))
    ∧ (∀ lr rf, copied !! "routing" = Some (VRef lr) → h !! lr = Some (Obj rf) →
       if truthy (default VUndefined (rf !! "deadLetterExchange"))
       then deadLetterExchange cl = default VUndefined (rf !! "deadLetterExchange")
       else default_exchange h1 base (deadLetterExchange cl)).
Proof.
  unfold AMQPTieredListener.
  intros (copied & Hcopied & H)%bind_Ok.
  destruct (alloc (Obj copied) h) as [lo' h0] eqn:Ha.
  destruct (alloc_fresh _ _ _ _ Ha) as [Hlo ->].
  assert (<[lo' := Obj copied]> h !! lo' = Some (Obj copied)) as Hl0
    by apply lookup_insert_eq.
  assert (∀ l o, l ≠ lo' → h !! l = Some o →
            <[lo' := Obj copied]> h !! l = Some o) as Hp0.
  { intros l o Hne Hl. rewrite lookup_insert_ne; [done|congruence]. }
  apply bind_Ok in H as (ha & Hda & H).
  destruct (default_field_inv _ _ _ _ _ _ Hl0 Hda) as (q & Hla & Hq & Hpa & _).
  apply bind_Ok in H as (hb & Hdb & H).
  destruct (default_field_inv _ _ _ _ _ _ Hla Hdb) as (c & Hlb & Hc & Hpb & _).
  apply bind_Ok in H as (hc & Hdc & H).
  destruct (default_field_inv _ _ _ _ _ _ Hlb Hdc)
    as (x & Hlc & Hx & Hpc & Hx1 & Hx2).
  rewrite !lookup_insert_ne in Hx1, Hx2 by done.
  apply bind_Ok in H as (hd & Hdd & H).
  destruct (default_field_inv _ _ _ _ _ _ Hlc Hdd) as (b & Hld & Hb & Hpd & _).
  apply bind_Ok in H as (he & Hde & H).
  destruct (default_field_inv _ _ _ _ _ _ Hld Hde)
    as (r & Hle & Hr & Hpe & Hr1 & Hr2).
  rewrite !lookup_insert_ne in Hr1, Hr2 by done.
  assert (∀ l o, l ≠ lo' → h !! l = Some o → he !! l = Some o) as Hp.
  { intros l o Hne Hl. by apply Hpe, Hpd, Hpc, Hpb, Hpa, Hp0. }
  assert (∀ l, h !! l = None ∨ l ≠ lo') as Hdom.
  { intros l. destruct (decide (l = lo')) as [->|]; [by left|by right]. }
  apply bind_Ok in H as (handler & Hh & H).
  apply bind_Ok in H as (routing & Hrt & H).
  simpl in Hrt. rewrite Hle in Hrt. rewrite lookup_insert_eq in Hrt.
  injection Hrt as <-.
  apply bind_Ok in H as (dlx & Hdlx & H).
  destruct (if truthy dlx then (dlx, he) else _) as [dle hf] eqn:Hdle.
  assert (extends he hf
          ∧ (truthy dlx = true → dle = dlx)
          ∧ (truthy dlx = false →
             ∃ ld lo, dle = VRef ld ∧ he !! ld = None
               ∧ hf !! ld = Some (Obj {[ "name" := VString (base +:+ "DLX");
                                         "type" := VString "direct";
                                         "options" := VRef lo ]})
               ∧ hf !! lo = Some (Obj {[ "durable" := VBool true ]})))
    as (Hef & Hd1 & Hd2).
  { destruct (truthy dlx) eqn:Ht.
    - injection Hdle as <- <-. split; [apply extends_refl|]. split; [done|]. done.
    - destruct (alloc (Obj {[ "durable" := VBool true ]}) he) as [o ho] eqn:Ho.
      destruct (alloc_fresh _ _ _ _ Ho) as [Hfo ->].
      destruct (alloc _ (<[o := _]> he)) as [d hd'] eqn:Hd.
      destruct (alloc_fresh _ _ _ _ Hd) as [Hfd ->].
      injection Hdle as <- <-. split.
      { eapply extends_trans; by apply extends_insert_fresh. }
      split; [done|]. intros _. exists d, o.
      assert (d ≠ o) as Hne by (intros ->; by rewrite lookup_insert_eq in Hfd).
      split; [done|]. split.
      { by rewrite lookup_insert_ne in Hfd. }
      split; [by rewrite lookup_insert_eq|].
      rewrite lookup_insert_ne by done. by rewrite lookup_insert_eq. }
  apply bind_Ok in H as (ci & Hci & H).
  apply bind_Ok in H as ([tv hg] & Hsl & H).
  apply bind_Ok in H as (ex0 & Hex0 & H).
  apply bind_Ok in H as ([ex hh] & Hcc & H).
  apply bind_Ok in H as (cs & Hcs & [= <- <-]). simpl.
  assert (extends hf hg) as Hfg by (by eapply slice_extends).
  assert (extends he hg) as Heg by (eapply extends_trans; eassumption).
  assert (ex0 = x) as ->.
  { simpl in Hex0. rewrite (Heg _ _ Hle) in Hex0.
    rewrite lookup_insert_ne, lookup_insert_ne, lookup_insert_eq in Hex0 by done.
    by injection Hex0. }
  assert (extends hg hh) as Hgh.
  { apply concat_deadLetterExchange_inv in Hcc as [->|(l' & o & Hfl & ->)];
      [apply extends_refl|by apply extends_insert_fresh]. }
  assert (extends he hh) as Heh by (eapply extends_trans; eassumption).
  assert (extends hf hh) as Hfh by (eapply extends_trans; eassumption).
  assert (∀ l o, l ≠ lo' → hc !! l = Some o → hh !! l = Some o) as Hch.
  { intros l o Hl Ho. by apply Heh, Hpe, Hpd. }
  assert (∀ l, he !! l = None → h !! l = None) as Hnone.
  { intros l Hl. destruct (h !! l) as [o|] eqn:Ho; [|done].
    destruct (decide (l = lo')) as [->|Hne]; [congruence|].
    rewrite (Hp _ _ Hne Ho) in Hl. done. }
  assert (default_exchange_if : truthy dlx = false → default_exchange hh base dle).
  { intros Hf. destruct (Hd2 Hf) as (ld & lo & -> & _ & H1 & H2).
    exists ld, lo. split; [done|]. split; by apply Hfh. }
  exists copied, x. split; [done|].
  split.
  { simpl. rewrite (Heh _ _ Hle). by fields_lookup. }
  split; [done|]. split.
  { intros Hf. destruct (Hx2 Hf) as (l & -> & Hn & Hs).
    assert (l ≠ lo') as Hne' by congruence.
    exists l. split; [done|]. split; [|by apply Hch].
    destruct (h !! l) as [o|] eqn:Hl; [|done].
    pose proof (Hpb _ _ Hne' (Hpa _ _ Hne' (Hp0 _ _ Hne' Hl))). congruence. }
  split.
  { intros lx ues -> Hlx.
    apply concat_deadLetterExchange_shape in Hcc
      as [(s & [=] & _)|(l & vs & le & [= <-] & Hl & -> & Hfle & ->)].
    exists le. split; [done|]. split.
    { apply Hnone. destruct (he !! le) as [o|] eqn:Ho; [|done].
      rewrite (Heg _ _ Ho) in Hfle. done. }
    rewrite lookup_insert_eq.
    rewrite lookup_insert_ne in Hlx by congruence.
    assert (vs = ues) as -> by congruence. done. }
  split; [intros c0 spec; apply constructConsumer_exchanges|].
  split.
  - intros Hf. destruct (Hr2 Hf) as (l & -> & Hn & Hs).
    apply default_exchange_if.
    simpl in Hdlx. rewrite Hs in Hdlx. by injection Hdlx as <-.
  - intros lr rf Hcr Hlr.
    assert (r = VRef lr) as ->.
    { rewrite Hcr in Hr1. simpl in Hr1. by apply Hr1. }
    assert (lr ≠ lo') as Hne' by congruence.
    simpl in Hdlx. rewrite (Hp _ _ Hne' Hlr) in Hdlx. injection Hdlx as <-.
    destruct (truthy (default VUndefined (rf !! "deadLetterExchange"))) eqn:Ht.
    + by apply Hd1.
    + by apply default_exchange_if.
Qed.

End Constructor.

(** The listener of the example program, which names no dead-letter
    exchange and declares none of its own. *)
Lemma dead_letter_exchange_is_declared_witness :
  ∃ cl h1 le,
    AMQPTieredListener ToString_plain example_heap "jobs" (VRef 1) (VRef 5)
    = Ok (cl, h1)
    ∧ exchanges cl = VRef le
    ∧ h1 !! le = Some (Arr [deadLetterExchange cl])
    ∧ default_exchange h1 "jobs" (deadLetterExchange cl).
Proof.
  destruct (AMQPTieredListener ToString_plain example_heap "jobs" (VRef 1) (VRef 5))
    as [[cl h1]|e] eqn:E; [|vm_compute in E; discriminate E].
  destruct (dead_letter_exchange_is_declared ToString_plain example_heap "jobs"
              (VRef 1) (VRef 5) cl h1 E)
    as (copied & x & Hcopied & Hx & _ & Hx2 & Hex & _ & Hd & _).
  injection Hcopied as <-.
  destruct (Hx2 eq_refl) as (l & -> & _ & Hl).
  destruct (Hex l [] eq_refl Hl) as (le & Hle & _ & Harr).
  exists cl, h1, le. split; [reflexivity|]. split; [exact Hle|].
  split; [exact Harr|]. exact (Hd eq_refl).
Defined.

(** No tiers at all, a tier that is [null], and an object that is not an
    array. *)
Lemma constructor_rejects_bad_tiers_witness :
  (∃ e, AMQPTieredListener ToString_plain example_heap "jobs" VUndefined (VRef 5)
        = Throw e)
  ∧ (∃ e, AMQPTieredListener ToString_plain
            (<[9%positive := Arr [VRef 2; VNull]]> example_heap) "jobs"
            (VRef 9) (VRef 5) = Throw e)
  ∧ (∃ e, AMQPTieredListener ToString_plain example_heap "jobs" (VRef 2) (VRef 5)
          = Throw e).
Proof.
  split; [|split].
  - apply constructor_rejects_bad_tiers. intros lt [=].
  - apply constructor_rejects_bad_tiers. intros lt [= <-].
    eexists. split; [reflexivity|]. split; [done|]. split; [done|].
    intros vs [= <-]. right.
    apply list_elem_of_further, list_elem_of_here.
  - apply constructor_rejects_bad_tiers. intros lt [= <-].
    eexists. split; [reflexivity|]. split; [done|]. split; [|done].
    intros fs [= <-]. vm_compute. discriminate.
Defined.

(** A Buffer given as [tiers] passes the constructor: the listener is
    built, on that Buffer, and holds no closure. *)
Lemma buffer_tiers_are_accepted :
  ∃ cl h1,
    AMQPTieredListener ToString_plain
      (<[9%positive := Buf [Byte.x01; Byte.x02]]> example_heap) "jobs"
      (VRef 9) (VRef 5) = Ok (cl, h1)
    ∧ tiers cl = VRef 9
    ∧ consumerConstructors cl = [].
Proof.
  destruct (AMQPTieredListener ToString_plain
              (<[9%positive := Buf [Byte.x01; Byte.x02]]> example_heap) "jobs"
              (VRef 9) (VRef 5)) as [[cl h1]|e] eqn:E;
    [|vm_compute in E; discriminate E].
  exists cl, h1. split; [reflexivity|].
  vm_compute in E. injection E as <- _. split; reflexivity.
Qed.

End TieredListenerConstruction.


(** ** Listener (src/src/AMQPListener.ts) *)

Module AMQPListener.

Import AMQPConsumer.

Abbreviation Channel := nat.
Abbreviation Invocation := nat.
Abbreviation ConsumerId := nat.

(** A consumer factory, given by the arguments of the consumer it
    constructs on the channel it is handed. *)
Record ConsumerFactory := {
  queueName : string;
  prefetch : value;
  exchanges : list Exchange;
  binds : list Binding
}.

Definition construct (f : ConsumerFactory) : AMQPConsumer.world :=
  AMQPConsumer.new (queueName f) (prefetch f) (exchanges f) (binds f).

(** The fields of the class.  [_consumers] holds consumers by reference;
    [_destroy] is the closure of the latest invocation of [listen] that
    went past the guard, given by the number of that invocation. *)
Record t := {
  _consumerConstructors : list ConsumerFactory;
  _consumers : list ConsumerId;
  _started : bool;
  _destroy : option Invocation
}.

(** What a call returns: the promise made by the call, a promise that is
    already fulfilled ([Promise.resolve()]), or an exception. *)
Inductive returned :=
| Returns (n : nat)
| ReturnsResolved
| Throws (e : error).

(** The listener and what surrounds it: its channel manager; the
    invocations whose [channelCreated] and [channelClosed] are registered
    on the manager; the number of events of the manager already handed to
    the listeners; every consumer constructed so far, and for each the
    number of its events already handed to its listeners; the promise of
    each invocation of [listen]; the arguments of each [Promise.all] of
    [channelCreated], with the invocation it belongs to; the promise
    returned by each call of [stopListening] and the arguments of its
    [Promise.all]. *)
Record world := {
  self : t;
  _channelManager : AMQPChannelManager.world;
  on_create : list Invocation;
  on_close : list Invocation;
  dispatched : nat;
  consumers : list AMQPConsumer.world;
  heard : list nat;
  listen_promises : list (option outcome);
  consumePromises : list (Invocation * list (ConsumerId * option Promise));
  stop_promises : list (option outcome);
  stopPromises : list (list (ConsumerId * Promise))
}.

Definition new (consumerConstructors : list ConsumerFactory) : world :=
  {| self := {| _consumerConstructors := consumerConstructors; _consumers := [];
                _started := false; _destroy := None |};
     _channelManager := AMQPChannelManager.new None;
     on_create := []; on_close := []; dispatched := 0%nat;
     consumers := []; heard := [];
     listen_promises := []; consumePromises := [];
     stop_promises := []; stopPromises := [] |}.

Definition set_consumers (x : list ConsumerId) (l : t) : t :=
  {| _consumerConstructors := _consumerConstructors l; _consumers := x;
     _started := _started l; _destroy := _destroy l |}.

Definition set_started (x : bool) (l : t) : t :=
  {| _consumerConstructors := _consumerConstructors l; _consumers := _consumers l;
     _started := x; _destroy := _destroy l |}.

Definition set_destroy (x : option Invocation) (l : t) : t :=
  {| _consumerConstructors := _consumerConstructors l; _consumers := _consumers l;
     _started := _started l; _destroy := x |}.

Definition with_self (w : world) (l : t) : world :=
  {| self := l; _channelManager := _channelManager w;
     on_create := on_create w; on_close := on_close w; dispatched := dispatched w;
     consumers := consumers w; heard := heard w;
     listen_promises := listen_promises w; consumePromises := consumePromises w;
     stop_promises := stop_promises w; stopPromises := stopPromises w |}.

Definition with_channelManager (w : world) (m : AMQPChannelManager.world) : world :=
  {| self := self w; _channelManager := m;
     on_create := on_create w; on_close := on_close w; dispatched := dispatched w;
     consumers := consumers w; heard := heard w;
     listen_promises := listen_promises w; consumePromises := consumePromises w;
     stop_promises := stop_promises w; stopPromises := stopPromises w |}.

Definition with_consumers (w : world) (cs : list AMQPConsumer.world) : world :=
  {| self := self w; _channelManager := _channelManager w;
     on_create := on_create w; on_close := on_close w; dispatched := dispatched w;
     consumers := cs; heard := heard w;
     listen_promises := listen_promises w; consumePromises := consumePromises w;
     stop_promises := stop_promises w; stopPromises := stopPromises w |}.

Definition with_listen_promises (w : world) (ps : list (option outcome)) : world :=
  {| self := self w; _channelManager := _channelManager w;
     on_create := on_create w; on_close := on_close w; dispatched := dispatched w;
     consumers := consumers w; heard := heard w;
     listen_promises := ps; consumePromises := consumePromises w;
     stop_promises := stop_promises w; stopPromises := stopPromises w |}.

Definition with_stop_promises (w : world) (ps : list (option outcome)) : world :=
  {| self := self w; _channelManager := _channelManager w;
     on_create := on_create w; on_close := on_close w; dispatched := dispatched w;
     consumers := consumers w; heard := heard w;
     listen_promises := listen_promises w; consumePromises := consumePromises w;
     stop_promises := ps; stopPromises := stopPromises w |}.

(** Settling a promise: [resolve] and [reject] do nothing to a promise
    that is already settled. *)
Definition settle (n : nat) (o : outcome) (ps : list (option outcome))
  : list (option outcome) :=
  match ps !! n with
  | Some None => <[n := Some o]> ps
  | _ => ps
  end.

(** The executor of the promise of invocation [i]: the two listeners are
    registered on the manager and [_destroy] is set. *)
Definition executor (i : Invocation) (w : world) : world :=
  {| self := set_destroy (Some i) (self w);
     _channelManager := _channelManager w;
     on_create := on_create w ++ [i]; on_close := on_close w ++ [i];
     dispatched := dispatched w;
     consumers := consumers w; heard := heard w;
     listen_promises := listen_promises w ++ [None];
     consumePromises := consumePromises w;
     stop_promises := stop_promises w; stopPromises := stopPromises w |}.

(** [listen()].  An exception of [start()] leaves the executor unrun. *)
Definition listen (w : world) : returned * world :=
  if _started (self w) then (ReturnsResolved, w)
  else
    let w1 := with_self w (set_started true (self w)) in
    match AMQPChannelManager.start (_channelManager w1) with
    | Throw e => (Throws e, w1)
    | Ok m =>
        let i := length (listen_promises w1) in
        (Returns i, executor i (with_channelManager w1 m))
    end.

(** The closure [destroy] of invocation [i]. *)
Definition destroy (i : Invocation) (w : world) : world :=
  {| self := self w; _channelManager := _channelManager w;
     on_create := filter (λ j, j ≠ i) (on_create w);
     on_close := filter (λ j, j ≠ i) (on_close w);
     dispatched := dispatched w;
     consumers := consumers w; heard := heard w;
     listen_promises :=
       settle i (Rejected (Error "Manually stopped listening before it could start"))
         (listen_promises w);
     consumePromises := consumePromises w;
     stop_promises := stop_promises w; stopPromises := stopPromises w |}.

(** [consumer.stopConsuming()] on each consumer of [ids] in turn, with the
    promises returned. *)
Fixpoint stop_each (ids : list ConsumerId) (cs : list AMQPConsumer.world)
  : list (ConsumerId * Promise) * list AMQPConsumer.world :=
  match ids with
  | [] => ([], cs)
  | id :: ids' =>
      match cs !! id with
      | Some c =>
          let '(p, c') := stopConsuming c in
          let '(ps, cs') := stop_each ids' (<[id := c']> cs) in
          ((id, p) :: ps, cs')
      | None => stop_each ids' cs
      end
  end.

(** [stopListening()]. *)
Definition stopListening (w : world) : returned * world :=
  let w0 := with_self w (set_started false (self w)) in
  match (if _started (self w)
         then match _destroy (self w) with
              | Some i => Ok (destroy i w0)
              | None => Throw (TypeError "self._destroy is not a function")
              end
         else Ok w) with
  | Throw e => (Throws e, w0)
  | Ok w1 =>
      let '(ps, cs) := stop_each (_consumers (self w1)) (consumers w1) in
      (Returns (length (stop_promises w1)),
       {| self := self w1; _channelManager := _channelManager w1;
          on_create := on_create w1; on_close := on_close w1;
          dispatched := dispatched w1;
          consumers := cs; heard := heard w1;
          listen_promises := listen_promises w1;
          consumePromises := consumePromises w1;
          stop_promises := stop_promises w1 ++ [None];
          stopPromises := stopPromises w1 ++ [ps] |})
  end.

(** The body of [forEach(createConsumer)]: each factory makes a consumer,
    which is remembered and asked to consume. *)
Fixpoint create_each (fs : list ConsumerFactory) (cs : list AMQPConsumer.world)
  : list (ConsumerId * option Promise) * list AMQPConsumer.world :=
  match fs with
  | [] => ([], cs)
  | f :: fs' =>
      let '(p, c) := consume (construct f) in
      let '(ps, cs') := create_each fs' (cs ++ [c]) in
      ((length cs, p) :: ps, cs')
  end.

(** [channelCreated] of invocation [i]. *)
Definition channelCreated (i : Invocation) (channel : Channel) (w : world) : world :=
  let '(ps, cs) := create_each (_consumerConstructors (self w)) (consumers w) in
  {| self := set_consumers (map fst ps) (self w);
     _channelManager := _channelManager w;
     on_create := on_create w; on_close := on_close w; dispatched := dispatched w;
     consumers := cs;
     heard := heard w ++ replicate (length ps) 0%nat;
     listen_promises := listen_promises w;
     consumePromises := consumePromises w ++ [(i, ps)];
     stop_promises := stop_promises w; stopPromises := stopPromises w |}.

(** [channelClosed]. *)
Definition channelClosed (channel : Channel) (w : world) : world :=
  with_consumers w (snd (stop_each (_consumers (self w)) (consumers w))).

(** The ['cancel'] listener that [createConsumer] puts on each consumer. *)
Definition cancelled (c : AMQPConsumer.world) : AMQPConsumer.world :=
  if negb (isStopping c) then snd (consume c) else c.

Definition fulfilled (cs : list AMQPConsumer.world) (x : ConsumerId * option Promise)
  : bool :=
  match x.2 with
  | None => true
  | Some p =>
      match cs !! x.1 with
      | Some c =>
          match promises c !! p with
          | Some (_, Some Fulfilled) => true
          | _ => false
          end
      | None => false
      end
  end.

(** The first rejection among the promises given to [Promise.all]. *)
Fixpoint rejection (cs : list AMQPConsumer.world) (ps : list (ConsumerId * Promise))
  : option error :=
  match ps with
  | [] => None
  | (id, p) :: ps' =>
      match cs !! id with
      | Some c =>
          match promises c !! p with
          | Some (_, Some (Rejected e)) => Some e
          | _ => rejection cs ps'
          end
      | None => rejection cs ps'
      end
  end.

(** The reaction to [Promise.all(consumePromises)] of [channelCreated]:
    [resolve] when all are fulfilled, nothing on a rejection. *)
Definition allConsumed (g : nat) (w : world) : world :=
  match consumePromises w !! g with
  | Some (i, ps) =>
      if forallb (fulfilled (consumers w)) ps
      then with_listen_promises w (settle i Fulfilled (listen_promises w))
      else w
  | None => w
  end.

(** The reaction to [Promise.all(...)] of [stopListening]: the manager is
    stopped when all are fulfilled, and the promise returned follows. *)
Definition allStopped (s : nat) (w : world) : world :=
  match stopPromises w !! s, stop_promises w !! s with
  | Some ps, Some None =>
      match rejection (consumers w) ps with
      | Some e => with_stop_promises w (<[s := Some (Rejected e)]> (stop_promises w))
      | None =>
          if forallb (λ x, fulfilled (consumers w) (x.1, Some x.2)) ps
          then with_stop_promises
                 (with_channelManager w (AMQPChannelManager.stop (_channelManager w)))
                 (<[s := Some Fulfilled]> (stop_promises w))
          else w
      end
  | _, _ => w
  end.

(** The next event of the manager is handed to the listeners registered
    on it at that moment. *)
Definition dispatch (w : world) : world :=
  let w1 :=
    {| self := self w; _channelManager := _channelManager w;
       on_create := on_create w; on_close := on_close w;
       dispatched := S (dispatched w);
       consumers := consumers w; heard := heard w;
       listen_promises := listen_promises w; consumePromises := consumePromises w;
       stop_promises := stop_promises w; stopPromises := stopPromises w |} in
  match AMQPChannelManager.events (_channelManager w) !! dispatched w with
  | Some (AMQPChannelManager.EmitCreate c) =>
      foldl (λ w i, channelCreated i c w) w1 (on_create w)
  | Some (AMQPChannelManager.EmitClose c) =>
      foldl (λ w _, channelClosed c w) w1 (on_close w)
  | None => w
  end.

(** The next event of consumer [id] is handed to its listeners; the
    listener of ['message'] is the caller's. *)
Definition hear (id : ConsumerId) (w : world) : world :=
  match consumers w !! id, heard w !! id with
  | Some c, Some n =>
      match AMQPConsumer.events c !! n with
      | Some e =>
          {| self := self w; _channelManager := _channelManager w;
             on_create := on_create w; on_close := on_close w;
             dispatched := dispatched w;
             consumers := match e with
                          | EmitCancel => <[id := cancelled c]> (consumers w)
                          | EmitMessage _ => consumers w
                          end;
             heard := <[id := S n]> (heard w);
             listen_promises := listen_promises w;
             consumePromises := consumePromises w;
             stop_promises := stop_promises w; stopPromises := stopPromises w |}
      | None => w
      end
  | _, _ => w
  end.

(** What can happen to a listener: calls of its two methods, and whatever
    can happen to its manager and to its consumers. *)
Inductive event :=
| CallListen
| CallStopListening
| Manager (e : AMQPChannelManager.event)
| Dispatch
| Consumer (id : ConsumerId) (a : ConsumerLifecycle.action)
| Hear (id : ConsumerId)
| AllConsumed (g : nat)
| AllStopped (s : nat).

Definition step (e : event) (w : world) : world :=
  match e with
  | CallListen => snd (listen w)
  | CallStopListening => snd (stopListening w)
  | Manager e => with_channelManager w (AMQPChannelManager.step e (_channelManager w))
  | Dispatch => dispatch w
  | Consumer id a =>
      match consumers w !! id with
      | Some c => with_consumers w (<[id := ConsumerLifecycle.act a c]> (consumers w))
      | None => w
      end
  | Hear id => hear id w
  | AllConsumed g => allConsumed g w
  | AllStopped s => allStopped s w
  end.

Definition run (es : list event) (w : world) : world :=
  foldl (λ w e, step e w) w es.


(** Consumers as the listener needs them: well formed, and with their
    stored stop promise in step with their pending chain. *)
Definition good (c : AMQPConsumer.world) : Prop :=
  wf c ∧ ConsumerLifecycle.stopping_ok c.

(** [c'] still has the promises of [c], of the same kinds. *)
Definition keeps (c c' : AMQPConsumer.world) : Prop :=
  ∀ p k o, promises c !! p = Some (k, o) → ∃ o', promises c' !! p = Some (k, o').

Definition grows (cs cs' : list AMQPConsumer.world) : Prop :=
  ∀ id c, cs !! id = Some c → ∃ c', cs' !! id = Some c' ∧ keeps c c'.

Definition stop_promise_of (cs : list AMQPConsumer.world) (x : ConsumerId * Promise)
  : Prop :=
  ∃ c k o, cs !! x.1 = Some c ∧ promises c !! x.2 = Some (k, o) ∧ k ≠ ConsumePromise.

Record sound (w : world) : Prop := {
  consumers_good : Forall good (consumers w);
  groups_known : ∀ s ps, stopPromises w !! s = Some ps →
                 Forall (stop_promise_of (consumers w)) ps;
  stops_fulfilled : ∀ s o, stop_promises w !! s = Some (Some o) → o = Fulfilled
}.

Record registered (w : world) : Prop := {
  same_listeners : on_close w = on_create w;
  listeners_nodup : NoDup (on_create w);
  listeners_started : ∀ i, i ∈ on_create w →
                      _started (self w) = true ∧ _destroy (self w) = Some i;
  listeners_known : ∀ i, i ∈ on_create w → (i < length (listen_promises w))%nat
}.

Definition stopped_by_hand : error :=
  Error "Manually stopped listening before it could start".

(** The factories are those given to the constructor, and [_consumers]
    holds no consumer twice. *)
Definition held (fs : list ConsumerFactory) (w : world) : Prop :=
  _consumerConstructors (self w) = fs ∧ NoDup (_consumers (self w)).

(** *** Consumers under the listener *)

Lemma keeps_refl c : keeps c c.
Proof. intros p k o H. by exists o. Qed.

Lemma keeps_trans c1 c2 c3 : keeps c1 c2 → keeps c2 c3 → keeps c1 c3.
Proof. intros H12 H23 p k o H. destruct (H12 _ _ _ H) as [o' H']. by eapply H23. Qed.

Lemma grows_refl cs : grows cs cs.
Proof. intros id c H. exists c. split; [done|apply keeps_refl]. Qed.

Lemma grows_trans cs1 cs2 cs3 : grows cs1 cs2 → grows cs2 cs3 → grows cs1 cs3.
Proof.
  intros H12 H23 id c H. destruct (H12 _ _ H) as (c2 & H2 & K2).
  destruct (H23 _ _ H2) as (c3 & H3 & K3). exists c3. split; [done|].
  by eapply keeps_trans.
Qed.

Lemma grows_insert cs id c c' :
  cs !! id = Some c → keeps c c' → grows cs (<[id := c']> cs).
Proof.
  intros Hid Hk id' c0 H0. destruct (decide (id = id')) as [<-|Hne].
  - exists c'. rewrite list_lookup_insert_eq by (by eapply lookup_lt_Some).
    split; [done|]. assert (c0 = c) as -> by congruence. done.
  - exists c0. rewrite list_lookup_insert_ne by done. split; [done|apply keeps_refl].
Qed.

Lemma grows_app cs l : grows cs (cs ++ l).
Proof.
  intros id c H. exists c. split; [|apply keeps_refl].
  by apply lookup_app_l_Some.
Qed.

Lemma stop_promise_of_grows cs cs' x :
  grows cs cs' → stop_promise_of cs x → stop_promise_of cs' x.
Proof.
  intros Hg (c & k & o & Hc & Hp & Hk). destruct (Hg _ _ Hc) as (c' & Hc' & Hkeep).
  destruct (Hkeep _ _ _ Hp) as [o' Hp']. by exists c', k, o'.
Qed.

Lemma good_construct f : good (construct f).
Proof. split; [apply wf_new|]. split; simpl; [intros sp x|intros sp]; done. Qed.

Lemma good_step (e : AMQPConsumer.event) c : good c → good (AMQPConsumer.step e c).
Proof.
  intros [H1 H2]. split; [by apply wf_step|by apply ConsumerLifecycle.stopping_step].
Qed.

Lemma good_act (a : ConsumerLifecycle.action) c :
  good c → good (ConsumerLifecycle.act a c).
Proof.
  intros [H1 H2].
  split; [by apply ConsumerLifecycle.wf_act|by apply ConsumerLifecycle.stopping_act].
Qed.

Lemma keeps_step (e : AMQPConsumer.event) c : good c → keeps c (AMQPConsumer.step e c).
Proof. intros [H1 _] p k o Hp. by eapply ConsumerLifecycle.promise_kept_step. Qed.

Lemma good_cancelled c : good c → good (cancelled c) ∧ keeps c (cancelled c).
Proof.
  intros Hc. unfold cancelled. destruct (negb _); [|split; [done|apply keeps_refl]].
  split; [apply (good_step CallConsume _ Hc)|apply (keeps_step CallConsume _ Hc)].
Qed.

Lemma stop_each_sound ids cs :
  Forall good cs →
  Forall good (stop_each ids cs).2 ∧ grows cs (stop_each ids cs).2
  ∧ Forall (stop_promise_of (stop_each ids cs).2) (stop_each ids cs).1.
Proof.
  revert cs. induction ids as [|id ids IH]; intros cs Hcs; simpl.
  { split; [done|]. split; [apply grows_refl|done]. }
  destruct (cs !! id) as [c|] eqn:Hid; [|by apply IH].
  pose proof (proj1 (Forall_lookup _ _) Hcs _ _ Hid) as Hc.
  pose proof (good_step CallStopConsuming _ Hc) as Hc'.
  pose proof (keeps_step CallStopConsuming _ Hc) as Hk.
  destruct Hc as [Hwf Hst].
  destruct (ConsumerLifecycle.stopConsuming_promise_kind c Hwf Hst)
    as (k & o & Hp & Hne).
  simpl in Hc', Hk. destruct (stopConsuming c) as [p c'] eqn:E. simpl in *.
  assert (Forall good (<[id := c']> cs)) as Hcs' by by apply Forall_insert.
  destruct (IH _ Hcs') as (H1 & H2 & H3).
  destruct (stop_each ids (<[id := c']> cs)) as [ps cs''] eqn:E'. simpl in *.
  split; [done|]. split.
  { eapply grows_trans; [|exact H2]. by eapply grows_insert. }
  apply Forall_cons. split; [|done].
  eapply stop_promise_of_grows; [exact H2|].
  exists c', k, o. simpl.
  rewrite list_lookup_insert_eq by (by eapply lookup_lt_Some). done.
Qed.

Lemma create_each_sound fs cs :
  Forall good cs →
  Forall good (create_each fs cs).2 ∧ grows cs (create_each fs cs).2.
Proof.
  revert cs. induction fs as [|f fs IH]; intros cs Hcs.
  { split; [done|apply grows_refl]. }
  change (create_each (f :: fs) cs)
    with (let '(p, c) := consume (construct f) in
          let '(ps, cs') := create_each fs (cs ++ [c]) in
          ((length cs, p) :: ps, cs')).
  pose proof (good_step CallConsume _ (good_construct f)) as Hc.
  change (AMQPConsumer.step CallConsume ?x) with (snd (consume x)) in Hc.
  destruct (consume (construct f)) as [p c] eqn:E. simpl in Hc |- *.
  assert (Forall good (cs ++ [c])) as Hcs'.
  { apply Forall_app. split; [done|]. by apply Forall_singleton. }
  destruct (IH _ Hcs') as (H1 & H2).
  destruct (create_each fs (cs ++ [c])) as [ps cs''] eqn:E'. simpl in *.
  split; [done|]. eapply grows_trans; [apply grows_app|exact H2].
Qed.

Lemma rejection_none cs ps :
  Forall good cs → Forall (stop_promise_of cs) ps → rejection cs ps = None.
Proof.
  intros Hcs. induction ps as [|[id p] ps IH]; [done|].
  intros [(c & k & o & Hc & Hp & Hk) Hps]%Forall_cons. simpl in *.
  rewrite Hc, Hp. destruct o as [[|e]|]; try by apply IH.
  destruct (proj1 (Forall_lookup _ _) Hcs _ _ Hc) as [Hwf _].
  by pose proof (wf_rejected c Hwf _ _ _ Hp).
Qed.


Lemma sound_consumers (w w' : world) :
  sound w → Forall good (consumers w') → grows (consumers w) (consumers w') →
  stopPromises w' = stopPromises w → stop_promises w' = stop_promises w →
  sound w'.
Proof.
  intros [H1 H2 H3] Hg Hgr Hs Hp. split; [done| |by rewrite Hp].
  intros s ps. rewrite Hs. intros Hps%H2.
  eapply Forall_impl; [exact Hps|]. intros x. by apply stop_promise_of_grows.
Qed.

Lemma sound_same (w w' : world) :
  sound w → consumers w' = consumers w →
  stopPromises w' = stopPromises w → stop_promises w' = stop_promises w →
  sound w'.
Proof.
  intros Hw Hc Hs Hp. apply (sound_consumers w); try done; rewrite Hc.
  - apply Hw.
  - apply grows_refl.
Qed.

Lemma sound_channelCreated i c w : sound w → sound (channelCreated i c w).
Proof.
  intros Hw. pose proof (consumers_good w Hw) as Hg.
  destruct (create_each_sound (_consumerConstructors (self w)) _ Hg) as [H1 H2].
  unfold channelCreated.
  destruct (create_each _ _) as [ps cs]. by apply (sound_consumers w).
Qed.

Lemma sound_channelClosed c w : sound w → sound (channelClosed c w).
Proof.
  intros Hw. pose proof (consumers_good w Hw) as Hg.
  destruct (stop_each_sound (_consumers (self w)) _ Hg) as (H1 & H2 & _).
  by apply (sound_consumers w).
Qed.

Lemma sound_foldl {A} (f : world → A → world) (l : list A) (w : world) :
  (∀ w a, sound w → sound (f w a)) → sound w → sound (foldl f w l).
Proof.
  intros Hf. revert w. induction l as [|a l IH]; intros w Hw; [done|].
  simpl. by apply IH, Hf.
Qed.

Lemma sound_step (e : event) (w : world) : sound w → sound (step e w).
Proof.
  intros Hw. destruct e as [| |e| |id a|id|g|s]; simpl.
  - unfold listen. destruct (_started (self w)); [done|]. simpl.
    destruct (AMQPChannelManager.start _); simpl; by apply (sound_same w).
  - unfold stopListening.
    destruct (if _started (self w) then _ else _) as [w1|e] eqn:E; simpl.
    2:{ by apply (sound_same w). }
    assert (consumers w1 = consumers w ∧ stopPromises w1 = stopPromises w
            ∧ stop_promises w1 = stop_promises w) as (Hc & Hs & Hp).
    { destruct (_started (self w)); [|by injection E as <-].
      destruct (_destroy (self w)); [|done]. by injection E as <-. }
    assert (sound w1) as Hw1 by by apply (sound_same w).
    pose proof (consumers_good w1 Hw1) as Hg.
    destruct (stop_each_sound (_consumers (self w1)) _ Hg) as (H1 & H2 & H3).
    destruct (stop_each _ _) as [ps cs]. simpl in *.
    split; simpl.
    + done.
    + intros s ps'. intros [Hold|[_ Hnew]]%lookup_app_Some.
      * eapply Forall_impl; [exact (groups_known w1 Hw1 _ _ Hold)|].
        intros x. by apply stop_promise_of_grows.
      * destruct (s - _)%nat; [|done]. by injection Hnew as <-.
    + intros s o. intros [Hold|[_ Hnew]]%lookup_app_Some.
      * by eapply (stops_fulfilled w1).
      * destruct (s - _)%nat; done.
  - by apply (sound_same w).
  - unfold dispatch.
    destruct (AMQPChannelManager.events _ !! _) as [[c|c]|]; [| |done].
    + apply sound_foldl; [intros; by apply sound_channelCreated|].
      by apply (sound_same w).
    + apply sound_foldl; [intros; by apply sound_channelClosed|].
      by apply (sound_same w).
  - destruct (consumers w !! id) as [c|] eqn:Hc; [|done].
    pose proof (proj1 (Forall_lookup _ _) (consumers_good w Hw) _ _ Hc) as Hgc.
    apply (sound_consumers w); simpl; try done.
    + apply Forall_insert; [apply Hw|by apply good_act].
    + eapply grows_insert; [done|]. intros p k o Hp.
      destruct Hgc as [Hwf _]. by eapply ConsumerLifecycle.promise_kept_act.
  - unfold hear. destruct (consumers w !! id) as [c|] eqn:Hc; [|done].
    destruct (heard w !! id); [|done].
    destruct (AMQPConsumer.events c !! _) as [[|m]|]; [| |done].
    + pose proof (proj1 (Forall_lookup _ _) (consumers_good w Hw) _ _ Hc) as Hgc.
      destruct (good_cancelled c Hgc) as [H1 H2].
      apply (sound_consumers w); simpl; try done.
      * apply Forall_insert; [apply Hw|done].
      * by eapply grows_insert.
    + by apply (sound_same w).
  - unfold allConsumed. destruct (consumePromises w !! g) as [[i ps]|]; [|done].
    destruct (forallb _ _); [|done]. by apply (sound_same w).
  - unfold allStopped. destruct (stopPromises w !! s) as [ps|] eqn:Hps; [|done].
    destruct (stop_promises w !! s) as [[o|]|] eqn:Hs; try done.
    rewrite (rejection_none _ _ (consumers_good w Hw) (groups_known w Hw _ _ Hps)).
    destruct (forallb _ _); [|done].
    destruct Hw as [H1 H2 H3]. split; simpl; try done.
    intros s' o'. destruct (decide (s = s')) as [<-|Hne].
    + rewrite list_lookup_insert_eq by (by eapply lookup_lt_Some). by intros [= <-].
    + rewrite list_lookup_insert_ne by done. apply H3.
Qed.

Lemma sound_run (es : list event) (w : world) : sound w → sound (run es w).
Proof.
  revert w. induction es as [|e es IH]; intros w Hw; [done|].
  simpl. by apply IH, sound_step.
Qed.

Lemma sound_new fs : sound (new fs).
Proof. split; simpl; [done|intros s ps|intros s o]; by rewrite lookup_nil. Qed.

(** X22. The promise [stopListening()] returns is never rejected.  It is
    fulfilled by the reaction to [Promise.all], which has just called
    [stop()] on the channel manager; and that reaction fulfils it as soon
    as every promise returned by the consumers' [stopConsuming()] is
    settled. *)
Theorem stopListening_stops_the_manager (fs : list ConsumerFactory)
    (es : list event) :
  (∀ s o, stop_promises (run es (new fs)) !! s = Some (Some o) → o = Fulfilled)
  ∧ (∀ e s o, stop_promises (run es (new fs)) !! s = Some None →
       stop_promises (step e (run es (new fs))) !! s = Some (Some o) →
       e = AllStopped s
       ∧ AMQPChannelManager._started
           (AMQPChannelManager.mgr (_channelManager (step e (run es (new fs)))))
         = false)
  ∧ (∀ s ps, stopPromises (run es (new fs)) !! s = Some ps →
       stop_promises (run es (new fs)) !! s = Some None →
       (∀ id p, (id, p) ∈ ps →
          ∃ c k o, consumers (run es (new fs)) !! id = Some c
                   ∧ promises c !! p = Some (k, Some o)) →
       stop_promises (step (AllStopped s) (run es (new fs))) !! s
       = Some (Some Fulfilled)).
Proof.
  set (w := run es (new fs)).
  assert (sound w) as Hw by apply sound_run, sound_new.
  clearbody w. split; [apply Hw|]. split.
  - intros e s o Hs.
    destruct e as [| |e| |id a|id|g|s']; simpl.
    + unfold listen. destruct (_started (self w)); [(simpl; intros; congruence)|]. simpl.
      destruct (AMQPChannelManager.start _); simpl; (simpl; intros; congruence).
    + unfold stopListening.
      destruct (if _started (self w) then _ else _) as [w1|e] eqn:E; simpl.
      2:{ (simpl; intros; congruence). }
      assert (stop_promises w1 = stop_promises w) as Hp.
      { destruct (_started (self w)); [|by injection E as <-].
        destruct (_destroy (self w)); [|done]. by injection E as <-. }
      destruct (stop_each _ _) as [ps cs]. simpl. rewrite Hp.
      rewrite lookup_app_l by (by eapply lookup_lt_Some). (simpl; intros; congruence).
    + (simpl; intros; congruence).
    + unfold dispatch.
      destruct (AMQPChannelManager.events _ !! _) as [[c|c]|]; [| |(simpl; intros; congruence)].
      * assert (∀ l w0, stop_promises (foldl (λ w i, channelCreated i c w) w0 l)
                        = stop_promises w0) as ->.
        { induction l as [|i l IH]; intros w0; [done|]. simpl. rewrite IH.
          unfold channelCreated. by destruct (create_each _ _). }
        simpl. (simpl; intros; congruence).
      * assert (∀ l w0, stop_promises (foldl (λ w (_ : nat), channelClosed c w) w0 l)
                        = stop_promises w0) as ->.
        { induction l as [|i l IH]; intros w0; [done|]. simpl. by rewrite IH. }
        simpl. (simpl; intros; congruence).
    + destruct (consumers w !! id); simpl; (simpl; intros; congruence).
    + unfold hear. destruct (consumers w !! id) as [c|]; [|(simpl; intros; congruence)].
      destruct (heard w !! id); [|(simpl; intros; congruence)].
      destruct (AMQPConsumer.events c !! _) as [[|m]|]; simpl; (simpl; intros; congruence).
    + unfold allConsumed. destruct (consumePromises w !! g) as [[i ps]|]; [|(simpl; intros; congruence)].
      destruct (forallb _ _); simpl; (simpl; intros; congruence).
    + unfold allStopped. destruct (stopPromises w !! s') as [ps|] eqn:Hps; [|(simpl; intros; congruence)].
      destruct (stop_promises w !! s') as [[o'|]|] eqn:Hs'; try (simpl; intros; congruence).
      rewrite (rejection_none _ _ (consumers_good w Hw) (groups_known w Hw _ _ Hps)).
      destruct (forallb _ _); [|(simpl; intros; congruence)]. simpl.
      destruct (decide (s' = s)) as [->|Hne].
      * intros _. split; [done|].
        apply ChannelManagerLifecycle.manager_stop_stops.
      * rewrite list_lookup_insert_ne by done. (simpl; intros; congruence).
  - intros s ps Hps Hs Hall.
    change (step (AllStopped s) w) with (allStopped s w).
    unfold allStopped. rewrite Hps, Hs.
    rewrite (rejection_none _ _ (consumers_good w Hw) (groups_known w Hw _ _ Hps)).
    assert (forallb (λ x, fulfilled (consumers w) (x.1, Some x.2)) ps = true) as ->.
    { apply forallb_forall. intros [id p] Hin%list_elem_of_In.
      destruct (Hall _ _ Hin) as (c & k & o & Hc & Hp).
      unfold fulfilled. simpl. rewrite Hc, Hp.
      destruct o as [|e]; [done|].
      destruct (proj1 (Forall_lookup _ _) (consumers_good w Hw) _ _ Hc) as [Hwf _].
      pose proof (wf_rejected c Hwf _ _ _ Hp) as ->.
      pose proof (proj1 (Forall_forall _ _) (groups_known w Hw _ _ Hps) _ Hin)
        as (c' & k' & o' & Hc' & Hp' & Hk').
      simpl in *. congruence. }
    simpl. by rewrite list_lookup_insert_eq by (by eapply lookup_lt_Some).
Qed.


(** *** The registration on the manager *)

Lemma length_settle n o ps : length (settle n o ps) = length ps.
Proof. unfold settle. destruct (ps !! n) as [[|]|]; by rewrite ?length_insert. Qed.

Lemma registered_same (w w' : world) :
  on_create w' = on_create w → on_close w' = on_close w →
  _started (self w') = _started (self w) → _destroy (self w') = _destroy (self w) →
  (length (listen_promises w) ≤ length (listen_promises w'))%nat →
  registered w → registered w'.
Proof.
  intros H1 H2 H3 H4 H5 [Ha Hb Hc Hd].
  split; rewrite ?H1, ?H2, ?H3, ?H4; try done.
  intros i Hi. pose proof (Hd _ Hi). lia.
Qed.

Lemma registered_foldl {A} (f : world → A → world) (l : list A) (w : world) :
  (∀ w a, registered w → registered (f w a)) → registered w →
  registered (foldl f w l).
Proof.
  intros Hf. revert w. induction l as [|a l IH]; intros w Hw; [done|].
  simpl. by apply IH, Hf.
Qed.

Lemma registered_none (w : world) :
  registered w → _started (self w) = false ∨ _destroy (self w) = None →
  on_create w = [] ∧ on_close w = [].
Proof.
  intros [Ha Hb Hc Hd] H. rewrite Ha.
  destruct (on_create w) as [|i l]; [done|].
  destruct (Hc i) as [H1 H2]; [apply list_elem_of_here|].
  destruct H; congruence.
Qed.

Lemma registered_step (e : event) (w : world) : registered w → registered (step e w).
Proof.
  intros Hw. destruct e as [| |e| |id a|id|g|s]; simpl.
  - unfold listen. destruct (_started (self w)) eqn:Hs; [done|]. simpl.
    destruct (registered_none w Hw) as [H1 H2]; [by left|].
    destruct (AMQPChannelManager.start _); simpl.
    + split; simpl; rewrite ?H1, ?H2; simpl; try done.
      * apply NoDup_singleton.
      * intros i ->%list_elem_of_singleton. done.
      * intros i ->%list_elem_of_singleton. rewrite length_app. simpl. lia.
    + split; simpl; rewrite ?H1, ?H2; try done.
      * by apply NoDup_nil.
      * intros i []%elem_of_nil.
      * intros i []%elem_of_nil.
  - unfold stopListening.
    assert (∀ w1 : world,
              on_create w1 = [] → on_close w1 = [] →
              registered
                (let '(ps, cs) := stop_each (_consumers (self w1)) (consumers w1) in
                 (Returns (length (stop_promises w1)),
                  {| self := self w1; _channelManager := _channelManager w1;
                     on_create := on_create w1; on_close := on_close w1;
                     dispatched := dispatched w1;
                     consumers := cs; heard := heard w1;
                     listen_promises := listen_promises w1;
                     consumePromises := consumePromises w1;
                     stop_promises := stop_promises w1 ++ [None];
                     stopPromises := stopPromises w1 ++ [ps] |})).2) as Hempty.
    { intros w1 H1 H2. destruct (stop_each _ _) as [ps cs]. simpl.
      split; simpl; rewrite ?H1, ?H2; try done.
      - by apply NoDup_nil.
      - intros i []%elem_of_nil.
      - intros i []%elem_of_nil. }
    destruct (_started (self w)) eqn:Hs.
    + destruct (_destroy (self w)) as [i|] eqn:Hd.
      * apply Hempty; simpl.
        -- destruct Hw as [Ha Hb Hc Hdd].
           apply elem_of_nil_inv.
           intros j [Hne Hj]%list_elem_of_filter.
           destruct (Hc _ Hj) as [_ H]. congruence.
        -- destruct Hw as [Ha Hb Hc Hdd]. rewrite Ha.
           apply elem_of_nil_inv.
           intros j [Hne Hj]%list_elem_of_filter.
           destruct (Hc _ Hj) as [_ H]. congruence.
      * simpl. destruct (registered_none w Hw) as [H1 H2]; [by right|].
        split; simpl; rewrite ?H1, ?H2; try done.
        -- by apply NoDup_nil.
        -- intros i []%elem_of_nil.
        -- intros i []%elem_of_nil.
    + destruct (registered_none w Hw) as [H1 H2]; [by left|]. by apply Hempty.
  - revert Hw. by apply registered_same.
  - unfold dispatch.
    destruct (AMQPChannelManager.events _ !! _) as [[c|c]|]; [| |done].
    + apply registered_foldl; [|revert Hw; by apply registered_same].
      intros w0 i. apply registered_same; unfold channelCreated;
        by destruct (create_each _ _).
    + apply registered_foldl; [|revert Hw; by apply registered_same].
      intros w0 i. by apply registered_same.
  - destruct (consumers w !! id); [|done]. revert Hw. by apply registered_same.
  - unfold hear. destruct (consumers w !! id) as [c|]; [|done].
    destruct (heard w !! id); [|done].
    destruct (AMQPConsumer.events c !! _); [|done].
    revert Hw. by apply registered_same.
  - unfold allConsumed. destruct (consumePromises w !! g) as [[i ps]|]; [|done].
    destruct (forallb _ _); [|done]. revert Hw.
    apply registered_same; simpl; try done. by rewrite length_settle.
  - unfold allStopped. destruct (stopPromises w !! s) as [ps|]; [|done].
    destruct (stop_promises w !! s) as [[o|]|]; try done.
    destruct (rejection _ _); [revert Hw; by apply registered_same|].
    destruct (forallb _ _); [|done]. revert Hw. by apply registered_same.
Qed.

Lemma registered_run (es : list event) (w : world) :
  registered w → registered (run es w).
Proof.
  revert w. induction es as [|e es IH]; intros w Hw; [done|].
  simpl. by apply IH, registered_step.
Qed.

Lemma registered_new fs : registered (new fs).
Proof.
  split; simpl; [done|by apply NoDup_nil|intros i []%elem_of_nil..].
Qed.

(** X23. In every run, the listeners of ['create'] and of ['close'] on the
    manager are those of the same invocation of [listen], and of at most
    one: none, or exactly the pair of the invocation whose closure
    [_destroy] holds, on a listener that is started.  So an event of the
    manager is handled at most once, however often [listen] and
    [stopListening] have been called. *)
Theorem one_pair_of_listeners (fs : list ConsumerFactory) (es : list event) :
  on_close (run es (new fs)) = on_create (run es (new fs))
  ∧ (on_create (run es (new fs)) = []
     ∨ ∃ i, on_create (run es (new fs)) = [i]
            ∧ _started (self (run es (new fs))) = true
            ∧ _destroy (self (run es (new fs))) = Some i
            ∧ is_Some (listen_promises (run es (new fs)) !! i)).
Proof.
  assert (registered (run es (new fs))) as [Ha Hb Hc Hd]
    by apply registered_run, registered_new.
  split; [done|].
  destruct (on_create (run es (new fs))) as [|i l]; [by left|]. right.
  destruct (Hc i) as [H1 H2]; [apply list_elem_of_here|].
  exists i. split.
  - destruct l as [|j l]; [done|]. exfalso.
    destruct (Hc j) as [_ H3]; [apply list_elem_of_further, list_elem_of_here|].
    assert (j = i) as -> by congruence.
    apply NoDup_cons in Hb as [Hb _]. apply Hb, list_elem_of_here.
  - split; [done|]. split; [done|].
    apply lookup_lt_is_Some_2, Hd, list_elem_of_here.
Qed.

(** *** The promise of [listen] *)

Lemma settle_settled n o ps i o' :
  ps !! i = Some (Some o') → settle n o ps !! i = Some (Some o').
Proof.
  intros H. unfold settle. destruct (ps !! n) as [[|]|] eqn:Hn; try done.
  destruct (decide (i = n)) as [->|]; [congruence|].
  by rewrite list_lookup_insert_ne.
Qed.

Lemma settle_pending n o ps i o' :
  ps !! i = Some None → settle n o ps !! i = Some (Some o') → i = n ∧ o' = o.
Proof.
  intros H. unfold settle. destruct (ps !! n) as [[|]|] eqn:Hn; try congruence.
  destruct (decide (i = n)) as [->|].
  - rewrite list_lookup_insert_eq by by eapply lookup_lt_Some. by intros [= <-].
  - rewrite list_lookup_insert_ne by done. congruence.
Qed.

Lemma listen_promises_foldl {A} (f : world → A → world) (l : list A) (w : world) :
  (∀ w a, listen_promises (f w a) = listen_promises w) →
  listen_promises (foldl f w l) = listen_promises w.
Proof.
  intros Hf. revert w. induction l as [|a l IH]; intros w; [done|].
  simpl. by rewrite IH, Hf.
Qed.

Lemma listen_promises_channelCreated i c w :
  listen_promises (channelCreated i c w) = listen_promises w.
Proof. unfold channelCreated. by destruct (create_each _ _). Qed.

Lemma listen_promises_dispatch w : listen_promises (dispatch w) = listen_promises w.
Proof.
  unfold dispatch. destruct (AMQPChannelManager.events _ !! _) as [[c|c]|]; [| |done].
  - rewrite listen_promises_foldl; [done|]. intros. apply listen_promises_channelCreated.
  - by rewrite listen_promises_foldl.
Qed.

Lemma listen_promises_hear id w : listen_promises (hear id w) = listen_promises w.
Proof.
  unfold hear. destruct (consumers w !! id) as [c|]; [|done].
  destruct (heard w !! id); [|done]. by destruct (AMQPConsumer.events c !! _).
Qed.

Lemma listen_promises_allStopped s w :
  listen_promises (allStopped s w) = listen_promises w.
Proof.
  unfold allStopped. destruct (stopPromises w !! s) as [ps|]; [|done].
  destruct (stop_promises w !! s) as [[o|]|]; try done.
  destruct (rejection _ _); [done|]. by destruct (forallb _ _).
Qed.

Lemma listen_promises_stop_tail (w1 : world) :
  listen_promises
    (let '(ps, cs) := stop_each (_consumers (self w1)) (consumers w1) in
     (Returns (length (stop_promises w1)),
      {| self := self w1; _channelManager := _channelManager w1;
         on_create := on_create w1; on_close := on_close w1;
         dispatched := dispatched w1;
         consumers := cs; heard := heard w1;
         listen_promises := listen_promises w1;
         consumePromises := consumePromises w1;
         stop_promises := stop_promises w1 ++ [None];
         stopPromises := stopPromises w1 ++ [ps] |})).2 = listen_promises w1.
Proof. by destruct (stop_each _ _). Qed.

Lemma settled_step (e : event) (w : world) i o :
  listen_promises w !! i = Some (Some o) →
  listen_promises (step e w) !! i = Some (Some o).
Proof.
  intros H. destruct e as [| |e| |id a|id|g|s]; simpl.
  - unfold listen. destruct (_started (self w)); [done|]. simpl.
    destruct (AMQPChannelManager.start _); simpl; [|done].
    by apply lookup_app_l_Some.
  - unfold stopListening. destruct (_started (self w)).
    + destruct (_destroy (self w)) as [j|]; [|done].
      rewrite listen_promises_stop_tail. simpl. by apply settle_settled.
    + by rewrite listen_promises_stop_tail.
  - done.
  - by rewrite listen_promises_dispatch.
  - by destruct (consumers w !! id).
  - by rewrite listen_promises_hear.
  - unfold allConsumed. destruct (consumePromises w !! g) as [[j ps]|]; [|done].
    destruct (forallb _ _); [|done]. simpl. by apply settle_settled.
  - by rewrite listen_promises_allStopped.
Qed.

Lemma settled_run (es : list event) (w : world) i o :
  listen_promises w !! i = Some (Some o) →
  listen_promises (run es w) !! i = Some (Some o).
Proof.
  revert w. induction es as [|e es IH]; intros w H; [done|].
  simpl. by apply IH, settled_step.
Qed.

(** X24. How the promise of an invocation of [listen] settles.  While it is
    pending, one step settles it in one of two ways only: it is fulfilled
    by the reaction to a [Promise.all] of that invocation whose [consume]
    promises are all fulfilled, or it is rejected with ["Manually stopped
    listening before it could start"] by a call of [stopListening] on a
    started listener whose [_destroy] is the closure of that invocation.
    A rejected [consume] settles nothing.  Once settled, the promise
    keeps its outcome whatever happens afterwards. *)
Theorem listen_promise_settles (w : world) (e : event) (i : Invocation) (o : outcome) :
  listen_promises (step e w) !! i = Some (Some o) →
  (listen_promises w !! i = Some None →
     (o = Fulfilled
      ∧ ∃ g ps, e = AllConsumed g ∧ consumePromises w !! g = Some (i, ps)
                ∧ forallb (fulfilled (consumers w)) ps = true)
     ∨ (o = Rejected stopped_by_hand
        ∧ e = CallStopListening
        ∧ _started (self w) = true ∧ _destroy (self w) = Some i))
  ∧ (∀ es, listen_promises (run es (step e w)) !! i = Some (Some o)).
Proof.
  intros H. split; [|intros es; by apply settled_run].
  intros Hp. destruct e as [| |e| |id a|id|g|s]; simpl in H.
  - exfalso. unfold listen in H. destruct (_started (self w)); [simpl in H; congruence|].
    simpl in H. destruct (AMQPChannelManager.start _); simpl in H; [|congruence].
    rewrite (lookup_app_l_Some _ _ _ _ Hp) in H. congruence.
  - right. unfold stopListening in H. destruct (_started (self w)).
    + destruct (_destroy (self w)) as [j|]; [|simpl in H; congruence].
      rewrite listen_promises_stop_tail in H. simpl in H.
      by destruct (settle_pending _ _ _ _ _ Hp H) as [-> ->].
    + rewrite listen_promises_stop_tail in H. congruence.
  - simpl in H. congruence.
  - rewrite listen_promises_dispatch in H. congruence.
  - destruct (consumers w !! id); simpl in H; congruence.
  - rewrite listen_promises_hear in H. congruence.
  - left. unfold allConsumed in H.
    destruct (consumePromises w !! g) as [[j ps]|] eqn:Hg; [|congruence].
    destruct (forallb _ _) eqn:Hall; [|congruence]. simpl in H.
    destruct (settle_pending _ _ _ _ _ Hp H) as [-> ->].
    split; [done|]. by exists g, ps.
  - rewrite listen_promises_allStopped in H. congruence.
Qed.

Lemma listen_promise_settles_witness :
  let w := run [CallListen; Manager (AMQPChannelManager.ChannelCreated 7); Dispatch]
             (new []) in
  listen_promises (step (AllConsumed 0) w) !! 0%nat = Some (Some Fulfilled)
  ∧ listen_promises w !! 0%nat = Some None
  ∧ ∀ es, listen_promises (run es (step (AllConsumed 0) w)) !! 0%nat
          = Some (Some Fulfilled).
Proof.
  intros w.
  assert (listen_promises (step (AllConsumed 0) w) !! 0%nat = Some (Some Fulfilled))
    as H by reflexivity.
  split; [done|]. split; [reflexivity|].
  exact (proj2 (listen_promise_settles w (AllConsumed 0) 0%nat Fulfilled H)).
Defined.

(** *** What [channelCreated] and [channelClosed] do to the consumers *)

Lemma create_each_spec fs cs :
  map fst (create_each fs cs).1 = seq (length cs) (length fs)
  ∧ map snd (create_each fs cs).1 = map (λ f, (consume (construct f)).1) fs
  ∧ (create_each fs cs).2 = cs ++ map (λ f, (consume (construct f)).2) fs.
Proof.
  revert cs. induction fs as [|f fs IH]; intros cs.
  - simpl. by rewrite app_nil_r.
  - change (create_each (f :: fs) cs)
      with (let '(p, c) := consume (construct f) in
            let '(ps, cs') := create_each fs (cs ++ [c]) in
            ((length cs, p) :: ps, cs')).
    destruct (consume (construct f)) as [p c] eqn:Hc.
    destruct (IH (cs ++ [c])) as (H1 & H2 & H3).
    destruct (create_each fs (cs ++ [c])) as [ps cs']. cbn [fst snd] in *.
    cbn [map fst snd length seq].
    rewrite H1, H2, H3, length_app, Hc. cbn [length fst snd app].
    by rewrite Nat.add_1_r, <- app_assoc.
Qed.

Lemma stop_each_lookup ids cs id :
  NoDup ids →
  (stop_each ids cs).2 !! id
  = if decide (id ∈ ids) then (λ c, (stopConsuming c).2) <$> cs !! id else cs !! id.
Proof.
  revert cs. induction ids as [|id0 ids IH]; intros cs Hnd.
  - simpl. destruct (decide (id ∈ [])) as [[]%elem_of_nil|]; done.
  - apply NoDup_cons in Hnd as [Hnotin Hnd]. simpl.
    destruct (cs !! id0) as [c|] eqn:Hc.
    + destruct (stopConsuming c) as [p c'] eqn:Hs.
      specialize (IH (<[id0 := c']> cs) Hnd).
      destruct (stop_each ids (<[id0 := c']> cs)) as [ps cs']. simpl in *.
      rewrite IH. destruct (decide (id = id0)) as [->|Hne].
      * rewrite decide_False by done. rewrite decide_True by apply list_elem_of_here.
        rewrite list_lookup_insert_eq by by eapply lookup_lt_Some.
        by rewrite Hc; simpl; rewrite Hs.
      * rewrite list_lookup_insert_ne by done.
        destruct (decide (id ∈ ids)) as [Hin|Hnin].
        -- by rewrite decide_True by by apply list_elem_of_further.
        -- rewrite decide_False; [done|]. by intros [?|?]%elem_of_cons.
    + rewrite IH by done. destruct (decide (id = id0)) as [->|Hne].
      * rewrite decide_False by done. rewrite decide_True by apply list_elem_of_here.
        by rewrite Hc.
      * destruct (decide (id ∈ ids)) as [Hin|Hnin].
        -- by rewrite decide_True by by apply list_elem_of_further.
        -- rewrite decide_False; [done|]. by intros [?|?]%elem_of_cons.
Qed.

Lemma held_foldl {A} (P : world → Prop) (f : world → A → world) (l : list A) (w : world) :
  (∀ w a, P w → P (f w a)) → P w → P (foldl f w l).
Proof.
  intros Hf. revert w. induction l as [|a l IH]; intros w Hw; [done|].
  simpl. by apply IH, Hf.
Qed.

Lemma held_same fs (w w' : world) :
  _consumerConstructors (self w') = _consumerConstructors (self w) →
  _consumers (self w') = _consumers (self w) →
  held fs w → held fs w'.
Proof. intros H1 H2 [Ha Hb]. split; congruence. Qed.

Lemma held_channelCreated fs i c w : held fs w → held fs (channelCreated i c w).
Proof.
  intros [Ha Hb]. unfold channelCreated.
  destruct (create_each_spec (_consumerConstructors (self w)) (consumers w)) as (H1 & _).
  destruct (create_each _ _) as [ps cs]. split; simpl; [done|].
  simpl in H1. rewrite H1. apply NoDup_seq.
Qed.

Lemma held_step fs (e : event) (w : world) : held fs w → held fs (step e w).
Proof.
  intros Hw. destruct e as [| |e| |id a|id|g|s]; simpl.
  - unfold listen. destruct (_started (self w)); [done|]. simpl.
    destruct (AMQPChannelManager.start _); simpl; revert Hw; by apply held_same.
  - unfold stopListening. destruct (_started (self w)).
    + destruct (_destroy (self w)) as [j|]; [|revert Hw; by apply held_same].
      simpl. destruct (stop_each _ _). revert Hw. by apply held_same.
    + destruct (stop_each _ _). revert Hw. by apply held_same.
  - revert Hw. by apply held_same.
  - unfold dispatch.
    destruct (AMQPChannelManager.events _ !! _) as [[c|c]|]; [| |done].
    + apply held_foldl; [|revert Hw; by apply held_same].
      intros w0 i. apply held_channelCreated.
    + apply held_foldl; [|revert Hw; by apply held_same].
      intros w0 i. by apply held_same.
  - destruct (consumers w !! id); [|done]. revert Hw. by apply held_same.
  - unfold hear. destruct (consumers w !! id) as [c|]; [|done].
    destruct (heard w !! id); [|done].
    destruct (AMQPConsumer.events c !! _); [|done].
    revert Hw. by apply held_same.
  - unfold allConsumed. destruct (consumePromises w !! g) as [[i ps]|]; [|done].
    destruct (forallb _ _); [|done]. revert Hw. by apply held_same.
  - unfold allStopped. destruct (stopPromises w !! s) as [ps|]; [|done].
    destruct (stop_promises w !! s) as [[o|]|]; try done.
    destruct (rejection _ _); [revert Hw; by apply held_same|].
    destruct (forallb _ _); [|done]. revert Hw. by apply held_same.
Qed.

Lemma held_run fs (es : list event) (w : world) : held fs w → held fs (run es w).
Proof.
  revert w. induction es as [|e es IH]; intros w Hw; [done|].
  simpl. by apply IH, held_step.
Qed.

Lemma held_new fs : held fs (new fs).
Proof. split; [done|]. by apply NoDup_nil. Qed.

(** X25. What the listeners of the manager do to the consumers, while the
    pair of one invocation is registered.  On ['create'], one consumer is
    constructed per factory, in the order of the factories, and [consume]
    is called on each; [_consumers] is replaced by exactly these new
    consumers, and the consumers held before are left as they are (they
    are not stopped).  On ['close'], [stopConsuming] is called once on
    each consumer of [_consumers] and on no other, and [_consumers] is
    kept. *)
Theorem manager_events_reach_the_consumers (fs : list ConsumerFactory)
    (es : list event) (i : Invocation) (c : Channel) :
  let w := run es (new fs) in
  on_create w = [i] →
  (AMQPChannelManager.events (_channelManager w) !! dispatched w
     = Some (AMQPChannelManager.EmitCreate c) →
   consumers (step Dispatch w)
     = consumers w ++ map (λ f, (consume (construct f)).2) fs
   ∧ _consumers (self (step Dispatch w)) = seq (length (consumers w)) (length fs)
   ∧ consumePromises (step Dispatch w)
     = consumePromises w
         ++ [(i, zip (seq (length (consumers w)) (length fs))
                     (map (λ f, (consume (construct f)).1) fs))])
  ∧ (AMQPChannelManager.events (_channelManager w) !! dispatched w
       = Some (AMQPChannelManager.EmitClose c) →
     _consumers (self (step Dispatch w)) = _consumers (self w)
     ∧ ∀ id, consumers (step Dispatch w) !! id
             = if decide (id ∈ _consumers (self w))
               then (λ c, (stopConsuming c).2) <$> consumers w !! id
               else consumers w !! id).
Proof.
  set (w := run es (new fs)). intros w0 Hi. subst w0.
  assert (held fs w) as [Hfs Hnd] by apply held_run, held_new.
  assert (registered w) as [Hsame _ _ _] by apply registered_run, registered_new.
  clearbody w. split; intros He; simpl; unfold dispatch; rewrite He.
  - rewrite Hi. simpl. unfold channelCreated. simpl. rewrite Hfs.
    destruct (create_each_spec fs (consumers w)) as (H1 & H2 & H3).
    destruct (create_each fs (consumers w)) as [ps cs]. simpl in *.
    split; [done|]. split; [done|]. rewrite <- H1, <- H2.
    by rewrite zip_fst_snd.
  - rewrite Hsame, Hi. simpl. split; [done|]. intros id.
    by apply stop_each_lookup.
Qed.

Lemma manager_events_reach_the_consumers_witness :
  let f := {| queueName := "q"; prefetch := VUndefined; exchanges := []; binds := [] |} in
  let w := run [CallListen; Manager (AMQPChannelManager.ChannelCreated 7)] (new [f]) in
  on_create w = [0%nat]
  ∧ consumers (step Dispatch w) = [(consume (construct f)).2]
  ∧ _consumers (self (step Dispatch w)) = [0%nat].
Proof.
  intros f w.
  pose proof (manager_events_reach_the_consumers [f]
                [CallListen; Manager (AMQPChannelManager.ChannelCreated 7)]
                0%nat 7%nat eq_refl) as [H _].
  destruct (H eq_refl) as (H1 & H2 & _).
  split; [reflexivity|]. split; [exact H1|exact H2].
Defined.

End AMQPListener.
